(** * Adaptive traffic light controller (adaptive_traffic_light.cpp)

    A shallow embedding of the controller of a 4-way intersection:
    the [TrafficLight] and [IntersectionController] objects, the
    density-to-duration allocation [compute_and_set_green], the phase
    sequencing [run_phase], the cycle loop [simulate_with_inputs] and the
    two input modes of [main].

    Conventions.
    - A C++ [int] is a [Z] in the 32-bit range; an operation that leaves
      that range is undefined behaviour and makes the procedure return
      [None].
    - A [double] is held by its exact value, a rational number [Q]; the
      two inexact operations of the program, a division and a product,
      round that value to binary64 (53 bits, nearest, ties to even), each
      on its own, as the SSE2 arithmetic of x86-64 does.  The rounding is
      checked against [SFdiv] and [SFmul] of the Standard Library on the
      whole range the random mode draws from.
    - The controller mutates its two lights and talks to the console, the
      clock and the scheduler; a procedure is a function on [Sim], the
      controller together with the chronological history of everything
      it did, each entry carrying the controller as it was just after. *)

From Stdlib Require Import ZArith QArith Qabs Qround Lqa Lia List Bool String Ascii.
From Stdlib Require Import DecimalString SpecFloat.
From Stdlib Require DecimalFacts DecimalPos.
Import ListNotations.

Local Open Scope Z_scope.

(* ===================================================================== *)
(** * C++ [int] *)
(* ===================================================================== *)

Module Int.

Definition INT_MIN : Z := - 2 ^ 31.
Definition INT_MAX : Z := 2 ^ 31 - 1.

(** The values an [int] variable can hold. *)
Definition in_range (x : Z) : Prop := INT_MIN <= x <= INT_MAX.

Definition in_rangeb (x : Z) : bool := (INT_MIN <=? x) && (x <=? INT_MAX).

(** An arithmetic result that does not fit is undefined behaviour. *)
Definition checked (x : Z) : option Z :=
  if in_rangeb x then Some x else None.

Definition add (a b : Z) : option Z := checked (a + b).
Definition sub (a b : Z) : option Z := checked (a - b).

(** [std::clamp(v, lo, hi)]: undefined when [hi < lo]. *)
Definition clamp (v lo hi : Z) : option Z :=
  if hi <? lo then None
  else Some (if v <? lo then lo else if hi <? v then hi else v).

(** [operator<<(int)]: decimal digits, a minus sign for negatives. *)
Definition to_string (x : Z) : string := NilZero.string_of_int (Z.to_int x).

End Int.

(* ===================================================================== *)
(** * C++ [double], by value *)
(* ===================================================================== *)

Module Double.

Local Open Scope Q_scope.

(** Round to the nearest integer, ties to the even one. *)
Definition round_nearest_even (x : Q) : Z :=
  let f := Qfloor x in
  match Qcompare (x - inject_Z f) (1 # 2) with
  | Lt => f
  | Gt => (f + 1)%Z
  | Eq => if Z.even f then f else (f + 1)%Z
  end.

(** [floor (log2 x)] of a positive rational. *)
Definition ilog2 (x : Q) : Z :=
  let n := Qnum x in
  let d := Zpos (Qden x) in
  let l := (Z.log2 n - Z.log2 d)%Z in
  let above :=
    if (0 <=? l)%Z then (2 ^ l * d <=? n)%Z else (d <=? n * 2 ^ (- l))%Z in
  if above then l else (l - 1)%Z.

(** The exponent of the last place of the binary64 number nearest to
    [x]: 53 significant bits, no exponent below that of the subnormals. *)
Definition ulp_exp (x : Q) : Z := Z.max (ilog2 (Qabs x) - 52) (- 1074).

(** The binary64 value nearest to [x] (the program never comes near
    the overflow threshold, so infinities are left out). *)
Definition round (x : Q) : Q :=
  let e := ulp_exp x in
  if (0 <=? e)%Z
  then inject_Z (round_nearest_even (x / inject_Z (2 ^ e)) * 2 ^ e)
  else inject_Z (round_nearest_even (x * inject_Z (2 ^ (- e))))
       / inject_Z (2 ^ (- e)).

(** Conversion of an [int] is exact. *)
Definition of_int (x : Z) : Q := inject_Z x.

(** [a + b] for two converted [int]s: the sum needs 33 bits, so it is
    exact as well. *)
Definition add_exact (a b : Q) : Q := a + b.

Definition div (a b : Q) : Q := round (a / b).
Definition mul (a b : Q) : Q := round (a * b).

(** [std::round]: nearest integer, halfway cases away from zero. *)
Definition cround (x : Q) : Q :=
  if Qle_bool 0 x
  then inject_Z (Qfloor (x + (1 # 2)))
  else inject_Z (- Qfloor (- x + (1 # 2))).

(** [static_cast<int>]: truncation toward zero, undefined when the
    truncated value is not an [int]. *)
Definition to_int (x : Q) : option Z :=
  Int.checked (if Qle_bool 0 x then Qfloor x else Qceiling x).

End Double.

(* ===================================================================== *)
(** * The lights and the controller *)
(* ===================================================================== *)

Local Open Scope string_scope.

Inductive LightState : Type := RED | GREEN | YELLOW.

Record TrafficLight : Type := mkTrafficLight {
  name : string;
  state : LightState;
  green_duration : Z;    (* seconds *)
  yellow_duration : Z;   (* seconds *)
  red_duration : Z       (* computed externally *)
}.

(** [TrafficLight(const string& n)], with the default member values. *)
Definition new_TrafficLight (n : string) : TrafficLight :=
  {| name := n; state := RED;
     green_duration := 10; yellow_duration := 3; red_duration := 0 |}.

Definition state_to_string (s : LightState) : string :=
  match s with
  | RED => "RED"
  | GREEN => "GREEN"
  | YELLOW => "YELLOW"
  end.

Definition with_state (s : LightState) (tl : TrafficLight) : TrafficLight :=
  {| name := name tl; state := s;
     green_duration := green_duration tl;
     yellow_duration := yellow_duration tl;
     red_duration := red_duration tl |}.

Definition with_green_duration (g : Z) (tl : TrafficLight) : TrafficLight :=
  {| name := name tl; state := state tl;
     green_duration := g;
     yellow_duration := yellow_duration tl;
     red_duration := red_duration tl |}.

Definition with_yellow_duration (y : Z) (tl : TrafficLight) : TrafficLight :=
  {| name := name tl; state := state tl;
     green_duration := green_duration tl;
     yellow_duration := y;
     red_duration := red_duration tl |}.

Record IntersectionController : Type := mkIntersectionController {
  ns : TrafficLight;   (* North-South *)
  ew : TrafficLight;   (* East-West *)
  min_green : Z;
  max_green : Z;
  yellow_time : Z;
  all_red_time : Z;
  cycles : Z;
  realtime_delay : bool
}.

(** The constructor: both lights are built, then take the configured
    yellow time. *)
Definition new_IntersectionController
    (minG maxG yellow allred cycles_ : Z) (realtime : bool)
  : IntersectionController :=
  {| ns := with_yellow_duration yellow (new_TrafficLight "North-South");
     ew := with_yellow_duration yellow (new_TrafficLight "East-West");
     min_green := minG; max_green := maxG;
     yellow_time := yellow; all_red_time := allred;
     cycles := cycles_; realtime_delay := realtime |}.

(** A [TrafficLight&] into the controller: which of its two members. *)
Inductive LightRef : Type := NS | EW.

Definition light (r : LightRef) (c : IntersectionController) : TrafficLight :=
  match r with NS => ns c | EW => ew c end.

Definition update_light (r : LightRef) (f : TrafficLight -> TrafficLight)
    (c : IntersectionController) : IntersectionController :=
  {| ns := match r with NS => f (ns c) | EW => ns c end;
     ew := match r with NS => ew c | EW => f (ew c) end;
     min_green := min_green c; max_green := max_green c;
     yellow_time := yellow_time c; all_red_time := all_red_time c;
     cycles := cycles c; realtime_delay := realtime_delay c |}.

(* ===================================================================== *)
(** * What a run does: events, history, procedures *)
(* ===================================================================== *)

Inductive Event : Type :=
| Print (text : string)                  (* a statement writing to [cout] *)
| Sleep (seconds : Z)                    (* [this_thread::sleep_for] *)
| Alloc (ns_density ew_density : Z)      (* [compute_and_set_green] entered *)
| Wait (seconds : Z)                     (* [wait_and_print] entered *)
| SetGreen (r : LightRef) (seconds : Z)  (* [green_duration = ...] *)
| SetYellow (r : LightRef) (seconds : Z) (* [yellow_duration = ...] *)
| SetState (r : LightRef) (s : LightState). (* [tl.state = s] *)

(** The broken-down local time read from the system clock. *)
Record tm : Type := { tm_hour : nat; tm_min : nat; tm_sec : nat }.

Record Sim : Type := mkSim {
  ctl : IntersectionController;
  hist : list (Event * IntersectionController);
  clock : nat -> tm;        (* what the k-th reading of the clock returns *)
  clock_reads : nat
}.

(** A procedure runs on the simulation and may hit undefined behaviour. *)
Definition Proc (A : Type) : Type := Sim -> option (A * Sim).

Definition ret {A} (x : A) : Proc A := fun s => Some (x, s).

Definition bind {A B} (p : Proc A) (k : A -> Proc B) : Proc B :=
  fun s => match p s with
           | Some (x, s') => k x s'
           | None => None
           end.

Declare Scope proc_scope.
Delimit Scope proc_scope with proc.
Notation "x <- p ;; k" := (bind p (fun x => k))
  (at level 61, p at next level, right associativity) : proc_scope.
Notation "p ;; k" := (bind p (fun _ => k))
  (at level 61, right associativity) : proc_scope.
Local Open Scope proc_scope.

(** Read a member of the controller. *)
Definition member {A} (f : IntersectionController -> A) : Proc A :=
  fun s => Some (f (ctl s), s).

(** An [int] or conversion result, undefined when absent. *)
Definition defined {A} (o : option A) : Proc A :=
  fun s => match o with Some x => Some (x, s) | None => None end.

(** Something happens that leaves the controller as it is. *)
Definition emit (e : Event) : Proc unit :=
  fun s => Some (tt, {| ctl := ctl s; hist := hist s ++ [(e, ctl s)];
                        clock := clock s; clock_reads := clock_reads s |}).

(** An assignment to a member of one light. *)
Definition assign (e : Event) (r : LightRef)
    (f : TrafficLight -> TrafficLight) : Proc unit :=
  fun s => let c := update_light r f (ctl s) in
           Some (tt, {| ctl := c; hist := hist s ++ [(e, c)];
                        clock := clock s; clock_reads := clock_reads s |}).

Definition read_clock : Proc tm :=
  fun s => Some (clock s (clock_reads s),
                 {| ctl := ctl s; hist := hist s;
                    clock := clock s; clock_reads := S (clock_reads s) |}).

(** A [for] loop over an [int] counter, [n] iterations from [c]; the
    increment after each of them must not overflow. *)
Fixpoint for_int (n : nat) (c : Z) (body : Z -> Proc unit) : Proc unit :=
  match n with
  | O => ret tt
  | S k => body c ;; c' <- defined (Int.add c 1) ;; for_int k c' body
  end.

(* ===================================================================== *)
(** * Console text *)
(* ===================================================================== *)

Definition nl : string := String (ascii_of_nat 10) EmptyString.

Definition digit (n : nat) : ascii := ascii_of_nat (48 + n mod 10).

Definition two_digits (n : nat) : string :=
  String (digit (n / 10)) (String (digit n) EmptyString).

(** [strftime(buf, sizeof(buf), "%H:%M:%S", &local_tm)] *)
Definition strftime_HMS (t : tm) : string :=
  two_digits (tm_hour t) ++ ":" ++ two_digits (tm_min t) ++ ":"
  ++ two_digits (tm_sec t).

Fixpoint spaces (n : nat) : string :=
  match n with O => EmptyString | S k => String " " (spaces k) end.

(** [setw(w)]: right-justify the next item in a field of [w] characters. *)
Definition setw (w : nat) (s : string) : string :=
  spaces (w - String.length s) ++ s.

(* ===================================================================== *)
(** * The controller's procedures *)
(* ===================================================================== *)

Definition current_time_str : Proc string :=
  t <- read_clock ;; ret (strftime_HMS t).

(** What a transition line announces after "will last". *)
Definition lasts (s : LightState) (tl : TrafficLight) : string :=
  match s with
  | GREEN => Int.to_string (green_duration tl)
  | YELLOW => Int.to_string (yellow_duration tl)
  | RED => "until other gets green"
  end.

Definition set_and_print (r : LightRef) (s : LightState) : Proc unit :=
  assign (SetState r s) r (with_state s) ;;
  now <- current_time_str ;;
  tl <- member (light r) ;;
  emit (Print ("[" ++ setw 3 now ++ "] " ++ name tl ++ " -> "
               ++ state_to_string s ++ " (will last ")) ;;
  emit (Print (lasts s tl)) ;;
  emit (Print ("s)" ++ nl)).

Definition wait_and_print (seconds : Z) : Proc unit :=
  emit (Wait seconds) ;;
  if (seconds <=? 0)%Z then ret tt
  else
    realtime <- member realtime_delay ;;
    if realtime then emit (Sleep seconds)
    else emit (Print ("   (simulated " ++ Int.to_string seconds ++ "s)" ++ nl)).

(** [base + static_cast<int>(round((d / total) * extra_budget))] *)
Definition proportional_green (base : Z) (d total : Q) (extra_budget : Z)
  : option Z :=
  match Double.to_int
          (Double.cround
             (Double.mul (Double.div d total) (Double.of_int extra_budget)))
  with
  | Some share => Int.add base share
  | None => None
  end.

Definition compute_and_set_green (ns_density ew_density : Z) : Proc unit :=
  emit (Alloc ns_density ew_density) ;;
  let nsd := Double.of_int ns_density in
  let ewd := Double.of_int ew_density in
  let total := Double.add_exact nsd ewd in
  if Qle_bool total 0 then
    m <- member min_green ;; assign (SetGreen NS m) NS (with_green_duration m) ;;
    m <- member min_green ;; assign (SetGreen EW m) EW (with_green_duration m)
  else
    base <- member min_green ;;
    hi <- member max_green ;;
    lo <- member min_green ;;
    extra_budget <- defined (Int.sub hi lo) ;;
    g <- defined (proportional_green base nsd total extra_budget) ;;
    assign (SetGreen NS g) NS (with_green_duration g) ;;
    g <- defined (proportional_green base ewd total extra_budget) ;;
    assign (SetGreen EW g) EW (with_green_duration g) ;;
    v <- member (fun c => green_duration (ns c)) ;;
    lo <- member min_green ;;
    hi <- member max_green ;;
    g <- defined (Int.clamp v lo hi) ;;
    assign (SetGreen NS g) NS (with_green_duration g) ;;
    v <- member (fun c => green_duration (ew c)) ;;
    lo <- member min_green ;;
    hi <- member max_green ;;
    g <- defined (Int.clamp v lo hi) ;;
    assign (SetGreen EW g) EW (with_green_duration g) ;;
    y <- member yellow_time ;;
    assign (SetYellow NS y) NS (with_yellow_duration y) ;;
    y <- member yellow_time ;;
    assign (SetYellow EW y) EW (with_yellow_duration y).

Definition run_phase (firstGreen second : LightRef) : Proc unit :=
  set_and_print firstGreen GREEN ;;
  d <- member (fun c => green_duration (light firstGreen c)) ;;
  wait_and_print d ;;
  set_and_print firstGreen YELLOW ;;
  d <- member (fun c => yellow_duration (light firstGreen c)) ;;
  wait_and_print d ;;
  set_and_print firstGreen RED ;;
  d <- member all_red_time ;;
  wait_and_print d ;;
  set_and_print second GREEN ;;
  d <- member (fun c => green_duration (light second c)) ;;
  wait_and_print d ;;
  set_and_print second YELLOW ;;
  d <- member (fun c => yellow_duration (light second c)) ;;
  wait_and_print d ;;
  set_and_print second RED ;;
  d <- member all_red_time ;;
  wait_and_print d.

(** The body of the loop of [simulate_with_inputs], for counter [c]. *)
Definition cycle (ns_density ew_density : Z) (c : Z) : Proc unit :=
  emit (Print ("=== Cycle " ++ Int.to_string c ++ " ===" ++ nl)) ;;
  compute_and_set_green ns_density ew_density ;;
  run_phase NS EW ;;
  emit (Print nl).

Definition simulate_with_inputs (ns_density ew_density : Z) : Proc unit :=
  n <- member cycles ;;
  emit (Print (nl ++ "Simulating " ++ Int.to_string n
               ++ " cycles with densities: NS=" ++ Int.to_string ns_density
               ++ "  EW=" ++ Int.to_string ew_density ++ nl ++ nl)) ;;
  for_int (Z.to_nat n) 1 (cycle ns_density ew_density).

(* ===================================================================== *)
(** * [main] *)
(* ===================================================================== *)

(** The simulation as the constructor leaves it. *)
Definition start (c : IntersectionController) (clk : nat -> tm) : Sim :=
  {| ctl := c; hist := []; clock := clk; clock_reads := 0 |}.

(** The simulation once the generator is seeded. *)
Definition seeded (s : Sim) : Sim :=
  {| ctl := ctl s; hist := hist s;
     clock := clock s; clock_reads := S (clock_reads s) |}.

(** One iteration of the loop of the random mode: [dist(rng)] twice, the
    banner, then the simulation with that pair.  [dist k] is the [k]-th
    number the distribution hands out. *)
Definition random_round (dist : nat -> Z) (c : Z) : Proc unit :=
  let ns_d := dist (2 * Z.to_nat c)%nat in
  let ew_d := dist (2 * Z.to_nat c + 1)%nat in
  k <- defined (Int.add c 1) ;;
  emit (Print (nl ++ "--- Random densities for cycle " ++ Int.to_string k
               ++ " ---" ++ nl)) ;;
  simulate_with_inputs ns_d ew_d.

(** [std::mt19937 rng((unsigned) chrono::system_clock::now()
    .time_since_epoch().count())]: the seed is one more reading of the
    system clock.  What the generator then hands out is [dist]. *)
Definition seed_rng : Proc unit := read_clock ;; ret tt.

(** [main] once it has read [cycles], [mode], [realtime] and, in manual
    mode, the two densities: it builds [controller(5, 40, 3, 1, cycles,
    realtime)] and simulates.  In random mode the first reading of the
    clock is the seed, so the transitions are stamped with the readings
    from the second on. *)
Definition main (cycles_ mode : Z) (realtime : bool) (ns_d ew_d : Z)
    (dist : nat -> Z) (clk : nat -> tm) : option (unit * Sim) :=
  let controller := new_IntersectionController 5 40 3 1 cycles_ realtime in
  ((if (mode =? 1)%Z then simulate_with_inputs ns_d ew_d
    else seed_rng ;; for_int (Z.to_nat cycles_) 0 (random_round dist)) ;;
   emit (Print (nl ++ "Simulation finished." ++ nl)))
    (start controller clk).

(* ===================================================================== *)
(** * Reading a history *)
(* ===================================================================== *)

Definition History : Type := list (Event * IntersectionController).

(** The phase transitions, in order. *)
Fixpoint transitions (h : History) : list (LightRef * LightState) :=
  match h with
  | [] => []
  | (SetState r s, _) :: h' => (r, s) :: transitions h'
  | _ :: h' => transitions h'
  end.

(** The phase transitions and the notifications of the timing
    collaborator, in order; a notification carries the phases the two
    lights (North-South, East-West) showed while it was in progress. *)
Inductive Step : Type :=
| Transition (r : LightRef) (s : LightState)
| Waiting (seconds : Z) (ns_state ew_state : LightState).

Fixpoint timeline (h : History) : list Step :=
  match h with
  | [] => []
  | (SetState r s, _) :: h' => Transition r s :: timeline h'
  | (Wait d, c) :: h' => Waiting d (state (ns c)) (state (ew c)) :: timeline h'
  | _ :: h' => timeline h'
  end.

(** The seconds the thread was put to sleep for, in order. *)
Fixpoint sleeps (h : History) : list Z :=
  match h with
  | [] => []
  | (Sleep d, _) :: h' => d :: sleeps h'
  | _ :: h' => sleeps h'
  end.

(** The density pairs of the allocations, in order: one per cycle. *)
Fixpoint allocations (h : History) : list (Z * Z) :=
  match h with
  | [] => []
  | (Alloc a b, _) :: h' => (a, b) :: allocations h'
  | _ :: h' => allocations h'
  end.

(** Everything written to [cout]. *)
Fixpoint output (h : History) : string :=
  match h with
  | [] => EmptyString
  | (Print t, _) :: h' => t ++ output h'
  | _ :: h' => output h'
  end.

(** The controller at every point of a history. *)
Definition snapshots (h : History) : list IntersectionController :=
  map snd h.

(** The allocator as a function, [allocate] in the specification: the
    green durations a controller with the given bounds sets for a
    density pair. *)
Definition allocate (ns_density ew_density minG maxG : Z) : option (Z * Z) :=
  match compute_and_set_green ns_density ew_density
          (start (new_IntersectionController minG maxG 3 1 5 true)
                 (fun _ => {| tm_hour := 0; tm_min := 0; tm_sec := 0 |}))
  with
  | Some (_, s) =>
      Some (green_duration (ns (ctl s)), green_duration (ew (ctl s)))
  | None => None
  end.

(** The history from the first phase transition on. *)
Fixpoint from_first_transition (h : History) : History :=
  match h with
  | [] => []
  | (SetState r s, c) :: h' => (SetState r s, c) :: h'
  | _ :: h' => from_first_transition h'
  end.

(* ===================================================================== *)
(** * Runs *)
(* ===================================================================== *)

(** The simulations a run passes through between cycles: the controller
    is constructed, then cycles are run, each with a density pair
    satisfying [D], with console output and readings of the clock in
    between. *)
Inductive reachable (D : Z -> Z -> Prop)
    (c0 : IntersectionController) (clk : nat -> tm) : Sim -> Prop :=
| reach_start :
    reachable D c0 clk (start c0 clk)
| reach_print s text u s' :
    reachable D c0 clk s ->
    emit (Print text) s = Some (u, s') ->
    reachable D c0 clk s'
| reach_cycle s ns_density ew_density k u s' :
    reachable D c0 clk s ->
    D ns_density ew_density ->
    cycle ns_density ew_density k s = Some (u, s') ->
    reachable D c0 clk s'
| reach_clock s t s' :
    reachable D c0 clk s ->
    read_clock s = Some (t, s') ->
    reachable D c0 clk s'.

Definition any_density (a b : Z) : Prop := True.

(** "Non-negative integer" for an [int] argument. *)
Definition non_negative (a b : Z) : Prop :=
  0 <= a <= Int.INT_MAX /\ 0 <= b <= Int.INT_MAX.

(** The precondition on the bounds: [max_green >= min_green >= 0]. *)
Definition well_configured (c : IntersectionController) : Prop :=
  0 <= min_green c /\ min_green c <= max_green c /\ max_green c <= Int.INT_MAX.

Definition green_within_bounds (c : IntersectionController) : Prop :=
  (min_green c <= green_duration (ns c) <= max_green c) /\
  (min_green c <= green_duration (ew c) <= max_green c).

Definition never_both_go (c : IntersectionController) : Prop :=
  state (ns c) = RED \/ state (ew c) = RED.

Definition all_red (c : IntersectionController) : Prop :=
  state (ns c) = RED /\ state (ew c) = RED.

Definition other (r : LightRef) : LightRef :=
  match r with NS => EW | EW => NS end.

(** The six steps of one cycle with their notifications. *)
Definition cycle_timeline (g_ns g_ew yellow allred : Z) : list Step :=
  [ Transition NS GREEN;  Waiting g_ns GREEN RED;
    Transition NS YELLOW; Waiting yellow YELLOW RED;
    Transition NS RED;    Waiting allred RED RED;
    Transition EW GREEN;  Waiting g_ew RED GREEN;
    Transition EW YELLOW; Waiting yellow RED YELLOW;
    Transition EW RED;    Waiting allred RED RED ].

(** The notifications of one cycle that put the thread to sleep: those
    of a positive duration, in real-time mode. *)
Definition cycle_sleeps (realtime : bool) (g_ns g_ew yellow allred : Z)
  : list Z :=
  if realtime
  then filter (fun d => (0 <? d)%Z)
              [g_ns; yellow; allred; g_ew; yellow; allred]
  else [].

(* ===================================================================== *)
(** * The share as the program computes it *)
(* ===================================================================== *)

(** The value of [static_cast<int>(round((d / total) * extra_budget))]
    for two converted [int]s: the quotient and the product are those of
    [double], the rounding is that of [std::round]. *)
Definition rounded_share (density total extra_budget : Z) : Z :=
  Qfloor (Double.cround
            (Double.mul (Double.div (inject_Z density) (inject_Z total))
                        (inject_Z extra_budget))).

(** What the same [std::round] would give were the quotient and the
    product exact. *)
Definition exact_share (density total extra_budget : Z) : Z :=
  Qfloor (Double.cround (inject_Z density / inject_Z total
                         * inject_Z extra_budget)%Q).

(* ===================================================================== *)
(** * The allocation as the specification words it *)
(* ===================================================================== *)

(** The proportion of the budget a density is entitled to, in exact
    arithmetic: [(density / total_density) * extra_budget]. *)
Definition proportion (density total extra_budget : Z) : Q :=
  (inject_Z density / inject_Z total * inject_Z extra_budget)%Q.

(** The value lies exactly halfway between two integers. *)
Definition halfway (x : Q) : Prop :=
  (x - inject_Z (Qfloor x) == 1 # 2)%Q.

(** Standard rounding, in its two variants. *)
Definition round_half_away_from_zero (x : Q) : Z :=
  match Qcompare x 0 with
  | Lt => Qceiling (x - (1 # 2))
  | _ => Qfloor (x + (1 # 2))
  end.

Definition round_half_to_even (x : Q) : Z :=
  let lower := Qfloor x in
  let upper := (lower + 1)%Z in
  match Qcompare (x - inject_Z lower) (inject_Z upper - x) with
  | Lt => lower
  | Gt => upper
  | Eq => if Z.even lower then lower else upper
  end.

(** [n] is [x] rounded to an integer: no integer is nearer, and at a
    halfway case either neighbour will do. *)
Definition rounds_to (x : Q) (n : Z) : Prop :=
  (Qabs (x - inject_Z n) <= 1 # 2)%Q.

(** Clamp to [[lo, hi]]. *)
Definition clamped (v lo hi : Z) : Z := Z.max lo (Z.min v hi).

(** The form of a phase-transition line. *)
Definition log_line (time direction phase n : string) : string :=
  "[" ++ time ++ "] " ++ direction ++ " -> " ++ phase
  ++ " (will last " ++ n ++ "s)" ++ nl.

(* ===================================================================== *)
(** * The binary64 operations of the Standard Library, for reference *)
(* ===================================================================== *)

Module Binary64.

Definition prec : Z := 53.
Definition emax : Z := 1024.

Definition of_int (x : Z) : spec_float :=
  match x with
  | Z0 => S754_zero false
  | Zpos p => binary_normalize prec emax (Zpos p) 0 false
  | Zneg p => binary_normalize prec emax (Zneg p) 0 true
  end.

Definition value (f : spec_float) : Q :=
  match f with
  | S754_finite sign m e =>
      let n := if sign then Zneg m else Zpos m in
      if (0 <=? e)%Z then inject_Z (n * 2 ^ e)
      else (inject_Z n / inject_Z (2 ^ (- e)))%Q
  | _ => 0%Q
  end.

(** [(d / total) * extra_budget] computed by [SFdiv] and [SFmul]. *)
Definition share (d total extra_budget : Z) : Q :=
  value (SFmul prec emax (SFdiv prec emax (of_int d) (of_int total))
               (of_int extra_budget)).

(** The same expression in the by-value model. *)
Definition share_by_value (d total extra_budget : Z) : Q :=
  Double.mul (Double.div (Double.of_int d) (Double.of_int total))
             (Double.of_int extra_budget).

(** Do the two agree for every density pair in [[0, n]] squared? *)
Definition agree_upto (n : nat) (extra_budget : Z) : bool :=
  forallb (fun a =>
    forallb (fun b =>
      let total := (Z.of_nat a + Z.of_nat b)%Z in
      if (total <=? 0)%Z then true
      else Qeq_bool (share (Z.of_nat a) total extra_budget)
                    (share_by_value (Z.of_nat a) total extra_budget)
           && Qeq_bool (share (Z.of_nat b) total extra_budget)
                       (share_by_value (Z.of_nat b) total extra_budget))
      (seq 0 (S n)))
    (seq 0 (S n)).

End Binary64.

(* ===================================================================== *)
(** * What each procedure adds to the history *)
(* ===================================================================== *)

(** Events that all happen with the controller as [c]. *)
Definition stamp (c : IntersectionController) (evs : list Event) : History :=
  map (fun e => (e, c)) evs.

(** The simulation [s] after the controller became [c], the history grew
    by [h] and the clock was read [reads] more times. *)
Definition advanced (s : Sim) (c : IntersectionController) (h : History)
    (reads : nat) : Sim :=
  {| ctl := c; hist := hist s ++ h;
     clock := clock s; clock_reads := (clock_reads s + reads)%nat |}.

Definition set_events (r : LightRef) (s : LightState) (now : tm)
    (tl : TrafficLight) : list Event :=
  [ SetState r s;
    Print ("[" ++ setw 3 (strftime_HMS now) ++ "] " ++ name tl ++ " -> "
           ++ state_to_string s ++ " (will last ");
    Print (lasts s tl);
    Print ("s)" ++ nl) ].

Definition wait_events (realtime : bool) (seconds : Z) : list Event :=
  Wait seconds ::
  (if (seconds <=? 0)%Z then []
   else if realtime then [Sleep seconds]
   else [Print ("   (simulated " ++ Int.to_string seconds ++ "s)" ++ nl)]).

(** A transition of light [r] to phase [s] followed by the notification
    of its duration [d]: the controller after, and the history added. *)
Definition phase_ctl (r : LightRef) (s : LightState)
    (c : IntersectionController) : IntersectionController :=
  update_light r (with_state s) c.

Definition phase_events (r : LightRef) (s : LightState) (now : tm) (d : Z)
    (c : IntersectionController) : History :=
  stamp (phase_ctl r s c)
        (set_events r s now (light r (phase_ctl r s c))
         ++ wait_events (realtime_delay c) d).

(** The controller after [run_phase], and the history it adds when the
    clock has been read [k] times before. *)
Definition run_phase_ctl (firstGreen second : LightRef)
    (c : IntersectionController) : IntersectionController :=
  phase_ctl second RED (phase_ctl second YELLOW (phase_ctl second GREEN
    (phase_ctl firstGreen RED (phase_ctl firstGreen YELLOW
      (phase_ctl firstGreen GREEN c))))).

Definition run_phase_events (firstGreen second : LightRef)
    (clk : nat -> tm) (k : nat) (c : IntersectionController) : History :=
  let c1 := phase_ctl firstGreen GREEN c in
  let c2 := phase_ctl firstGreen YELLOW c1 in
  let c3 := phase_ctl firstGreen RED c2 in
  let c4 := phase_ctl second GREEN c3 in
  let c5 := phase_ctl second YELLOW c4 in
  let c6 := phase_ctl second RED c5 in
  (phase_events firstGreen GREEN (clk k)
    (green_duration (light firstGreen c1)) c
  ++ phase_events firstGreen YELLOW (clk (k + 1)%nat)
       (yellow_duration (light firstGreen c2)) c1
  ++ phase_events firstGreen RED (clk (k + 2)%nat) (all_red_time c3) c2
  ++ phase_events second GREEN (clk (k + 3)%nat)
       (green_duration (light second c4)) c3
  ++ phase_events second YELLOW (clk (k + 4)%nat)
       (yellow_duration (light second c5)) c4
  ++ phase_events second RED (clk (k + 5)%nat) (all_red_time c6) c5)%list.

(** [compute_and_set_green] on its early return: both lights take the
    minimum. *)
Definition minimal_ctl (c : IntersectionController) : IntersectionController :=
  update_light EW (with_green_duration (min_green c))
    (update_light NS (with_green_duration (min_green c)) c).

Definition minimal_events (a b : Z) (c : IntersectionController) : History :=
  let c1 := update_light NS (with_green_duration (min_green c)) c in
  let c2 := update_light EW (with_green_duration (min_green c)) c1 in
  [ (Alloc a b, c); (SetGreen NS (min_green c), c1);
    (SetGreen EW (min_green c), c2) ].

(** [compute_and_set_green] on its proportional path: the two shares
    [g_ns] and [g_ew] are assigned, then their clamped values [k_ns] and
    [k_ew], then the yellow time. *)
Definition proportional_ctl (g_ns g_ew k_ns k_ew : Z)
    (c : IntersectionController) : IntersectionController :=
  update_light EW (with_yellow_duration (yellow_time c))
    (update_light NS (with_yellow_duration (yellow_time c))
      (update_light EW (with_green_duration k_ew)
        (update_light NS (with_green_duration k_ns)
          (update_light EW (with_green_duration g_ew)
            (update_light NS (with_green_duration g_ns) c))))).

Definition proportional_events (a b g_ns g_ew k_ns k_ew : Z)
    (c : IntersectionController) : History :=
  let c1 := update_light NS (with_green_duration g_ns) c in
  let c2 := update_light EW (with_green_duration g_ew) c1 in
  let c3 := update_light NS (with_green_duration k_ns) c2 in
  let c4 := update_light EW (with_green_duration k_ew) c3 in
  let c5 := update_light NS (with_yellow_duration (yellow_time c)) c4 in
  let c6 := update_light EW (with_yellow_duration (yellow_time c)) c5 in
  [ (Alloc a b, c); (SetGreen NS g_ns, c1); (SetGreen EW g_ew, c2);
    (SetGreen NS k_ns, c3); (SetGreen EW k_ew, c4);
    (SetYellow NS (yellow_time c), c5); (SetYellow EW (yellow_time c), c6) ].

(** The two outcomes of a defined call of [compute_and_set_green a b] on
    controller [c]: the controller after it and the history it adds. *)
Inductive allocated (a b : Z) (c : IntersectionController)
  : IntersectionController -> History -> Prop :=
| allocated_minimal :
    a + b <= 0 ->
    allocated a b c (minimal_ctl c) (minimal_events a b c)
| allocated_proportional extra g_ns g_ew k_ns k_ew :
    0 < a + b ->
    Int.sub (max_green c) (min_green c) = Some extra ->
    proportional_green (min_green c) (inject_Z a) (inject_Z (a + b)) extra
    = Some g_ns ->
    proportional_green (min_green c) (inject_Z b) (inject_Z (a + b)) extra
    = Some g_ew ->
    Int.clamp g_ns (min_green c) (max_green c) = Some k_ns ->
    Int.clamp g_ew (min_green c) (max_green c) = Some k_ew ->
    allocated a b c (proportional_ctl g_ns g_ew k_ns k_ew c)
              (proportional_events a b g_ns g_ew k_ns k_ew c).

(** The history one cycle adds: the banner, the allocation [h_alloc]
    that left the controller as [c1], the phases, the empty line. *)
Definition cycle_events (k : Z) (clk : nat -> tm) (reads : nat)
    (c c1 : IntersectionController) (h_alloc : History) : History :=
  (stamp c [Print ("=== Cycle " ++ Int.to_string k ++ " ===" ++ nl)]
   ++ h_alloc
   ++ run_phase_events NS EW clk reads c1
   ++ stamp (run_phase_ctl NS EW c1) [Print nl])%list.

(** What does not change during a run. *)
Definition configuration (c : IntersectionController)
  : Z * Z * Z * Z * Z * bool :=
  (min_green c, max_green c, yellow_time c, all_red_time c, cycles c,
   realtime_delay c).

Definition yellow_as_configured (c : IntersectionController) : Prop :=
  yellow_duration (ns c) = yellow_time c /\
  yellow_duration (ew c) = yellow_time c.

(** [P] holds of the controller now and held at every earlier point. *)
Definition always (P : IntersectionController -> Prop) (s : Sim) : Prop :=
  P (ctl s) /\ Forall P (snapshots (hist s)).

(** Between a light losing green and a light gaining it lies a
    notification of [allred] seconds during which both lights are red:
    every transition to GREEN but the very first comes right after that
    notification, which comes right after the other light turned RED. *)
Definition all_red_gaps (allred : Z) (tl : list Step) : Prop :=
  forall before r after,
    tl = (before ++ Transition r GREEN :: after)%list ->
    before = [] \/
    exists earlier,
      before = (earlier ++ [Transition (other r) RED;
                            Waiting allred RED RED])%list.

(** The timeline is a sequence of whole cycles. *)
Definition whole_cycles (yellow allred : Z) (tl : list Step) : Prop :=
  exists blocks,
    tl = List.concat blocks /\
    Forall (fun blk => exists g_ns g_ew,
                blk = cycle_timeline g_ns g_ew yellow allred) blocks.

(** A property of the controller that a phase transition keeps. *)
Definition phase_stable (P : IntersectionController -> Prop) : Prop :=
  forall r st c, P c -> P (phase_ctl r st c).


(** A decimal digit character. *)
Definition is_digit (a : ascii) : bool :=
  (48 <=? nat_of_ascii a)%nat && (nat_of_ascii a <=? 57)%nat.

(** ["HH:MM:SS"]: two digits, a colon, two digits, a colon, two digits. *)
Definition is_HH_MM_SS (t : string) : Prop :=
  exists h1 h2 m1 m2 s1 s2,
    t = String h1 (String h2 (String ":" (String m1 (String m2
          (String ":" (String s1 (String s2 EmptyString))))))) /\
    forallb is_digit [h1; h2; m1; m2; s1; s2] = true.

(** The number a string of decimal digits stands for, read from the
    left after the digits that gave [acc]. *)
Fixpoint digits_value (acc : Z) (s : string) : option Z :=
  match s with
  | EmptyString => Some acc
  | String c rest =>
      if is_digit c
      then digits_value (10 * acc + Z.of_nat (nat_of_ascii c - 48))%Z rest
      else None
  end.

(** A numeral without sign: at least one digit, and no zero in front of
    other digits. *)
Definition unsigned_value (s : string) : option Z :=
  match s with
  | EmptyString => None
  | String "0" (String _ _) => None
  | _ => digits_value 0 s
  end.

(** The integer a decimal numeral stands for: a minus sign only in
    front of a positive numeral. *)
Definition numeral_value (s : string) : option Z :=
  match s with
  | String "-" rest =>
      match unsigned_value rest with
      | Some (Zpos p) => Some (Zneg p)
      | _ => None
      end
  | _ => unsigned_value s
  end.

(* ===================================================================== *)
(** * Sample runs *)
(* ===================================================================== *)

(** A clock that starts at 13:05:00 and advances a second per reading. *)
Definition sample_clock (k : nat) : tm :=
  {| tm_hour := 13; tm_min := 5; tm_sec := k mod 60 |}.

(** The controller [main] builds for two cycles in fast mode. *)
Definition sample_controller : IntersectionController :=
  new_IntersectionController 5 40 3 1 2 false.

(** A controller whose minimum green exceeds the default duration. *)
Definition long_green_controller : IntersectionController :=
  new_IntersectionController 20 40 3 1 1 false.

(** The state a computation ends in, or the given one if undefined. *)
Definition result_or (s : Sim) (r : option (unit * Sim)) : Sim :=
  match r with Some (_, s') => s' | None => s end.

(** After the first cycle of [sample_controller] on densities 30, 70. *)
Definition sample_after_cycle : Sim :=
  result_or (start sample_controller sample_clock)
            (cycle 30 70 1 (start sample_controller sample_clock)).

(** Four numbers handed out by the distribution, then zeros. *)
Definition sample_dist (k : nat) : Z := nth k [30; 70; 100; 0] 0.

(* ===================================================================== *)
(** * The console input of [main] *)
(* ===================================================================== *)

(** What formatted extraction finds next on [cin] after skipping white
    space: an integer literal, or text that is none.  The end of the
    list is the end of the input. *)
Inductive Token : Type :=
| Num (z : Z)
| Junk.

Record Cin : Type := mkCin {
  pending : list Token;
  failbit : bool
}.

(** [cin >> v] for an [int] whose value before is [v] ([None] when it
    was never initialised).  On a stream that already failed, or at the
    end of the input, nothing is stored; text that is no number stores
    0, a number outside [int] stores the nearest bound; all of these
    set [failbit]. *)
Definition read_int (v : option Z) (c : Cin) : option Z * Cin :=
  if failbit c then (v, c)
  else
    match pending c with
    | [] => (v, {| pending := []; failbit := true |})
    | Junk :: _ => (Some 0%Z, {| pending := pending c; failbit := true |})
    | Num z :: rest =>
        if (z <? Int.INT_MIN)%Z
        then (Some Int.INT_MIN, {| pending := rest; failbit := true |})
        else if (Int.INT_MAX <? z)%Z
        then (Some Int.INT_MAX, {| pending := rest; failbit := true |})
        else (Some z, {| pending := rest; failbit := false |})
    end.

(** [cin >> v] for a [bool] (no [boolalpha]): 0 is [false], 1 is [true],
    any other number stores [true] and text that is no number stores
    [false], both setting [failbit]. *)
Definition read_bool (v : bool) (c : Cin) : bool * Cin :=
  if failbit c then (v, c)
  else
    match pending c with
    | [] => (v, {| pending := []; failbit := true |})
    | Junk :: _ => (false, {| pending := pending c; failbit := true |})
    | Num 0 :: rest => (false, {| pending := rest; failbit := false |})
    | Num 1 :: rest => (true, {| pending := rest; failbit := false |})
    | Num _ :: rest => (true, {| pending := rest; failbit := true |})
    end.

Definition banner : string :=
  "Adaptive Traffic Light Simulator" ++ nl
  ++ "--------------------------------" ++ nl.

Definition prompt_cycles : string :=
  "Enter number of cycles to simulate (e.g., 3): ".

Definition prompt_mode : string :=
  "Choose input mode: 1) Manual densities  2) Random densities" ++ nl
  ++ "Enter 1 or 2: ".

Definition prompt_realtime : string :=
  "Run in real-time (sleep between phases)? 1=Yes 0=No "
  ++ "(choose 0 for fast output): ".

Definition prompt_ns : string :=
  "Enter NS (North-South) traffic density (non-negative integer): ".

Definition prompt_ew : string :=
  "Enter EW (East-West) traffic density (non-negative integer): ".

(** What a run of the program leaves behind: its exit code, everything
    it wrote to [cout], and the simulation if it got to one. *)
Record Outcome : Type := mkOutcome {
  exit_code : Z;
  stdout : string;
  simulation : option Sim
}.

(** The whole of [main] on the console input [input]; [None] when the
    behaviour is undefined, which includes using an [int] that no
    extraction ever stored to. *)
Definition program (input : list Token) (dist : nat -> Z) (clk : nat -> tm)
  : option Outcome :=
  let out0 := banner ++ prompt_cycles in
  let '(cycles_, c1) := read_int None {| pending := input; failbit := false |} in
  if failbit c1
  then Some {| exit_code := 0; stdout := out0; simulation := None |}
  else
    let out1 := out0 ++ prompt_mode in
    let '(mode, c2) := read_int None c1 in
    let out2 := out1 ++ prompt_realtime in
    let '(realtime, c3) := read_bool false c2 in
    match cycles_, mode with
    | Some n, Some m =>
        if (m =? 1)%Z then
          let out3 := out2 ++ prompt_ns in
          let '(ns_d, c4) := read_int None c3 in
          let out4 := out3 ++ prompt_ew in
          let '(ew_d, c5) := read_int None c4 in
          match ns_d, ew_d with
          | Some a, Some b =>
              match main n m realtime a b dist clk with
              | Some (_, s) =>
                  Some {| exit_code := 0;
                          stdout := out4 ++ output (hist s);
                          simulation := Some s |}
              | None => None
              end
          | _, _ => None
          end
        else
          match main n m realtime 0 0 dist clk with
          | Some (_, s) =>
              Some {| exit_code := 0;
                      stdout := out2 ++ output (hist s);
                      simulation := Some s |}
          | None => None
          end
    | _, _ => None
    end.

(** The first token is no number an [int] can hold. *)
Definition no_cycle_count (input : list Token) : Prop :=
  match input with
  | [] => True
  | Junk :: _ => True
  | Num z :: _ => (z < Int.INT_MIN \/ Int.INT_MAX < z)%Z
  end.

(* ===================================================================== *)
(** * Sums and repetitions *)
(* ===================================================================== *)

(** The sum of a list of durations. *)
Definition total (l : list Z) : Z := fold_right Z.add 0%Z l.

(** What never changes in a light. *)
Definition untouched (c0 c : IntersectionController) : Prop :=
  name (ns c) = name (ns c0) /\ name (ew c) = name (ew c0) /\
  red_duration (ns c) = red_duration (ns c0) /\
  red_duration (ew c) = red_duration (ew c0) /\
  configuration c = configuration c0.

(** Between [s] and [s'] the clock was read once for each phase
    transition and at no other time. *)
Definition timestamped (s s' : Sim) : Prop :=
  (clock_reads s' + List.length (transitions (hist s))
   = clock_reads s + List.length (transitions (hist s')))%nat.

(** A clock reading [strftime] prints in full. *)
Definition valid_tm (t : tm) : Prop :=
  (tm_hour t < 24 /\ tm_min t < 60 /\ tm_sec t <= 60)%nat.

(** The controller [main] builds for two cycles in real-time mode, and
    the simulation after its first cycle on densities 30, 70. *)
Definition real_time_controller : IntersectionController :=
  new_IntersectionController 5 40 3 1 2 true.

Definition real_time_after_cycle : Sim :=
  result_or (start real_time_controller sample_clock)
            (cycle 30 70 1 (start real_time_controller sample_clock)).

(** An answer to the timing question that is neither 0 nor 1. *)
Definition bad_timing (t : Token) : Prop :=
  match t with
  | Junk => True
  | Num z => (z <> 0 /\ z <> 1)%Z
  end.

(* ===================================================================== *)
(** * Theorems *)
(* ===================================================================== *)

Local Close Scope string_scope.

Section DoubleBounds.
Local Open Scope Q_scope.

Lemma round_nearest_even_nonneg (x : Q) :
  0 <= x -> (0 <= Double.round_nearest_even x)%Z.
Proof.
  intros Hx. unfold Double.round_nearest_even.
  assert (Hf : (0 <= Qfloor x)%Z).
  { change 0%Z with (Qfloor 0). now apply Qfloor_resp_le. }
  destruct (Qcompare _ _); [destruct (Z.even _)| |]; lia.
Qed.

Lemma round_nearest_even_le (x : Q) (n : Z) :
  x <= inject_Z n -> (Double.round_nearest_even x <= n)%Z.
Proof.
  intros Hx. unfold Double.round_nearest_even.
  assert (Hf : (Qfloor x <= n)%Z).
  { rewrite <- (Qfloor_Z n). now apply Qfloor_resp_le. }
  destruct (Z.eq_dec (Qfloor x) n) as [E | E].
  - rewrite E.
    assert (Hlt : x - inject_Z n < 1 # 2) by lra.
    rewrite (proj1 (Qlt_alt _ _) Hlt). lia.
  - destruct (Qcompare _ _); [destruct (Z.even _)| |]; lia.
Qed.

Lemma Qabs_nonneg_eq (x : Q) : 0 <= x -> Qabs x = x.
Proof.
  destruct x as [n d]. unfold Qle, Qabs. cbn [Qnum Qden]. intros H.
  f_equal. apply Z.abs_eq. lia.
Qed.

Lemma ilog2_le (x : Q) (N : Z) :
  0 <= x -> x <= inject_Z N -> (N <= Int.INT_MAX)%Z -> (Double.ilog2 x <= 31)%Z.
Proof.
  intros H0 HN Hmax.
  assert (Hl : (Z.log2 (Qnum x) - Z.log2 (Zpos (Qden x)) <= 31)%Z).
  { destruct x as [n d]. unfold Qle in H0, HN. cbn [Qnum Qden inject_Z] in *.
    assert (Hn : (n <= N * Zpos d)%Z) by lia.
    assert (Hn0 : (0 <= n)%Z) by lia.
    assert (HN0 : (0 <= N)%Z) by nia.
    assert (Z.log2 n <= Z.log2 (N * Zpos d))%Z by now apply Z.log2_le_mono.
    assert (Z.log2 (N * Zpos d) <= Z.log2 N + Z.log2 (Zpos d) + 1)%Z
      by (apply Z.log2_mul_above; lia).
    assert (Z.log2 N < 31)%Z.
    { destruct (Z.eq_dec N 0) as [-> | ]; [cbn; lia|].
      apply Z.log2_lt_pow2; [lia|]. unfold Int.INT_MAX in Hmax. lia. }
    lia. }
  unfold Double.ilog2.
  destruct (if (0 <=? _)%Z then _ else _); lia.
Qed.

Lemma round_bounds (x : Q) (N : Z) :
  0 <= x -> x <= inject_Z N -> (N <= Int.INT_MAX)%Z ->
  0 <= Double.round x /\ Double.round x <= inject_Z N.
Proof.
  intros H0 HN Hmax.
  assert (He : (Double.ulp_exp x < 0)%Z).
  { unfold Double.ulp_exp. rewrite Qabs_nonneg_eq by assumption.
    pose proof (ilog2_le x N H0 HN Hmax). lia. }
  unfold Double.round.
  destruct (Z.leb_spec 0 (Double.ulp_exp x)) as [? | _]; [lia|].
  set (k := (2 ^ (- Double.ulp_exp x))%Z).
  assert (Hk : (0 < k)%Z) by (apply Z.pow_pos_nonneg; lia).
  assert (HkQ : 0 < inject_Z k) by (change 0 with (inject_Z 0); now rewrite <- Zlt_Qlt).
  assert (Hlo : (0 <= Double.round_nearest_even (x * inject_Z k))%Z).
  { apply round_nearest_even_nonneg. apply Qmult_le_0_compat; lra. }
  assert (Hhi : (Double.round_nearest_even (x * inject_Z k) <= N * k)%Z).
  { apply round_nearest_even_le. rewrite inject_Z_mult.
    apply Qmult_le_compat_r; lra. }
  rewrite Zle_Qle in Hlo, Hhi. rewrite inject_Z_mult in Hhi.
  change (inject_Z 0) with 0 in Hlo.
  split.
  - apply Qle_shift_div_l; [assumption|]. now rewrite Qmult_0_l.
  - apply Qle_shift_div_r; [assumption|]. exact Hhi.
Qed.

Lemma cround_to_int (p : Q) (N : Z) :
  0 <= p -> p <= inject_Z N -> (N <= Int.INT_MAX)%Z ->
  Double.to_int (Double.cround p) = Some (Qfloor (Double.cround p)) /\
  (0 <= Qfloor (Double.cround p) <= N)%Z.
Proof.
  intros H0 HN Hmax.
  unfold Double.cround.
  assert (Hle : Qle_bool 0 p = true) by now apply Qle_bool_iff.
  rewrite Hle.
  set (z := Qfloor (p + (1 # 2))).
  assert (Hz0 : (0 <= z)%Z).
  { change 0%Z with (Qfloor 0). apply Qfloor_resp_le. lra. }
  assert (HzN : (z <= N)%Z).
  { assert (inject_Z z <= p + (1 # 2)) by apply Qfloor_le.
    assert (inject_Z z < inject_Z (N + 1)).
    { rewrite inject_Z_plus. change (inject_Z 1) with 1. lra. }
    rewrite <- Zlt_Qlt in *. lia. }
  rewrite Qfloor_Z. split; [|lia].
  unfold Double.to_int.
  assert (Hz : Qle_bool 0 (inject_Z z) = true).
  { apply Qle_bool_iff. change 0 with (inject_Z 0). now rewrite <- Zle_Qle. }
  rewrite Hz, Qfloor_Z. unfold Int.checked, Int.in_rangeb.
  unfold Int.INT_MAX, Int.INT_MIN in *.
  destruct (Z.leb_spec (- 2 ^ 31) z), (Z.leb_spec z (2 ^ 31 - 1)); cbn; try reflexivity; lia.
Qed.

End DoubleBounds.

Lemma advanced_nil (s : Sim) : advanced s (ctl s) [] 0 = s.
Proof.
  destruct s as [c h k n]. unfold advanced. cbn.
  now rewrite app_nil_r, Nat.add_0_r.
Qed.

Lemma advanced_advanced s c1 h1 n1 c2 h2 n2 :
  advanced (advanced s c1 h1 n1) c2 h2 n2 = advanced s c2 (h1 ++ h2) (n1 + n2).
Proof.
  unfold advanced. cbn. now rewrite app_assoc, Nat.add_assoc.
Qed.

Lemma emit_eq e s : emit e s = Some (tt, advanced s (ctl s) (stamp (ctl s) [e]) 0).
Proof. unfold emit, advanced. cbn. now rewrite Nat.add_0_r. Qed.

Lemma assign_eq e r f s :
  assign e r f s
  = Some (tt, advanced s (update_light r f (ctl s))
                       (stamp (update_light r f (ctl s)) [e]) 0).
Proof. unfold assign, advanced. cbn. now rewrite Nat.add_0_r. Qed.

Lemma set_and_print_eq r st s :
  set_and_print r st s
  = Some (tt, advanced s (phase_ctl r st (ctl s))
                (stamp (phase_ctl r st (ctl s))
                   (set_events r st (clock s (clock_reads s))
                      (light r (phase_ctl r st (ctl s))))) 1).
Proof.
  unfold set_and_print, current_time_str, bind, assign, read_clock, ret, member, emit, advanced, stamp, set_events, phase_ctl.
  cbn. repeat rewrite <- app_assoc. cbn. now rewrite Nat.add_1_r.
Qed.

Lemma wait_and_print_eq d s :
  wait_and_print d s
  = Some (tt, advanced s (ctl s)
                (stamp (ctl s) (wait_events (realtime_delay (ctl s)) d)) 0).
Proof.
  unfold wait_and_print, bind, member, emit, ret, advanced, stamp, wait_events.
  cbn. destruct (d <=? 0); cbn.
  - now rewrite Nat.add_0_r.
  - destruct (realtime_delay (ctl s)); cbn; rewrite <- app_assoc, Nat.add_0_r; reflexivity.
Qed.

Lemma stamp_app c l1 l2 : stamp c (l1 ++ l2) = stamp c l1 ++ stamp c l2.
Proof. apply map_app. Qed.

(** A transition followed by the notification of a duration read from
    the controller. *)
Lemma phase_eq r st (dur : IntersectionController -> Z) (k : Proc unit) s :
  (set_and_print r st ;; d <- member dur ;; wait_and_print d ;; k) s
  = k (advanced s (phase_ctl r st (ctl s))
         (phase_events r st (clock s (clock_reads s))
            (dur (phase_ctl r st (ctl s))) (ctl s)) 1).
Proof.
  unfold bind at 1. rewrite set_and_print_eq.
  unfold bind at 1, member at 1. unfold bind at 1. rewrite wait_and_print_eq.
  rewrite advanced_advanced. unfold phase_events. rewrite stamp_app.
  reflexivity.
Qed.

Lemma phase_eq_last r st (dur : IntersectionController -> Z) s :
  (set_and_print r st ;; d <- member dur ;; wait_and_print d) s
  = Some (tt, advanced s (phase_ctl r st (ctl s))
         (phase_events r st (clock s (clock_reads s))
            (dur (phase_ctl r st (ctl s))) (ctl s)) 1).
Proof.
  unfold bind at 1. rewrite set_and_print_eq.
  unfold bind at 1, member at 1. rewrite wait_and_print_eq.
  rewrite advanced_advanced. unfold phase_events. rewrite stamp_app.
  reflexivity.
Qed.

Lemma run_phase_eq f g s :
  run_phase f g s
  = Some (tt, advanced s (run_phase_ctl f g (ctl s))
                (run_phase_events f g (clock s) (clock_reads s) (ctl s)) 6).
Proof.
  unfold run_phase.
  do 5 (rewrite phase_eq). rewrite phase_eq_last.
  repeat rewrite advanced_advanced.
  unfold run_phase_ctl, run_phase_events.
  cbn [ctl clock clock_reads advanced].
  repeat rewrite <- app_assoc.
  reflexivity.
Qed.

Lemma total_eq (a b : Z) :
  Double.add_exact (Double.of_int a) (Double.of_int b) = inject_Z (a + b).
Proof.
  unfold Double.add_exact, Double.of_int, inject_Z, Qplus. cbn.
  f_equal. lia.
Qed.

Lemma Qle_bool_inject_0 (z : Z) : Qle_bool (inject_Z z) 0 = (z <=? 0).
Proof. unfold Qle_bool. cbn. now rewrite Z.mul_1_r. Qed.

Lemma compute_and_set_green_minimal a b s :
  a + b <= 0 ->
  compute_and_set_green a b s
  = Some (tt, advanced s (minimal_ctl (ctl s)) (minimal_events a b (ctl s)) 0).
Proof.
  intros H. unfold compute_and_set_green.
  unfold bind at 1. rewrite emit_eq.
  rewrite total_eq, Qle_bool_inject_0.
  destruct (Z.leb_spec (a + b) 0) as [_ | ?]; [|lia].
  unfold bind, member. rewrite !assign_eq, !advanced_advanced.
  reflexivity.
Qed.

(** Read the members of the controller a step of the allocation needs. *)
Ltac read_members :=
  cbn [ctl advanced update_light ns ew min_green max_green
       with_green_duration green_duration].

(** Enter the proportional path of [compute_and_set_green] in the goal,
    the densities being known to have a positive sum. *)
Ltac proportional_path :=
  unfold compute_and_set_green;
  unfold bind at 1; rewrite emit_eq, total_eq, Qle_bool_inject_0;
  match goal with
  | |- context [?x <=? 0] => destruct (Z.leb_spec x 0); [lia|]
  end;
  unfold bind, member, defined; read_members; unfold Double.of_int.

Lemma compute_and_set_green_proportional a b s extra g_ns g_ew k_ns k_ew :
  0 < a + b ->
  Int.sub (max_green (ctl s)) (min_green (ctl s)) = Some extra ->
  proportional_green (min_green (ctl s)) (inject_Z a) (inject_Z (a + b)) extra
  = Some g_ns ->
  proportional_green (min_green (ctl s)) (inject_Z b) (inject_Z (a + b)) extra
  = Some g_ew ->
  Int.clamp g_ns (min_green (ctl s)) (max_green (ctl s)) = Some k_ns ->
  Int.clamp g_ew (min_green (ctl s)) (max_green (ctl s)) = Some k_ew ->
  compute_and_set_green a b s
  = Some (tt, advanced s (proportional_ctl g_ns g_ew k_ns k_ew (ctl s))
                (proportional_events a b g_ns g_ew k_ns k_ew (ctl s)) 0).
Proof.
  intros H He Hn Hw Hkn Hkw. proportional_path.
  rewrite He, Hn, assign_eq. read_members.
  rewrite Hw, assign_eq. read_members.
  rewrite Hkn, assign_eq. read_members.
  rewrite Hkw, !assign_eq.
  unfold advanced. cbn [ctl hist clock clock_reads].
  repeat rewrite <- app_assoc. cbn [app stamp map].
  unfold proportional_ctl, proportional_events.
  rewrite !Nat.add_0_r.
  reflexivity.
Qed.

(** Whenever the allocation is defined it took one of the two paths. *)
Lemma compute_and_set_green_inv a b s u s' :
  compute_and_set_green a b s = Some (u, s') ->
  (a + b <= 0 /\
   s' = advanced s (minimal_ctl (ctl s)) (minimal_events a b (ctl s)) 0)
  \/
  (0 < a + b /\ exists extra g_ns g_ew k_ns k_ew,
     Int.sub (max_green (ctl s)) (min_green (ctl s)) = Some extra /\
     proportional_green (min_green (ctl s)) (inject_Z a) (inject_Z (a + b)) extra
     = Some g_ns /\
     proportional_green (min_green (ctl s)) (inject_Z b) (inject_Z (a + b)) extra
     = Some g_ew /\
     Int.clamp g_ns (min_green (ctl s)) (max_green (ctl s)) = Some k_ns /\
     Int.clamp g_ew (min_green (ctl s)) (max_green (ctl s)) = Some k_ew /\
     s' = advanced s (proportional_ctl g_ns g_ew k_ns k_ew (ctl s))
            (proportional_events a b g_ns g_ew k_ns k_ew (ctl s)) 0).
Proof.
  intros H.
  destruct (Z.le_gt_cases (a + b) 0) as [Hle | Hgt].
  - left. split; [assumption|].
    rewrite compute_and_set_green_minimal in H by assumption. congruence.
  - right. split; [lia|].
    set (lo := min_green (ctl s)) in *. set (hi := max_green (ctl s)) in *.
    destruct (Int.sub hi lo) as [extra|] eqn:He.
    2:{ exfalso. revert H. subst lo hi. proportional_path. now rewrite He. }
    destruct (proportional_green lo (inject_Z a) (inject_Z (a + b)) extra)
      as [g_ns|] eqn:Hn.
    2:{ exfalso. revert H. subst lo hi. proportional_path.
        now rewrite He, Hn. }
    destruct (proportional_green lo (inject_Z b) (inject_Z (a + b)) extra)
      as [g_ew|] eqn:Hw.
    2:{ exfalso. revert H. subst lo hi. proportional_path.
        rewrite He, Hn, assign_eq. read_members. now rewrite Hw. }
    destruct (Int.clamp g_ns lo hi) as [k_ns|] eqn:Hkn.
    2:{ exfalso. revert H. subst lo hi. proportional_path.
        rewrite He, Hn, assign_eq. read_members.
        rewrite Hw, assign_eq. read_members. now rewrite Hkn. }
    destruct (Int.clamp g_ew lo hi) as [k_ew|] eqn:Hkw.
    2:{ exfalso. unfold Int.clamp in Hkn, Hkw.
        destruct (hi <? lo); discriminate. }
    exists extra, g_ns, g_ew, k_ns, k_ew.
    rewrite (compute_and_set_green_proportional a b s extra g_ns g_ew k_ns k_ew)
      in H by assumption.
    repeat split; congruence.
Qed.

Lemma checked_in_range (x : Z) : Int.in_range x -> Int.checked x = Some x.
Proof.
  unfold Int.in_range, Int.checked, Int.in_rangeb. intros [H1 H2].
  destruct (Z.leb_spec Int.INT_MIN x), (Z.leb_spec x Int.INT_MAX); cbn; try reflexivity; lia.
Qed.

Lemma clamp_spec (v lo hi k : Z) :
  Int.clamp v lo hi = Some k -> lo <= hi /\ lo <= k <= hi /\ k = clamped v lo hi.
Proof.
  unfold Int.clamp, clamped.
  destruct (Z.ltb_spec hi lo); [discriminate|].
  destruct (Z.ltb_spec v lo); [|destruct (Z.ltb_spec hi v)];
    intros [= <-]; lia.
Qed.

Lemma clamp_within (v lo hi : Z) : lo <= v <= hi -> Int.clamp v lo hi = Some v.
Proof.
  unfold Int.clamp. intros H.
  destruct (Z.ltb_spec hi lo); [lia|].
  destruct (Z.ltb_spec v lo); [lia|].
  destruct (Z.ltb_spec hi v); [lia|reflexivity].
Qed.

Lemma clamp_defined (v lo hi : Z) :
  lo <= hi -> Int.clamp v lo hi = Some (clamped v lo hi).
Proof.
  unfold Int.clamp, clamped. intros H.
  destruct (Z.ltb_spec hi lo); [lia|].
  destruct (Z.ltb_spec v lo); [|destruct (Z.ltb_spec hi v)]; f_equal; lia.
Qed.

Lemma rounded_share_defined (d T E : Z) :
  0 <= d <= T -> 0 < T -> 0 <= E <= Int.INT_MAX ->
  Double.to_int
    (Double.cround
       (Double.mul (Double.div (inject_Z d) (inject_Z T)) (Double.of_int E)))
  = Some (rounded_share d T E)
  /\ 0 <= rounded_share d T E <= E.
Proof.
  intros Hd HT HE.
  assert (HTq : (0 < inject_Z T)%Q)
    by (change 0%Q with (inject_Z 0); now rewrite <- Zlt_Qlt).
  assert (Hq : (0 <= inject_Z d / inject_Z T)%Q /\
               (inject_Z d / inject_Z T <= inject_Z 1)%Q).
  { split.
    - apply Qle_shift_div_l; [assumption|]. rewrite Qmult_0_l.
      change 0%Q with (inject_Z 0). rewrite <- Zle_Qle. lia.
    - apply Qle_shift_div_r; [assumption|]. change (inject_Z 1) with 1%Q.
      rewrite Qmult_1_l. rewrite <- Zle_Qle. lia. }
  destruct Hq as [Hq0 Hq1].
  destruct (round_bounds _ 1 Hq0 Hq1) as [Hr0 Hr1]; [unfold Int.INT_MAX; lia|].
  fold (Double.div (inject_Z d) (inject_Z T)) in Hr0, Hr1.
  set (q := Double.div (inject_Z d) (inject_Z T)) in *.
  assert (HEq : (0 <= inject_Z E)%Q)
    by (change 0%Q with (inject_Z 0); rewrite <- Zle_Qle; lia).
  assert (Hp0 : (0 <= q * inject_Z E)%Q) by (apply Qmult_le_0_compat; assumption).
  assert (Hp1 : (q * inject_Z E <= inject_Z E)%Q).
  { change (inject_Z 1) with 1%Q in Hr1.
    rewrite <- (Qmult_1_l (inject_Z E)) at 2.
    apply Qmult_le_compat_r; assumption. }
  destruct (round_bounds _ E Hp0 Hp1) as [Hm0 Hm1]; [lia|].
  unfold rounded_share, Double.of_int. fold q.
  fold (Double.mul q (inject_Z E)) in Hm0, Hm1 |- *.
  apply cround_to_int; [assumption | assumption | lia].
Qed.

Lemma proportional_green_defined (base d T E : Z) :
  0 <= d <= T -> 0 < T -> 0 <= E -> 0 <= base -> base + E <= Int.INT_MAX ->
  proportional_green base (inject_Z d) (inject_Z T) E
  = Some (base + rounded_share d T E)
  /\ base <= base + rounded_share d T E <= base + E.
Proof.
  intros Hd HT HE Hb Hmax.
  destruct (rounded_share_defined d T E) as [Hs Hr]; [lia | lia | lia |].
  unfold proportional_green. rewrite Hs. split; [|lia].
  unfold Int.add. apply checked_in_range.
  unfold Int.in_range, Int.INT_MIN. unfold Int.INT_MAX in *. lia.
Qed.

(** On non-negative densities and well-ordered bounds the proportional
    path is defined and its clamp changes nothing. *)
Lemma compute_and_set_green_well_formed a b s :
  well_configured (ctl s) -> non_negative a b -> 0 < a + b ->
  let lo := min_green (ctl s) in
  let hi := max_green (ctl s) in
  let g_ns := lo + rounded_share a (a + b) (hi - lo) in
  let g_ew := lo + rounded_share b (a + b) (hi - lo) in
  compute_and_set_green a b s
  = Some (tt, advanced s (proportional_ctl g_ns g_ew g_ns g_ew (ctl s))
                (proportional_events a b g_ns g_ew g_ns g_ew (ctl s)) 0)
  /\ lo <= g_ns <= hi /\ lo <= g_ew <= hi.
Proof.
  intros (Hlo & Hle & Hhi) [Ha Hb] Hpos lo hi g_ns g_ew.
  assert (He : Int.sub hi lo = Some (hi - lo)).
  { apply checked_in_range. unfold Int.in_range, Int.INT_MIN.
    unfold Int.INT_MAX in *. subst lo hi. lia. }
  destruct (proportional_green_defined lo a (a + b) (hi - lo)) as [Hn Hbn];
    try (subst lo hi; lia).
  destruct (proportional_green_defined lo b (a + b) (hi - lo)) as [Hw Hbw];
    try (subst lo hi; lia).
  fold g_ns in Hn, Hbn. fold g_ew in Hw, Hbw.
  split; [|split; lia].
  apply (compute_and_set_green_proportional a b s (hi - lo)); try assumption.
  - apply clamp_within. lia.
  - apply clamp_within. lia.
Qed.

(** ** Reading a concatenated history *)

Lemma timeline_app h1 h2 : timeline (h1 ++ h2) = timeline h1 ++ timeline h2.
Proof.
  induction h1 as [| [e c] h1 IH]; [reflexivity|].
  destruct e; cbn; now rewrite IH.
Qed.

Lemma transitions_app h1 h2 :
  transitions (h1 ++ h2) = transitions h1 ++ transitions h2.
Proof.
  induction h1 as [| [e c] h1 IH]; [reflexivity|].
  destruct e; cbn; now rewrite IH.
Qed.

Lemma allocations_app h1 h2 :
  allocations (h1 ++ h2) = allocations h1 ++ allocations h2.
Proof.
  induction h1 as [| [e c] h1 IH]; [reflexivity|].
  destruct e; cbn; now rewrite IH.
Qed.

Lemma sleeps_app h1 h2 : sleeps (h1 ++ h2) = sleeps h1 ++ sleeps h2.
Proof.
  induction h1 as [| [e c] h1 IH]; [reflexivity|].
  destruct e; cbn; now rewrite IH.
Qed.

Lemma string_app_assoc (a b c : string) : ((a ++ b) ++ c = a ++ (b ++ c))%string.
Proof. induction a as [| x a IH]; cbn; [reflexivity | now rewrite IH]. Qed.

Lemma output_app h1 h2 : output (h1 ++ h2) = (output h1 ++ output h2)%string.
Proof.
  induction h1 as [| [e c] h1 IH]; [reflexivity|].
  destruct e; cbn; rewrite IH; try reflexivity.
  now rewrite string_app_assoc.
Qed.

Lemma snapshots_app h1 h2 : snapshots (h1 ++ h2) = snapshots h1 ++ snapshots h2.
Proof. apply map_app. Qed.

Lemma snapshots_stamp (P : IntersectionController -> Prop) c evs :
  P c -> Forall P (snapshots (stamp c evs)).
Proof.
  intros H. induction evs as [| e evs IH]; cbn; constructor; assumption.
Qed.

(** ** One phase *)

Lemma timeline_wait_events c rt d :
  timeline (stamp c (wait_events rt d)) = [Waiting d (state (ns c)) (state (ew c))].
Proof.
  unfold wait_events. destruct (d <=? 0); [reflexivity|].
  destruct rt; reflexivity.
Qed.

Lemma timeline_phase r st now d c :
  timeline (phase_events r st now d c)
  = [Transition r st;
     Waiting d (state (ns (phase_ctl r st c))) (state (ew (phase_ctl r st c)))].
Proof.
  unfold phase_events. rewrite stamp_app, timeline_app, timeline_wait_events.
  reflexivity.
Qed.

Lemma transitions_phase r st now d c :
  transitions (phase_events r st now d c) = [(r, st)].
Proof.
  unfold phase_events, wait_events. rewrite stamp_app, transitions_app.
  destruct (d <=? 0); [reflexivity|]. destruct (realtime_delay c); reflexivity.
Qed.

Lemma allocations_phase r st now d c :
  allocations (phase_events r st now d c) = [].
Proof.
  unfold phase_events, wait_events. rewrite stamp_app, allocations_app.
  destruct (d <=? 0); [reflexivity|]. destruct (realtime_delay c); reflexivity.
Qed.

Lemma sleeps_phase r st now d c :
  sleeps (phase_events r st now d c)
  = if realtime_delay c then filter (fun x => 0 <? x) [d] else [].
Proof.
  unfold phase_events, wait_events. rewrite stamp_app, sleeps_app.
  cbn [filter]. rewrite Z.ltb_antisym.
  destruct (d <=? 0), (realtime_delay c); reflexivity.
Qed.

Lemma snapshots_phase (P : IntersectionController -> Prop) r st now d c :
  P (phase_ctl r st c) -> Forall P (snapshots (phase_events r st now d c)).
Proof. apply snapshots_stamp. Qed.

(** ** [run_phase] *)

Lemma transitions_run_phase f g clk k c :
  transitions (run_phase_events f g clk k c)
  = [(f, GREEN); (f, YELLOW); (f, RED); (g, GREEN); (g, YELLOW); (g, RED)].
Proof.
  unfold run_phase_events. cbv zeta.
  rewrite !transitions_app, !transitions_phase. reflexivity.
Qed.

Lemma allocations_run_phase f g clk k c :
  allocations (run_phase_events f g clk k c) = [].
Proof.
  unfold run_phase_events. cbv zeta.
  rewrite !allocations_app, !allocations_phase. reflexivity.
Qed.

(** ** The allocation, relationally *)

Lemma compute_and_set_green_iff a b s s' :
  compute_and_set_green a b s = Some (tt, s') <->
  exists c1 h, allocated a b (ctl s) c1 h /\ s' = advanced s c1 h 0.
Proof.
  split.
  - intros H. apply compute_and_set_green_inv in H.
    destruct H as [[Hle ->] | [Hgt (extra & g1 & g2 & k1 & k2 & He & H1 & H2 & H3 & H4 & ->)]].
    + eexists _, _. split; [now apply allocated_minimal | reflexivity].
    + eexists _, _. split; [|reflexivity].
      now apply (allocated_proportional a b (ctl s) extra).
  - intros (c1 & h & Ha & ->). destruct Ha.
    + now apply compute_and_set_green_minimal.
    + now apply (compute_and_set_green_proportional a b s extra).
Qed.

Lemma allocated_defined a b c :
  well_configured c -> non_negative a b ->
  exists c1 h, allocated a b c c1 h.
Proof.
  intros Hc Hd.
  destruct (compute_and_set_green a b (start c (fun _ => Build_tm 0 0 0)))
    as [[[] s']|] eqn:E.
  - apply compute_and_set_green_iff in E. destruct E as (c1 & h & Ha & _).
    now exists c1, h.
  - exfalso. destruct (Z.le_gt_cases (a + b) 0) as [Hle | Hgt].
    + rewrite compute_and_set_green_minimal in E by assumption. discriminate.
    + destruct (compute_and_set_green_well_formed a b
                  (start c (fun _ => Build_tm 0 0 0)) Hc Hd) as [E' _]; [lia|].
      rewrite E' in E. discriminate.
Qed.

(** The allocation touches nothing but the durations. *)
Lemma allocated_frame a b c c1 h :
  allocated a b c c1 h ->
  let same x := configuration x = configuration c /\
                state (ns x) = state (ns c) /\ state (ew x) = state (ew c) /\
                name (ns x) = name (ns c) /\ name (ew x) = name (ew c) in
  same c1 /\ Forall same (snapshots h).
Proof.
  intros Ha same. destruct Ha; split; try (repeat split; reflexivity);
    cbn; repeat constructor.
Qed.

Lemma allocated_yellow a b c c1 h :
  allocated a b c c1 h -> yellow_as_configured c ->
  yellow_as_configured c1 /\ Forall yellow_as_configured (snapshots h).
Proof.
  intros Ha [Hn Hw]. destruct Ha; split; try (split; assumption || reflexivity);
    cbn; repeat constructor; assumption.
Qed.

Lemma allocated_readers a b c c1 h :
  allocated a b c c1 h ->
  allocations h = [(a, b)] /\ transitions h = [] /\ timeline h = [].
Proof. intros Ha. destruct Ha; repeat split. Qed.

(** After the allocation both durations are within the bounds. *)
Lemma allocated_bounds a b c c1 h :
  allocated a b c c1 h -> min_green c <= max_green c ->
  green_within_bounds c1.
Proof.
  intros Ha Hle. destruct Ha as [ | extra g1 g2 k1 k2 _ _ _ _ H1 H2].
  - unfold green_within_bounds. cbn. lia.
  - apply clamp_spec in H1, H2. unfold green_within_bounds. cbn. lia.
Qed.

(** On non-negative densities they are within the bounds at every point
    of the allocation, if they were before. *)
Lemma allocated_bounds_throughout a b c c1 h :
  allocated a b c c1 h -> well_configured c -> non_negative a b ->
  green_within_bounds c ->
  Forall green_within_bounds (snapshots h).
Proof.
  intros Ha Hc Hd [Hn Hw].
  pose proof Hc as (Hlo & Hle & Hhi).
  destruct Ha as [ | extra g1 g2 k1 k2 Hpos He H1 H2 Hk1 Hk2].
  - cbn. repeat constructor; cbn; try assumption; lia.
  - destruct Hd as [Hda Hdb].
    assert (Hx : extra = max_green c - min_green c).
    { unfold Int.sub, Int.checked in He.
      destruct (Int.in_rangeb _); congruence. }
    subst extra.
    destruct (proportional_green_defined (min_green c) a (a + b)
                (max_green c - min_green c)) as [E1 B1]; try lia.
    destruct (proportional_green_defined (min_green c) b (a + b)
                (max_green c - min_green c)) as [E2 B2]; try lia.
    rewrite E1 in H1. rewrite E2 in H2.
    injection H1 as <-. injection H2 as <-.
    apply clamp_spec in Hk1, Hk2.
    cbn. repeat constructor; unfold green_within_bounds; cbn; lia.
Qed.

(** The durations allocated depend on the bounds and the densities
    only. *)
Lemma allocated_deterministic a b c c1 h c' c1' h' :
  allocated a b c c1 h -> allocated a b c' c1' h' ->
  min_green c = min_green c' -> max_green c = max_green c' ->
  green_duration (ns c1) = green_duration (ns c1') /\
  green_duration (ew c1) = green_duration (ew c1').
Proof.
  intros Ha Ha' Hlo Hhi.
  destruct Ha as [Hle | extra g1 g2 k1 k2 Hpos He H1 H2 Hk1 Hk2];
    destruct Ha' as [Hle' | extra' g1' g2' k1' k2' Hpos' He' H1' H2' Hk1' Hk2'];
    try lia.
  - cbn. now rewrite Hlo.
  - rewrite <- Hlo, <- Hhi in *.
    assert (extra' = extra) by congruence. subst extra'.
    assert (g1' = g1) by congruence. assert (g2' = g2) by congruence.
    subst g1' g2'.
    assert (k1' = k1) by congruence. assert (k2' = k2) by congruence.
    subst. cbn. split; reflexivity.
Qed.

(** ** One cycle *)

Lemma cycle_iff a b k s s' :
  cycle a b k s = Some (tt, s') <->
  exists c1 h, allocated a b (ctl s) c1 h /\
    s' = advanced s (run_phase_ctl NS EW c1)
           (cycle_events k (clock s) (clock_reads s) (ctl s) c1 h) 6.
Proof.
  unfold cycle. unfold bind at 1. rewrite emit_eq. unfold bind at 1.
  set (s0 := advanced s (ctl s) _ 0).
  split.
  - destruct (compute_and_set_green a b s0) as [[[] s1]|] eqn:E; [|discriminate].
    apply compute_and_set_green_iff in E. destruct E as (c1 & h & Ha & ->).
    unfold bind at 1. rewrite run_phase_eq. rewrite emit_eq.
    intros [= <-]. exists c1, h. split; [exact Ha|].
    subst s0. rewrite !advanced_advanced. unfold cycle_events.
    cbn [ctl clock clock_reads advanced]. rewrite !Nat.add_0_r.
    repeat rewrite <- app_assoc. reflexivity.
  - intros (c1 & h & Ha & ->).
    assert (E : compute_and_set_green a b s0 = Some (tt, advanced s0 c1 h 0)).
    { apply compute_and_set_green_iff. exists c1, h. split; [exact Ha | reflexivity]. }
    rewrite E. unfold bind at 1. rewrite run_phase_eq, emit_eq.
    subst s0. rewrite !advanced_advanced. unfold cycle_events.
    cbn [ctl clock clock_reads advanced]. rewrite !Nat.add_0_r.
    repeat rewrite <- app_assoc. reflexivity.
Qed.

Lemma cycle_defined a b k s :
  well_configured (ctl s) -> non_negative a b ->
  exists s', cycle a b k s = Some (tt, s').
Proof.
  intros Hc Hd. destruct (allocated_defined a b (ctl s) Hc Hd) as (c1 & h & Ha).
  eexists. apply cycle_iff. exists c1, h. split; [exact Ha | reflexivity].
Qed.

(** ** Loops *)

Lemma for_int_invariant (I : Sim -> Prop) (body : Z -> Proc unit) :
  (forall k s u s', I s -> body k s = Some (u, s') -> I s') ->
  forall n k s u s', I s -> for_int n k body s = Some (u, s') -> I s'.
Proof.
  intros Hbody. induction n as [| n IH]; intros k s u s' HI H.
  - cbn in H. unfold ret in H. now injection H as _ <-.
  - cbn in H. unfold bind at 1 in H.
    destruct (body k s) as [[u1 s1]|] eqn:E; [|discriminate].
    unfold bind at 1, defined in H.
    destruct (Int.add k 1) as [k'|]; [|discriminate].
    eapply IH; [|exact H]. eapply Hbody; eassumption.
Qed.

Lemma for_int_defined (I : Sim -> Prop) (body : Z -> Proc unit) :
  (forall k s, I s -> Int.INT_MIN <= k -> k + 1 <= Int.INT_MAX ->
     exists s', body k s = Some (tt, s') /\ I s') ->
  forall n k s, I s -> Int.INT_MIN <= k -> k + Z.of_nat n <= Int.INT_MAX ->
  exists s', for_int n k body s = Some (tt, s') /\ I s'.
Proof.
  intros Hbody. induction n as [| n IH]; intros k s HI Hlo Hhi.
  - exists s. split; [reflexivity | assumption].
  - destruct (Hbody k s HI) as (s1 & E & HI1); [lia | lia |].
    destruct (IH (k + 1) s1 HI1) as (s' & E' & HI'); [lia | lia |].
    exists s'. split; [|assumption].
    cbn. unfold bind at 1. rewrite E. unfold bind at 1, defined.
    unfold Int.add. rewrite checked_in_range by (unfold Int.in_range; lia).
    exact E'.
Qed.

(** ** Properties kept by the phases *)


Lemma run_phase_stable (P : IntersectionController -> Prop) f g clk k c :
  phase_stable P -> P c ->
  P (run_phase_ctl f g c) /\ Forall P (snapshots (run_phase_events f g clk k c)).
Proof.
  intros HP Hc. split.
  - unfold run_phase_ctl. now repeat apply HP.
  - unfold run_phase_events. cbv zeta.
    rewrite !snapshots_app, !Forall_app.
    repeat split; apply snapshots_phase; now repeat apply HP.
Qed.

Lemma cycle_always (P : IntersectionController -> Prop) a b k s s' :
  phase_stable P ->
  (forall c1 h, allocated a b (ctl s) c1 h -> P c1 /\ Forall P (snapshots h)) ->
  always P s -> cycle a b k s = Some (tt, s') -> always P s'.
Proof.
  intros HP Halloc [Hc Hh] H. apply cycle_iff in H.
  destruct H as (c1 & h & Ha & ->).
  destruct (Halloc c1 h Ha) as [Hc1 Hh1].
  destruct (run_phase_stable P NS EW (clock s) (clock_reads s) c1 HP Hc1) as [He Hr].
  split; [exact He|]. cbn [hist advanced]. unfold cycle_events.
  rewrite !snapshots_app, !Forall_app. repeat split; try assumption.
  - now apply snapshots_stamp.
  - now apply snapshots_stamp.
Qed.

Lemma print_always (P : IntersectionController -> Prop) text s u s' :
  always P s -> emit (Print text) s = Some (u, s') -> always P s'.
Proof.
  intros [Hc Hh]. rewrite emit_eq. intros E. injection E as _ <-.
  split; [exact Hc|].
  cbn [hist advanced]. rewrite snapshots_app, Forall_app. split; [exact Hh|].
  now apply (snapshots_stamp P (ctl s) [Print text]).
Qed.

(** ** Runs *)

Lemma reachable_configuration D c0 clk s :
  reachable D c0 clk s ->
  always (fun c => configuration c = configuration c0) s.
Proof.
  induction 1 as [| s text u s' _ IH E | s a b k [] s' _ IH _ E
                   | s t s' _ IH E].
  - split; [reflexivity | constructor].
  - eapply print_always; eassumption.
  - eapply cycle_always; [| |exact IH|exact E].
    + intros r st c Hc. exact Hc.
    + intros c1 h Ha. destruct (allocated_frame _ _ _ _ _ Ha) as [(Hc1 & _) Hh].
      destruct IH as [IH _]. split; [congruence|].
      eapply Forall_impl; [|exact Hh]. cbn. intros x (Hx & _). congruence.
  - unfold read_clock in E. injection E as _ <-. exact IH.
Qed.

Lemma reachable_clock D c0 clk s : reachable D c0 clk s -> clock s = clk.
Proof.
  induction 1 as [| s text u s' _ IH E | s a b k [] s' _ IH _ E
                   | s t s' _ IH E].
  - reflexivity.
  - rewrite emit_eq in E. now injection E as _ <-.
  - apply cycle_iff in E. destruct E as (c1 & h & _ & ->). exact IH.
  - unfold read_clock in E. injection E as _ <-. exact IH.
Qed.

Lemma reachable_yellow D c0 clk s :
  yellow_as_configured c0 -> reachable D c0 clk s ->
  always yellow_as_configured s.
Proof.
  intros H0.
  induction 1 as [| s text u s' _ IH E | s a b k [] s' _ IH _ E
                   | s t s' _ IH E].
  - split; [exact H0 | constructor].
  - eapply print_always; eassumption.
  - eapply cycle_always; [| |exact IH|exact E].
    + intros r st c Hc. destruct r; exact Hc.
    + intros c1 h Ha. apply (allocated_yellow _ _ _ _ _ Ha). apply IH.
  - unfold read_clock in E. injection E as _ <-. exact IH.
Qed.

(** [simulate_with_inputs] runs whole cycles. *)
Lemma simulate_reachable D c0 clk s a b u s' :
  reachable D c0 clk s -> D a b ->
  simulate_with_inputs a b s = Some (u, s') ->
  reachable D c0 clk s'.
Proof.
  intros Hs Hd. unfold simulate_with_inputs.
  unfold bind at 1, member. unfold bind at 1.
  destruct (emit _ s) as [[u1 s1]|] eqn:E; [|discriminate].
  apply (for_int_invariant (reachable D c0 clk)).
  - intros k x v x' Hx Hk. eapply reach_cycle; eassumption.
  - eapply reach_print; eassumption.
Qed.

Lemma reachable_cycle_defined c0 clk s a b k :
  well_configured c0 -> reachable non_negative c0 clk s -> non_negative a b ->
  exists s', cycle a b k s = Some (tt, s') /\ reachable non_negative c0 clk s'.
Proof.
  intros Hc Hs Hd.
  assert (Hw : well_configured (ctl s)).
  { destruct (reachable_configuration _ _ _ _ Hs) as [E _].
    unfold configuration in E. unfold well_configured in *.
    injection E as -> -> _ _ _ _. exact Hc. }
  destruct (cycle_defined a b k s Hw Hd) as (s' & E).
  exists s'. split; [exact E|]. eapply reach_cycle; eassumption.
Qed.

(** On well-formed input [simulate_with_inputs] runs to completion. *)
Lemma simulate_defined c0 clk s a b :
  well_configured c0 -> cycles c0 < Int.INT_MAX ->
  reachable non_negative c0 clk s -> non_negative a b ->
  exists s', simulate_with_inputs a b s = Some (tt, s') /\
             reachable non_negative c0 clk s'.
Proof.
  intros Hc Hn Hs Hd. unfold simulate_with_inputs.
  unfold bind at 1, member. unfold bind at 1. rewrite emit_eq.
  assert (E : cycles (ctl s) = cycles c0).
  { destruct (reachable_configuration _ _ _ _ Hs) as [E _].
    unfold configuration in E. now injection E. }
  rewrite E.
  apply (for_int_defined (reachable non_negative c0 clk)).
  - intros k x Hx _ _. now apply reachable_cycle_defined.
  - eapply reach_print; [exact Hs | apply emit_eq].
  - unfold Int.INT_MIN. lia.
  - unfold Int.INT_MAX in *. lia.
Qed.

(** ** The phases of one cycle *)

Lemma run_phase_exclusion clk k c :
  all_red c ->
  all_red (run_phase_ctl NS EW c) /\
  Forall never_both_go (snapshots (run_phase_events NS EW clk k c)).
Proof.
  intros [Hn Hw]. split; [split; reflexivity|].
  unfold run_phase_events. cbv zeta.
  rewrite !snapshots_app, !Forall_app.
  repeat split; apply snapshots_phase; unfold never_both_go; cbn; auto.
Qed.

Lemma run_phase_all_red f g c :
  state (light f (run_phase_ctl f g c)) = RED /\
  state (light g (run_phase_ctl f g c)) = RED.
Proof. destruct f, g; split; reflexivity. Qed.

Lemma timeline_run_phase clk k c :
  all_red c -> yellow_as_configured c ->
  timeline (run_phase_events NS EW clk k c)
  = cycle_timeline (green_duration (ns c)) (green_duration (ew c))
                   (yellow_time c) (all_red_time c).
Proof.
  intros [Hn Hw] [Yn Yw].
  unfold run_phase_events. cbv zeta.
  rewrite !timeline_app, !timeline_phase. cbn.
  rewrite Hw, Yn, Yw. reflexivity.
Qed.

Lemma timeline_cycle_events k clk reads c c1 h a b :
  allocated a b c c1 h -> all_red c -> yellow_as_configured c ->
  timeline (cycle_events k clk reads c c1 h)
  = cycle_timeline (green_duration (ns c1)) (green_duration (ew c1))
                   (yellow_time c) (all_red_time c).
Proof.
  intros Ha [Hn Hw] Hy.
  destruct (allocated_frame _ _ _ _ _ Ha) as [(Hcfg & Sn & Sw & _) _].
  destruct (allocated_yellow _ _ _ _ _ Ha Hy) as [Hy1 _].
  destruct (allocated_readers _ _ _ _ _ Ha) as (_ & _ & Ht).
  unfold cycle_events. rewrite !timeline_app, Ht.
  rewrite timeline_run_phase; [| split; congruence | exact Hy1].
  unfold configuration in Hcfg. injection Hcfg as _ _ -> -> _ _.
  reflexivity.
Qed.

Lemma sleeps_cycle_events k clk reads c c1 h a b :
  allocated a b c c1 h -> yellow_as_configured c ->
  sleeps (cycle_events k clk reads c c1 h)
  = cycle_sleeps (realtime_delay c)
      (green_duration (ns c1)) (green_duration (ew c1))
      (yellow_time c) (all_red_time c).
Proof.
  intros Ha Hy.
  destruct (allocated_frame _ _ _ _ _ Ha) as [(Hcfg & _) _].
  destruct (allocated_yellow _ _ _ _ _ Ha Hy) as [[Yn Yw] _].
  assert (Hs : sleeps h = []) by (destruct Ha; reflexivity).
  unfold cycle_events, run_phase_events. cbv zeta.
  rewrite !sleeps_app, Hs, !sleeps_phase.
  unfold configuration in Hcfg. injection Hcfg as _ _ Ey Er _ Ert.
  cbn [phase_ctl update_light realtime_delay all_red_time light ns ew
       with_state green_duration yellow_duration stamp map sleeps app].
  rewrite Yn, Yw, Ey, Er, Ert. unfold cycle_sleeps.
  destruct (realtime_delay c); [|reflexivity].
  cbn [filter].
  repeat match goal with |- context [if ?b then _ else _] => destruct b end;
    reflexivity.
Qed.

Lemma transitions_cycle_events k clk reads c c1 h a b :
  allocated a b c c1 h ->
  transitions (cycle_events k clk reads c c1 h)
  = [(NS, GREEN); (NS, YELLOW); (NS, RED); (EW, GREEN); (EW, YELLOW); (EW, RED)].
Proof.
  intros Ha. destruct (allocated_readers _ _ _ _ _ Ha) as (_ & Ht & _).
  unfold cycle_events. rewrite !transitions_app, Ht, transitions_run_phase.
  reflexivity.
Qed.

Lemma allocations_cycle_events k clk reads c c1 h a b :
  allocated a b c c1 h ->
  allocations (cycle_events k clk reads c c1 h) = [(a, b)].
Proof.
  intros Ha. destruct (allocated_readers _ _ _ _ _ Ha) as (Hal & _ & _).
  unfold cycle_events. rewrite !allocations_app, Hal, allocations_run_phase.
  reflexivity.
Qed.

(** ** Runs: the two lights never go together *)

Lemma reachable_all_red D c0 clk s :
  all_red c0 -> reachable D c0 clk s -> all_red (ctl s).
Proof.
  intros H0.
  induction 1 as [| s text u s' _ IH E | s a b k [] s' _ IH _ E
                   | s t s' _ IH E].
  - exact H0.
  - rewrite emit_eq in E. now injection E as _ <-.
  - apply cycle_iff in E. destruct E as (c1 & h & _ & ->).
    split; reflexivity.
  - unfold read_clock in E. injection E as _ <-. exact IH.
Qed.

Lemma reachable_never_both_go D c0 clk s :
  all_red c0 -> reachable D c0 clk s -> always never_both_go s.
Proof.
  intros H0.
  induction 1 as [| s text u s' Hs IH E | s a b k [] s' Hs IH _ E
                   | s t s' Hs IH E].
  - split; [left; apply H0 | constructor].
  - eapply print_always; eassumption.
  - pose proof (reachable_all_red _ _ _ _ H0 Hs) as Hr.
    destruct IH as [_ IH].
    apply cycle_iff in E. destruct E as (c1 & h & Ha & ->).
    destruct (allocated_frame _ _ _ _ _ Ha) as [(_ & Sn & Sw & _) Hh].
    assert (Hr1 : all_red c1) by (destruct Hr; split; congruence).
    destruct (run_phase_exclusion (clock s) (clock_reads s) c1 Hr1) as [He Hx].
    split; [left; apply He|].
    cbn [hist advanced]. unfold cycle_events.
    rewrite !snapshots_app, !Forall_app. repeat split; try assumption.
    + apply snapshots_stamp. left. apply Hr.
    + eapply Forall_impl; [|exact Hh]. cbn. intros x (_ & Xn & _).
      left. destruct Hr. congruence.
    + apply snapshots_stamp. left. apply He.
  - unfold read_clock in E. injection E as _ <-. exact IH.
Qed.

(** ** Runs: the timeline is made of whole cycles *)

Lemma reachable_whole_cycles D c0 clk s :
  all_red c0 -> yellow_as_configured c0 -> reachable D c0 clk s ->
  whole_cycles (yellow_time c0) (all_red_time c0) (timeline (hist s)).
Proof.
  intros H0 Y0.
  induction 1 as [| s text u s' Hs IH E | s a b k [] s' Hs IH _ E
                   | s t s' Hs IH E].
  - exists []. split; [reflexivity | constructor].
  - rewrite emit_eq in E. injection E as _ <-. cbn [hist advanced].
    rewrite timeline_app. cbn [timeline]. rewrite app_nil_r. exact IH.
  - pose proof (reachable_all_red _ _ _ _ H0 Hs) as Hr.
    destruct (reachable_yellow _ _ _ _ Y0 Hs) as [Hy _].
    destruct (reachable_configuration _ _ _ _ Hs) as [Hc _].
    apply cycle_iff in E. destruct E as (c1 & h & Ha & ->).
    destruct IH as (blocks & Hb & Hall).
    cbn [hist advanced]. rewrite timeline_app.
    rewrite (timeline_cycle_events _ _ _ _ _ _ _ _ Ha Hr Hy).
    unfold configuration in Hc. injection Hc as _ _ -> -> _ _.
    exists (blocks ++ [cycle_timeline (green_duration (ns c1))
                         (green_duration (ew c1)) (yellow_time c0)
                         (all_red_time c0)]).
    split.
    + rewrite concat_app, Hb. cbn [List.concat]. now rewrite app_nil_r.
    + rewrite Forall_app. split; [exact Hall|].
      constructor; [|constructor]. eexists _, _. reflexivity.
  - unfold read_clock in E. injection E as _ <-. exact IH.
Qed.

Lemma whole_cycles_gaps yellow allred tl :
  whole_cycles yellow allred tl -> all_red_gaps allred tl.
Proof.
  intros (blocks & -> & Hall).
  induction blocks as [| blk blocks IH]; intros before r after E.
  - destruct before; discriminate.
  - inversion Hall as [| ? ? (g1 & g2 & ->) Hall']; subst.
    specialize (IH Hall').
    cbn [List.concat] in E. unfold cycle_timeline in E. cbn [app] in E.
    destruct before as [| x0 before]; [now left|]. right.
    do 5 (destruct before as [| ? before]; [discriminate|]).
    destruct before as [| x6 before].
    { cbn in E. inversion E; subst.
      exists [Transition NS GREEN; Waiting g1 GREEN RED;
              Transition NS YELLOW; Waiting yellow YELLOW RED].
      reflexivity. }
    do 5 (destruct before as [| ? before]; [discriminate|]).
    cbn in E. inversion E as [[E0 E1 E2 E3 E4 E5 E6 E7 E8 E9 E10 E11 E']].
    subst. clear E. rename E' into E.
    destruct (IH before r after E) as [-> | (earlier & ->)].
    + assert (r = NS).
      { destruct blocks as [| blk' blocks'];
          [discriminate|].
        inversion Hall' as [| ? ? (g1' & g2' & ->) _]; subst.
        cbn in E. now injection E as <-. }
      subst r.
      exists [Transition NS GREEN; Waiting g1 GREEN RED;
              Transition NS YELLOW; Waiting yellow YELLOW RED;
              Transition NS RED; Waiting allred RED RED;
              Transition EW GREEN; Waiting g2 RED GREEN;
              Transition EW YELLOW; Waiting yellow RED YELLOW].
      reflexivity.
    + exists ([Transition NS GREEN; Waiting g1 GREEN RED;
               Transition NS YELLOW; Waiting yellow YELLOW RED;
               Transition NS RED; Waiting allred RED RED;
               Transition EW GREEN; Waiting g2 RED GREEN;
               Transition EW YELLOW; Waiting yellow RED YELLOW;
               Transition EW RED; Waiting allred RED RED] ++ earlier).
      reflexivity.
Qed.

(** ** The history from the first transition on *)

Lemma from_first_transition_app_none h1 h2 :
  transitions h1 = [] ->
  from_first_transition (h1 ++ h2) = from_first_transition h2.
Proof.
  induction h1 as [| [e c] h1 IH]; [reflexivity|].
  destruct e; cbn; try exact IH. discriminate.
Qed.

Lemma from_first_transition_app_some h1 h2 :
  transitions h1 <> [] ->
  from_first_transition (h1 ++ h2) = from_first_transition h1 ++ h2.
Proof.
  induction h1 as [| [e c] h1 IH]; [intros H; now elim H|].
  destruct e; cbn; try exact IH. reflexivity.
Qed.

Lemma from_first_transition_suffix (P : IntersectionController -> Prop) h :
  Forall P (snapshots h) -> Forall P (snapshots (from_first_transition h)).
Proof.
  induction h as [| [e c] h IH]; [trivial|].
  intros H. inversion H as [| ? ? Hc Hh]; subst.
  destruct e; cbn; try (now apply IH). now constructor.
Qed.

(** ** Green durations within the bounds *)

Lemma green_within_bounds_stable : phase_stable green_within_bounds.
Proof. intros r st c H. destruct r; exact H. Qed.

Lemma reachable_well_configured D c0 clk s :
  well_configured c0 -> reachable D c0 clk s -> well_configured (ctl s).
Proof.
  intros Hc Hs. destruct (reachable_configuration _ _ _ _ Hs) as [E _].
  unfold configuration in E. unfold well_configured in *.
  injection E as -> -> _ _ _ _. exact Hc.
Qed.

Lemma cycle_events_bounds a b k s c1 h :
  well_configured (ctl s) -> non_negative a b ->
  allocated a b (ctl s) c1 h -> green_within_bounds (ctl s) ->
  Forall green_within_bounds
    (snapshots (cycle_events k (clock s) (clock_reads s) (ctl s) c1 h)).
Proof.
  intros Hw Hd Ha Hg.
  assert (Hg1 : green_within_bounds c1).
  { apply (allocated_bounds _ _ _ _ _ Ha). apply Hw. }
  destruct (run_phase_stable _ NS EW (clock s) (clock_reads s) c1
              green_within_bounds_stable Hg1) as [He Hr].
  unfold cycle_events. rewrite !snapshots_app, !Forall_app.
  repeat split.
  - now apply snapshots_stamp.
  - now apply (allocated_bounds_throughout a b (ctl s) c1 h).
  - exact Hr.
  - now apply snapshots_stamp.
Qed.

Lemma reachable_bounds_from_first_transition c0 clk s :
  well_configured c0 -> reachable non_negative c0 clk s ->
  Forall green_within_bounds (snapshots (from_first_transition (hist s))) /\
  (transitions (hist s) <> [] -> green_within_bounds (ctl s)).
Proof.
  intros Hc.
  induction 1 as [| s text u s' Hs IH E | s a b k [] s' Hs IH Hd E
                   | s t s' Hs IH E].
  - split; [constructor | intros H; now elim H].
  - rewrite emit_eq in E. injection E as _ <-. cbn [hist ctl advanced].
    destruct IH as [IH1 IH2].
    destruct (transitions (hist s)) as [| t ts] eqn:Et.
    + split.
      * rewrite from_first_transition_app_none by assumption. constructor.
      * rewrite transitions_app, Et. intros H; now elim H.
    + assert (Hne : transitions (hist s) <> []) by (rewrite Et; discriminate).
      split; [|intros _; apply IH2; discriminate].
      rewrite from_first_transition_app_some by assumption.
      rewrite snapshots_app, Forall_app. split; [exact IH1|].
      apply (snapshots_stamp _ (ctl s) [Print text]). apply IH2. discriminate.
  - pose proof (reachable_well_configured _ _ _ _ Hc Hs) as Hw.
    apply cycle_iff in E. destruct E as (c1 & h & Ha & ->).
    cbn [hist ctl advanced].
    assert (Hg1 : green_within_bounds c1).
    { apply (allocated_bounds _ _ _ _ _ Ha). apply Hw. }
    destruct (run_phase_stable _ NS EW (clock s) (clock_reads s) c1
                green_within_bounds_stable Hg1) as [He Hr].
    split; [|intros _; exact He].
    destruct IH as [IH1 IH2].
    destruct (transitions (hist s)) as [| t ts] eqn:Et.
    + rewrite from_first_transition_app_none by assumption.
      destruct (allocated_readers _ _ _ _ _ Ha) as (_ & Ht & _).
      unfold cycle_events.
      rewrite from_first_transition_app_none by reflexivity.
      rewrite from_first_transition_app_none by assumption.
      rewrite from_first_transition_app_some
        by (rewrite transitions_run_phase; discriminate).
      rewrite snapshots_app, Forall_app. split.
      * now apply from_first_transition_suffix.
      * now apply snapshots_stamp.
    + assert (Hne : transitions (hist s) <> []) by (rewrite Et; discriminate).
      rewrite from_first_transition_app_some by assumption.
      rewrite snapshots_app, Forall_app. split; [exact IH1|].
      apply (cycle_events_bounds a b); try assumption. apply IH2. discriminate.
  - unfold read_clock in E. injection E as _ <-. exact IH.
Qed.

Lemma reachable_bounds_always c0 clk s :
  well_configured c0 -> green_within_bounds c0 ->
  reachable non_negative c0 clk s ->
  always green_within_bounds s.
Proof.
  intros Hc Hg.
  induction 1 as [| s text u s' Hs IH E | s a b k [] s' Hs IH Hd E
                   | s t s' Hs IH E].
  - split; [exact Hg | constructor].
  - eapply print_always; eassumption.
  - pose proof (reachable_well_configured _ _ _ _ Hc Hs) as Hw.
    eapply cycle_always; [exact green_within_bounds_stable | | exact IH | exact E].
    intros c1 h Ha. split.
    + apply (allocated_bounds _ _ _ _ _ Ha). apply Hw.
    + apply (allocated_bounds_throughout a b (ctl s) c1 h); try assumption.
      apply IH.
  - unfold read_clock in E. injection E as _ <-. exact IH.
Qed.

(** ** Sample runs are runs *)

Lemma sample_cycle_runs :
  cycle 30 70 1 (start sample_controller sample_clock)
  = Some (tt, sample_after_cycle).
Proof. vm_compute. reflexivity. Qed.

Lemma sample_non_negative : non_negative 30 70.
Proof. unfold non_negative, Int.INT_MAX. lia. Qed.

Lemma sample_reachable (D : Z -> Z -> Prop) :
  D 30 70 -> reachable D sample_controller sample_clock sample_after_cycle.
Proof.
  intros H. eapply reach_cycle; [apply reach_start | exact H | exact sample_cycle_runs].
Qed.

Lemma new_all_red minG maxG yellow allred n rt :
  all_red (new_IntersectionController minG maxG yellow allred n rt).
Proof. split; reflexivity. Qed.

Lemma new_yellow minG maxG yellow allred n rt :
  yellow_as_configured (new_IntersectionController minG maxG yellow allred n rt).
Proof. split; reflexivity. Qed.

(** ** The claims *)



(** C5.  Whatever [min_green] and [max_green] are, when the two
    densities sum to zero the allocator gives both directions
    [min_green]: [compute_and_set_green] is defined, its only effects
    are the two assignments of [minimal_events] (the proportional
    division is not reached, so nothing of it can be undefined), and
    [allocate(0, 0, 5, 40) = (5, 5)]. *)
Theorem zero_density_gives_minimum (a b : Z) (s : Sim) (lo hi : Z) :
  a + b = 0 ->
  (exists s',
     compute_and_set_green a b s = Some (tt, s') /\
     green_duration (ns (ctl s')) = min_green (ctl s) /\
     green_duration (ew (ctl s')) = min_green (ctl s) /\
     hist s' = hist s ++ minimal_events a b (ctl s)) /\
  allocate a b lo hi = Some (lo, lo) /\
  allocate 0 0 5 40 = Some (5, 5).
Proof.
  intros H. split; [|split].
  - eexists. split; [apply compute_and_set_green_minimal; lia|].
    repeat split.
  - unfold allocate. rewrite compute_and_set_green_minimal by lia. reflexivity.
  - unfold allocate. rewrite compute_and_set_green_minimal by lia. reflexivity.
Qed.

Lemma zero_density_gives_minimum_witness :
  allocate (-7) 7 40 5 = Some (40, 40).
Proof.
  exact (proj1 (proj2 (zero_density_gives_minimum (-7) 7
                         (start sample_controller sample_clock) 40 5
                         eq_refl))).
Defined.

Lemma digit_is_digit (n : nat) : is_digit (digit n) = true.
Proof.
  unfold is_digit, digit.
  assert (H : (n mod 10 < 10)%nat) by (apply Nat.mod_upper_bound; lia).
  rewrite nat_ascii_embedding by lia.
  apply andb_true_intro. split; apply Nat.leb_le; lia.
Qed.

Lemma strftime_HMS_form (t : tm) : is_HH_MM_SS (strftime_HMS t).
Proof.
  unfold is_HH_MM_SS, strftime_HMS, two_digits.
  eexists _, _, _, _, _, _. split; [reflexivity|].
  cbn [forallb]. now rewrite !digit_is_digit.
Qed.

Lemma setw_strftime (t : tm) : setw 3 (strftime_HMS t) = strftime_HMS t.
Proof. reflexivity. Qed.

(** ** Numerals *)

Lemma digits_value_of_uint_acc (d : Decimal.uint) :
  forall acc : positive,
    digits_value (Z.pos acc) (NilEmpty.string_of_uint d)
    = Some (Z.pos (Pos.of_uint_acc d acc)).
Proof.
  induction d; intros acc; cbn [NilEmpty.string_of_uint Pos.of_uint_acc];
    [reflexivity | ..];
    cbn [digits_value]; rewrite <- IHd;
    match goal with
    | |- context [is_digit ?c] => change (is_digit c) with true
    end;
    cbv iota; f_equal;
    match goal with
    | |- context [Z.of_nat ?n] =>
        let v := eval vm_compute in (Z.of_nat n) in
        change (Z.of_nat n) with v
    end;
    lia.
Qed.

Lemma digits_value_of_uint (d : Decimal.uint) :
  digits_value 0 (NilEmpty.string_of_uint d) = Some (Z.of_N (Pos.of_uint d)).
Proof.
  induction d; cbn [NilEmpty.string_of_uint Pos.of_uint];
    [reflexivity | exact IHd | ..];
    cbn [digits_value];
    match goal with
    | |- context [is_digit ?c] => change (is_digit c) with true
    end;
    cbv iota; apply digits_value_of_uint_acc.
Qed.

(** The digits of a positive number do not start with a zero. *)
Lemma to_uint_head (p : positive) :
  match Pos.to_uint p with
  | Decimal.Nil | Decimal.D0 _ => False
  | _ => True
  end.
Proof.
  pose proof (DecimalPos.Unsigned.to_of (Pos.to_uint p)) as H.
  rewrite DecimalPos.Unsigned.of_to in H. cbn [N.to_uint] in H.
  pose proof (DecimalPos.Unsigned.to_uint_nonnil p) as Hn.
  pose proof (DecimalPos.Unsigned.to_uint_nonzero p) as Hz.
  destruct (Pos.to_uint p) as [| l | | | | | | | | |]; try exact I.
  - now elim Hn.
  - unfold Decimal.unorm in H. cbn [Decimal.nzhead] in H.
    pose proof (DecimalFacts.nb_digits_nzhead l) as Hl.
    destruct (Decimal.nzhead l) eqn:E.
    + injection H as ->. now elim Hz.
    + rewrite <- H in Hl. cbn [Decimal.nb_digits] in Hl. lia.
    + rewrite <- H in Hl. cbn [Decimal.nb_digits] in Hl. lia.
    + rewrite <- H in Hl. cbn [Decimal.nb_digits] in Hl. lia.
    + rewrite <- H in Hl. cbn [Decimal.nb_digits] in Hl. lia.
    + rewrite <- H in Hl. cbn [Decimal.nb_digits] in Hl. lia.
    + rewrite <- H in Hl. cbn [Decimal.nb_digits] in Hl. lia.
    + rewrite <- H in Hl. cbn [Decimal.nb_digits] in Hl. lia.
    + rewrite <- H in Hl. cbn [Decimal.nb_digits] in Hl. lia.
    + rewrite <- H in Hl. cbn [Decimal.nb_digits] in Hl. lia.
    + rewrite <- H in Hl. cbn [Decimal.nb_digits] in Hl. lia.
Qed.

Lemma unsigned_value_to_uint (p : positive) :
  NilZero.string_of_uint (Pos.to_uint p)
  = NilEmpty.string_of_uint (Pos.to_uint p) /\
  unsigned_value (NilEmpty.string_of_uint (Pos.to_uint p)) = Some (Z.pos p) /\
  numeral_value (NilEmpty.string_of_uint (Pos.to_uint p)) = Some (Z.pos p).
Proof.
  pose proof (digits_value_of_uint (Pos.to_uint p)) as V.
  rewrite DecimalPos.Unsigned.of_to in V. cbn [Z.of_N] in V.
  pose proof (to_uint_head p) as Hh.
  destruct (Pos.to_uint p); try contradiction;
    (split; [reflexivity|]); (split; exact V).
Qed.

(** What [operator<<] writes for an [int] is the decimal numeral of its
    value. *)
Lemma numeral_value_to_string (z : Z) :
  numeral_value (Int.to_string z) = Some z.
Proof.
  unfold Int.to_string. destruct z as [| p | p]; cbn [Z.to_int].
  - reflexivity.
  - cbn [NilZero.string_of_int].
    destruct (unsigned_value_to_uint p) as (E & _ & N). now rewrite E.
  - cbn [NilZero.string_of_int].
    destruct (unsigned_value_to_uint p) as (E & U & _). rewrite E.
    cbn [numeral_value]. now rewrite U.
Qed.

(** C9.  A phase transition writes one line of the form
    [[HH:MM:SS] <direction> -> <PHASE> (will last <N>s)]: the time is
    two digits, a colon, two digits, a colon, two digits; the phase is
    the word RED, GREEN or YELLOW; [N] is the decimal numeral of the
    light's green duration for GREEN and of its yellow duration for
    YELLOW, and the text "until other gets green" for RED. *)
Theorem transition_line_form (r : LightRef) (st : LightState) (s : Sim) :
  exists time N s',
    set_and_print r st s = Some (tt, s') /\
    state (light r (ctl s')) = st /\
    output (hist s')
    = (output (hist s)
       ++ log_line time (name (light r (ctl s)))
            (match st with
             | RED => "RED"
             | GREEN => "GREEN"
             | YELLOW => "YELLOW"
             end)
            N)%string /\
    is_HH_MM_SS time /\
    match st with
    | GREEN => numeral_value N = Some (green_duration (light r (ctl s)))
    | YELLOW => numeral_value N = Some (yellow_duration (light r (ctl s)))
    | RED => N = "until other gets green"%string
    end.
Proof.
  exists (strftime_HMS (clock s (clock_reads s))), (lasts st (light r (ctl s))).
  eexists. split; [apply set_and_print_eq|]. split; [|split; [|split]].
  - destruct r; reflexivity.
  - cbn [hist advanced]. rewrite output_app. f_equal.
    unfold log_line, set_events, stamp. cbn [map output].
    rewrite setw_strftime.
    repeat rewrite string_app_assoc. cbn [String.append].
    destruct r, st; cbn; repeat rewrite string_app_assoc; reflexivity.
  - apply strftime_HMS_form.
  - destruct st; cbn [lasts]; [reflexivity | |];
      apply numeral_value_to_string.
Qed.

Lemma transition_line_form_witness :
  (exists s',
     set_and_print NS GREEN (start sample_controller sample_clock)
     = Some (tt, s') /\
     output (hist s')
     = ("[13:05:00] North-South -> GREEN (will last 10s)" ++ nl)%string) /\
  (exists s',
     set_and_print EW YELLOW (start sample_controller sample_clock)
     = Some (tt, s') /\
     output (hist s')
     = ("[13:05:00] East-West -> YELLOW (will last 3s)" ++ nl)%string) /\
  (exists s',
     set_and_print EW RED (start sample_controller sample_clock)
     = Some (tt, s') /\
     output (hist s')
     = ("[13:05:00] East-West -> RED (will last until other gets greens)"
        ++ nl)%string).
Proof.
  split; [|split].
  - destruct (transition_line_form NS GREEN
                (start sample_controller sample_clock))
      as (time & N & s' & E & _).
    exists s'. split; [exact E|].
    vm_compute in E. injection E as <-. vm_compute. reflexivity.
  - destruct (transition_line_form EW YELLOW
                (start sample_controller sample_clock))
      as (time & N & s' & E & _).
    exists s'. split; [exact E|].
    vm_compute in E. injection E as <-. vm_compute. reflexivity.
  - destruct (transition_line_form EW RED
                (start sample_controller sample_clock))
      as (time & N & s' & E & _).
    exists s'. split; [exact E|].
    vm_compute in E. injection E as <-. vm_compute. reflexivity.
Defined.

(** C7.  In every cycle of a run, each of the six phase transitions is
    followed by exactly one notification of the timing collaborator
    ([wait_and_print]), with the duration of that phase: the green
    duration the allocation of this cycle computed for the direction
    after GREEN, the configured [yellow_time] after YELLOW and
    [all_red_time] after RED.  This holds for every configuration; a
    notification puts the thread to sleep when its duration is positive
    and the mode is real-time. *)
Theorem each_phase_notified_once
    (minG maxG yellow allred n : Z) (rt : bool) (clk : nat -> tm)
    (s : Sim) (a b k : Z) (u : unit) (s' : Sim) :
  reachable any_density
    (new_IntersectionController minG maxG yellow allred n rt) clk s ->
  cycle a b k s = Some (u, s') ->
  exists s1,
    compute_and_set_green a b s = Some (tt, s1) /\
    timeline (hist s')
    = timeline (hist s)
      ++ cycle_timeline (green_duration (ns (ctl s1)))
                        (green_duration (ew (ctl s1))) yellow allred /\
    sleeps (hist s')
    = sleeps (hist s)
      ++ cycle_sleeps rt (green_duration (ns (ctl s1)))
                      (green_duration (ew (ctl s1))) yellow allred.
Proof.
  intros Hs H. destruct u. apply cycle_iff in H.
  destruct H as (c1 & h & Ha & ->).
  pose proof (reachable_all_red _ _ _ _ (new_all_red _ _ _ _ _ _) Hs) as Hr.
  destruct (reachable_yellow _ _ _ _ (new_yellow _ _ _ _ _ _) Hs) as [Hy _].
  destruct (reachable_configuration _ _ _ _ Hs) as [Hc _].
  unfold configuration in Hc. injection Hc as _ _ Ey Er _ Ert.
  cbn in Ey, Er, Ert.
  exists (advanced s c1 h 0). split; [|split].
  - apply compute_and_set_green_iff. now exists c1, h.
  - cbn [hist ctl advanced]. rewrite timeline_app. f_equal.
    rewrite (timeline_cycle_events _ _ _ _ _ _ _ _ Ha Hr Hy).
    now rewrite Ey, Er.
  - cbn [hist ctl advanced]. rewrite sleeps_app. f_equal.
    rewrite (sleeps_cycle_events _ _ _ _ _ _ _ _ Ha Hy).
    now rewrite Ey, Er, Ert.
Qed.

Lemma each_phase_notified_once_witness :
  exists s1,
    compute_and_set_green 30 70 (start sample_controller sample_clock)
    = Some (tt, s1) /\
    timeline (hist sample_after_cycle)
    = cycle_timeline (green_duration (ns (ctl s1)))
                     (green_duration (ew (ctl s1))) 3 1 /\
    sleeps (hist sample_after_cycle)
    = cycle_sleeps false (green_duration (ns (ctl s1)))
                   (green_duration (ew (ctl s1))) 3 1.
Proof.
  exact (each_phase_notified_once 5 40 3 1 2 false sample_clock
           (start sample_controller sample_clock) 30 70 1 tt
           sample_after_cycle
           (reach_start any_density sample_controller sample_clock)
           sample_cycle_runs).
Defined.

(** C10.  Both lights are RED when the controller is constructed, both
    are RED again when a cycle ends, whatever the densities and the
    state it started from, and so both are RED whenever a cycle of a run
    begins. *)
Theorem lights_red_between_cycles
    (minG maxG yellow allred n : Z) (rt : bool) (clk : nat -> tm) :
  let c0 := new_IntersectionController minG maxG yellow allred n rt in
  all_red c0 /\
  (forall a b k s u s', cycle a b k s = Some (u, s') -> all_red (ctl s')) /\
  (forall s, reachable any_density c0 clk s -> all_red (ctl s)).
Proof.
  intros c0. split; [|split].
  - apply new_all_red.
  - intros a b k s [] s' H. apply cycle_iff in H.
    destruct H as (c1 & h & _ & ->). split; reflexivity.
  - intros s Hs. apply (reachable_all_red _ _ _ _ (new_all_red _ _ _ _ _ _) Hs).
Qed.

Lemma lights_red_between_cycles_witness :
  all_red (ctl sample_after_cycle).
Proof.
  exact (proj2 (proj2 (lights_red_between_cycles 5 40 3 1 2 false sample_clock))
           sample_after_cycle (sample_reachable any_density I)).
Defined.

(** C8.  At every point of a run the yellow duration of each light is
    the [yellow_time] given to the constructor: neither the allocation
    nor the phase sequencing of any cycle changes it. *)
Theorem yellow_duration_constant
    (minG maxG yellow allred n : Z) (rt : bool) (clk : nat -> tm) (s : Sim) :
  let c0 := new_IntersectionController minG maxG yellow allred n rt in
  reachable any_density c0 clk s ->
  Forall (fun c => yellow_duration (ns c) = yellow /\
                   yellow_duration (ew c) = yellow /\
                   yellow_time c = yellow)
         (c0 :: snapshots (hist s)).
Proof.
  intros c0 Hs. constructor; [repeat split|].
  destruct (reachable_yellow _ _ _ _ (new_yellow _ _ _ _ _ _) Hs) as [_ Hy].
  destruct (reachable_configuration _ _ _ _ Hs) as [_ Hc].
  rewrite Forall_forall in *. intros c Hin.
  specialize (Hy c Hin). specialize (Hc c Hin).
  unfold configuration in Hc. injection Hc as _ _ Ht _ _ _.
  destruct Hy as [Yn Yw]. cbn in Ht. repeat split; congruence.
Qed.

Lemma yellow_duration_constant_witness :
  Forall (fun c => yellow_duration (ns c) = 3 /\
                   yellow_duration (ew c) = 3 /\
                   yellow_time c = 3)
         (sample_controller :: snapshots (hist sample_after_cycle)).
Proof.
  exact (yellow_duration_constant 5 40 3 1 2 false sample_clock
           sample_after_cycle (sample_reachable any_density I)).
Defined.

(** C6.  At no point of a run are both lights out of RED: whenever one
    is GREEN or YELLOW the other is RED; and every transition to GREEN
    but the first of the run comes right after a notification of
    [all_red_time] seconds during which both lights are RED, itself
    right after the other light turned RED. *)
Theorem never_both_non_red
    (minG maxG yellow allred n : Z) (rt : bool) (clk : nat -> tm) (s : Sim) :
  let c0 := new_IntersectionController minG maxG yellow allred n rt in
  reachable any_density c0 clk s ->
  Forall never_both_go (c0 :: snapshots (hist s)) /\
  all_red_gaps allred (timeline (hist s)).
Proof.
  intros c0 Hs. split.
  - constructor; [now left|].
    apply (reachable_never_both_go _ _ _ _ (new_all_red _ _ _ _ _ _) Hs).
  - apply (whole_cycles_gaps yellow).
    apply (reachable_whole_cycles _ _ _ _ (new_all_red _ _ _ _ _ _)
             (new_yellow _ _ _ _ _ _) Hs).
Qed.

Lemma never_both_non_red_witness :
  Forall never_both_go (sample_controller :: snapshots (hist sample_after_cycle))
  /\ all_red_gaps 1 (timeline (hist sample_after_cycle)).
Proof.
  exact (never_both_non_red 5 40 3 1 2 false sample_clock
           sample_after_cycle (sample_reachable any_density I)).
Defined.

(** C3, as it holds.  For bounds [max_green >= min_green >= 0] and
    non-negative densities, both green durations are within
    [[min_green, max_green]] after the allocation step of every cycle,
    and at every point of the run from the first phase transition on;
    they are within the bounds at every point of the run, the
    construction included, when [min_green <= 10 <= max_green], 10
    being the duration a light is constructed with. *)
Theorem green_within_bounds_after_allocation
    (minG maxG yellow allred n : Z) (rt : bool) (clk : nat -> tm) (s : Sim) :
  let c0 := new_IntersectionController minG maxG yellow allred n rt in
  0 <= minG -> minG <= maxG -> maxG <= Int.INT_MAX ->
  reachable non_negative c0 clk s ->
  (forall a b, non_negative a b ->
     exists s1, compute_and_set_green a b s = Some (tt, s1) /\
                green_within_bounds (ctl s1)) /\
  Forall green_within_bounds (snapshots (from_first_transition (hist s))) /\
  (minG <= 10 <= maxG ->
   Forall green_within_bounds (c0 :: snapshots (hist s))).
Proof.
  intros c0 H0 Hle Hmax Hs.
  assert (Hc : well_configured c0) by (repeat split; assumption).
  pose proof (reachable_well_configured _ _ _ _ Hc Hs) as Hw.
  split; [|split].
  - intros a b Hd.
    destruct (allocated_defined a b (ctl s) Hw Hd) as (c1 & h & Ha).
    exists (advanced s c1 h 0). split.
    + apply compute_and_set_green_iff. now exists c1, h.
    + apply (allocated_bounds _ _ _ _ _ Ha). apply Hw.
  - apply (reachable_bounds_from_first_transition _ _ _ Hc Hs).
  - intros H10.
    assert (Hg : green_within_bounds c0) by (split; cbn; lia).
    constructor; [exact Hg|].
    apply (reachable_bounds_always _ _ _ Hc Hg Hs).
Qed.

Lemma green_within_bounds_after_allocation_witness :
  (forall a b, non_negative a b ->
     exists s1, compute_and_set_green a b sample_after_cycle = Some (tt, s1) /\
                green_within_bounds (ctl s1)) /\
  Forall green_within_bounds
    (snapshots (from_first_transition (hist sample_after_cycle))) /\
  (5 <= 10 <= 40 ->
   Forall green_within_bounds
     (sample_controller :: snapshots (hist sample_after_cycle))).
Proof.
  apply (green_within_bounds_after_allocation 5 40 3 1 2 false sample_clock
           sample_after_cycle).
  - lia.
  - lia.
  - unfold Int.INT_MAX. lia.
  - apply sample_reachable. unfold non_negative, Int.INT_MAX. lia.
Defined.

(** C3 as the specification words it fails: with bounds 20 and 40 a run
    starts with both green durations at 10, below [min_green], until the
    first allocation. *)
Lemma green_outside_bounds_before_first_allocation :
  0 <= min_green long_green_controller <= max_green long_green_controller /\
  non_negative 30 70 /\
  exists s,
    simulate_with_inputs 30 70 (start long_green_controller sample_clock)
    = Some (tt, s) /\
    ~ Forall green_within_bounds (snapshots (hist s)).
Proof.
  split; [cbn; lia|]. split; [exact sample_non_negative|].
  eexists. split; [vm_compute; reflexivity|].
  intros H. apply Forall_inv in H. destruct H as [[H _] _].
  cbn in H. lia.
Qed.

(** ** [main] *)

Lemma cycle_configuration a b k s u s' :
  cycle a b k s = Some (u, s') ->
  configuration (ctl s') = configuration (ctl s).
Proof.
  destruct u. intros H. apply cycle_iff in H.
  destruct H as (c1 & h & Ha & ->).
  destruct (allocated_frame _ _ _ _ _ Ha) as [(Hc & _) _]. exact Hc.
Qed.

Lemma for_int_cycle_allocations a b n :
  forall k s u s',
    for_int n k (cycle a b) s = Some (u, s') ->
    allocations (hist s') = allocations (hist s) ++ repeat (a, b) n /\
    configuration (ctl s') = configuration (ctl s).
Proof.
  induction n as [| n IH]; intros k s u s' H.
  - cbn in H. unfold ret in H. injection H as _ <-.
    now rewrite app_nil_r.
  - cbn [for_int] in H. unfold bind at 1 in H.
    destruct (cycle a b k s) as [[[] s1]|] eqn:E; [|discriminate].
    unfold bind at 1, defined in H.
    destruct (Int.add k 1) as [k'|]; [|discriminate].
    apply IH in H. destruct H as [H1 H2].
    rewrite H1, H2. split; [|now apply cycle_configuration in E].
    pose proof E as E'. apply cycle_iff in E'.
    destruct E' as (c1 & h & Ha & ->).
    cbn [hist advanced]. rewrite allocations_app.
    rewrite (allocations_cycle_events _ _ _ _ _ _ _ _ Ha).
    rewrite <- app_assoc. reflexivity.
Qed.

(** One call of [simulate_with_inputs] runs [cycles] cycles, all on the
    same density pair. *)
Lemma simulate_allocations a b s u s' :
  simulate_with_inputs a b s = Some (u, s') ->
  allocations (hist s')
  = allocations (hist s) ++ repeat (a, b) (Z.to_nat (cycles (ctl s))) /\
  configuration (ctl s') = configuration (ctl s).
Proof.
  unfold simulate_with_inputs. unfold bind at 1, member. unfold bind at 1.
  rewrite emit_eq. intros H. apply for_int_cycle_allocations in H.
  destruct H as [H1 H2]. rewrite H1, H2. cbn [hist ctl advanced].
  rewrite allocations_app. cbn. rewrite app_nil_r. split; reflexivity.
Qed.

Lemma random_rounds_allocations dist N n :
  forall k s u s',
    cycles (ctl s) = N -> 0 <= k ->
    for_int n k (random_round dist) s = Some (u, s') ->
    allocations (hist s')
    = allocations (hist s)
      ++ flat_map (fun j => repeat (dist (2 * j)%nat, dist (2 * j + 1)%nat)
                                   (Z.to_nat N))
                  (seq (Z.to_nat k) n).
Proof.
  induction n as [| n IH]; intros k s u s' HN Hk H.
  - cbn in H. unfold ret in H. injection H as _ <-. now rewrite app_nil_r.
  - cbn [for_int] in H. unfold bind at 1 in H.
    destruct (random_round dist k s) as [[[] s1]|] eqn:E; [|discriminate].
    unfold bind at 1, defined in H.
    destruct (Int.add k 1) as [k'|] eqn:Ek; [|discriminate].
    assert (k' = k + 1).
    { unfold Int.add, Int.checked in Ek.
      destruct (Int.in_rangeb (k + 1)); congruence. }
    subst k'.
    unfold random_round in E. unfold bind at 1, defined in E. rewrite Ek in E.
    unfold bind at 1 in E. rewrite emit_eq in E.
    apply simulate_allocations in E. destruct E as [E1 E2].
    cbn [hist ctl advanced] in E1, E2.
    rewrite allocations_app in E1. cbn [stamp map allocations] in E1.
    rewrite app_nil_r in E1.
    apply IH in H; [| | lia].
    2:{ unfold configuration in E2. injection E2 as _ _ _ _ -> _. exact HN. }
    rewrite H, E1, HN.
    replace (Z.to_nat (k + 1)) with (S (Z.to_nat k)) by lia.
    cbn [seq flat_map]. now rewrite <- app_assoc.
Qed.

Lemma flat_map_repeat_length {A} (f : nat -> A) (m : nat) (l : list nat) :
  List.length (flat_map (fun j => repeat (f j) m) l) = (List.length l * m)%nat.
Proof.
  induction l as [| x l IH]; [reflexivity|].
  cbn [flat_map]. rewrite length_app, repeat_length, IH. cbn. lia.
Qed.

(** Every simulation [main] ends in is one the run theorems speak of. *)
Lemma seed_rng_eq s : seed_rng s = Some (tt, seeded s).
Proof. reflexivity. Qed.

Lemma reach_seeded D c0 clk s :
  reachable D c0 clk s -> reachable D c0 clk (seeded s).
Proof. intros H. eapply reach_clock; [exact H | reflexivity]. Qed.

Lemma main_reachable N mode rt a b dist clk u s :
  main N mode rt a b dist clk = Some (u, s) ->
  reachable any_density (new_IntersectionController 5 40 3 1 N rt) clk s.
Proof.
  unfold main. set (c0 := new_IntersectionController 5 40 3 1 N rt).
  unfold bind at 1.
  destruct (mode =? 1).
  - destruct (simulate_with_inputs a b (start c0 clk)) as [[[] s1]|] eqn:E;
      [|discriminate].
    intros H. eapply reach_print; [|exact H].
    eapply simulate_reachable; [apply reach_start | exact I | exact E].
  - unfold bind at 1. change (seed_rng (start c0 clk))
      with (Some (tt, seeded (start c0 clk))).
    destruct (for_int (Z.to_nat N) 0 (random_round dist)
                (seeded (start c0 clk)))
      as [[[] s1]|] eqn:E; [|discriminate].
    intros H. eapply reach_print; [|exact H].
    revert E. apply (for_int_invariant (reachable any_density c0 clk));
      [|apply reach_seeded; apply reach_start].
    intros k x v x' Hx Hk. unfold random_round in Hk.
    unfold bind at 1, defined in Hk.
    destruct (Int.add k 1) as [k'|]; [|discriminate].
    unfold bind at 1 in Hk.
    destruct (emit _ x) as [[u1 x1]|] eqn:Ex; [|discriminate].
    eapply simulate_reachable; [| exact I | exact Hk].
    eapply reach_print; eassumption.
Qed.

(** On well-formed input [main] runs to completion. *)
Lemma main_defined N mode rt a b dist clk :
  N < Int.INT_MAX ->
  (mode = 1 -> non_negative a b) ->
  (forall k, 0 <= dist k <= 100) ->
  exists s, main N mode rt a b dist clk = Some (tt, s).
Proof.
  intros HN Hman Hdist. unfold main.
  set (c0 := new_IntersectionController 5 40 3 1 N rt).
  assert (Hc : well_configured c0)
    by (unfold well_configured, Int.INT_MAX; cbn; lia).
  unfold bind at 1.
  destruct (Z.eqb_spec mode 1) as [Hm | Hm].
  - destruct (simulate_defined c0 clk (start c0 clk) a b Hc HN
                (reach_start _ _ _) (Hman Hm)) as (s1 & E & _).
    rewrite E. rewrite emit_eq. eexists. reflexivity.
  - unfold bind at 1. change (seed_rng (start c0 clk))
      with (Some (tt, seeded (start c0 clk))).
    destruct (for_int_defined (reachable non_negative c0 clk)
                (random_round dist)) with (n := Z.to_nat N) (k := 0)
                (s := seeded (start c0 clk)) as (s1 & E & _).
    + intros k x Hx Hlo Hhi. unfold random_round.
      unfold bind at 1, defined. unfold Int.add at 1.
      rewrite checked_in_range by (unfold Int.in_range; lia).
      unfold bind at 1. rewrite emit_eq.
      apply (simulate_defined c0 clk); try assumption.
      * eapply reach_print; [exact Hx | apply emit_eq].
      * pose proof (Hdist (2 * Z.to_nat k)%nat).
        pose proof (Hdist (2 * Z.to_nat k + 1)%nat).
        unfold non_negative, Int.INT_MAX. lia.
    + apply reach_seeded. apply reach_start.
    + unfold Int.INT_MIN. lia.
    + unfold Int.INT_MAX in *. lia.
    + rewrite E. rewrite emit_eq. eexists. reflexivity.
Qed.

(** C1, as the code has it.  In random mode a run with cycle count [N]
    draws [N] density pairs and runs [N] cycles on each of them, [N * N]
    cycles in all, every pair being used [N] times in a row: each round
    of the loop of [main] calls [simulate_with_inputs], which loops over
    [cycles] itself. *)
Theorem random_mode_runs_cycles_squared
    (N mode : Z) (rt : bool) (a b : Z) (dist : nat -> Z) (clk : nat -> tm)
    (u : unit) (s : Sim) :
  mode <> 1 ->
  main N mode rt a b dist clk = Some (u, s) ->
  allocations (hist s)
  = flat_map (fun j => repeat (dist (2 * j)%nat, dist (2 * j + 1)%nat)
                               (Z.to_nat N))
             (seq 0 (Z.to_nat N)) /\
  List.length (allocations (hist s)) = (Z.to_nat N * Z.to_nat N)%nat.
Proof.
  intros Hm H.
  assert (E : allocations (hist s)
              = flat_map (fun j => repeat (dist (2 * j)%nat, dist (2 * j + 1)%nat)
                                          (Z.to_nat N))
                         (seq 0 (Z.to_nat N))).
  { revert H. unfold main.
    destruct (Z.eqb_spec mode 1) as [? | _]; [contradiction|].
    unfold bind at 1. unfold bind at 1. rewrite seed_rng_eq.
    destruct (for_int _ _ _ _) as [[[] s1]|] eqn:E; [|discriminate].
    rewrite emit_eq. intros H. injection H as _ <-.
    cbn [hist advanced]. rewrite allocations_app. cbn [stamp map allocations].
    rewrite app_nil_r.
    apply (random_rounds_allocations dist N) in E; [| reflexivity | lia].
    exact E. }
  split; [exact E|].
  rewrite E, flat_map_repeat_length, length_seq. reflexivity.
Qed.

Lemma random_mode_runs_cycles_squared_witness :
  exists s,
    main 2 2 false 0 0 sample_dist sample_clock = Some (tt, s) /\
    allocations (hist s) = [(30, 70); (30, 70); (100, 0); (100, 0)] /\
    List.length (allocations (hist s)) = 4%nat.
Proof.
  destruct (main 2 2 false 0 0 sample_dist sample_clock) as [[[] s]|] eqn:E.
  - exists s. split; [reflexivity|].
    apply (random_mode_runs_cycles_squared 2 2 false 0 0 sample_dist
             sample_clock tt s); [discriminate | exact E].
  - vm_compute in E. discriminate E.
Defined.


(** ** The by-value [double] against the Standard Library's binary64 *)

Lemma by_value_agrees_with_binary64 : Binary64.agree_upto 100 35 = true.
Proof. vm_compute. reflexivity. Qed.

(** An exact tie that the two roundings of [double] turn into less than
    a half: 47/70 of 35 is 23.5, computed as 23.499999999999996. *)
Lemma inexact_tie :
  exact_share 47 70 35 = 24 /\ rounded_share 47 70 35 = 23 /\
  allocate 23 47 5 40 = Some (17, 28) /\
  allocate 50 50 5 40 = Some (23, 23).
Proof. repeat split; vm_compute; reflexivity. Qed.

(* ===================================================================== *)
(** * Further properties *)
(* ===================================================================== *)

(** ** The error of the floating-point evaluation *)

Section DoubleError.
Local Open Scope Q_scope.

Lemma ilog2_le_log2 (x : Q) (N : Z) :
  0 <= x -> x <= inject_Z N -> (Double.ilog2 x <= Z.log2 N + 1)%Z.
Proof.
  intros H0 HN.
  assert (Hl : (Z.log2 (Qnum x) - Z.log2 (Zpos (Qden x)) <= Z.log2 N + 1)%Z).
  { destruct x as [n d]. unfold Qle in H0, HN. cbn [Qnum Qden inject_Z] in *.
    assert (Hn : (n <= N * Zpos d)%Z) by lia.
    assert (Hn0 : (0 <= n)%Z) by lia.
    assert (HN0 : (0 <= N)%Z) by nia.
    assert (Z.log2 n <= Z.log2 (N * Zpos d))%Z by now apply Z.log2_le_mono.
    assert (Z.log2 (N * Zpos d) <= Z.log2 N + Z.log2 (Zpos d) + 1)%Z
      by (apply Z.log2_mul_above; lia).
    lia. }
  unfold Double.ilog2.
  destruct (if (0 <=? _)%Z then _ else _); lia.
Qed.

Lemma round_nearest_even_error (y : Q) :
  - (1 # 2) <= inject_Z (Double.round_nearest_even y) - y <= 1 # 2.
Proof.
  unfold Double.round_nearest_even.
  pose proof (Qfloor_le y) as Hlo. pose proof (Qlt_floor y) as Hhi.
  rewrite inject_Z_plus in Hhi. change (inject_Z 1) with 1 in Hhi.
  destruct (Qcompare_spec (y - inject_Z (Qfloor y)) (1 # 2)) as [E | L | G].
  - destruct (Z.even (Qfloor y)).
    + split; lra.
    + rewrite inject_Z_plus. change (inject_Z 1) with 1. split; lra.
  - split; lra.
  - rewrite inject_Z_plus. change (inject_Z 1) with 1. split; lra.
Qed.

(** A value in [[0, N]] is rounded with an error of at most half a unit
    in the last place of [N]. *)
Lemma round_error (x : Q) (N m : Z) :
  0 <= x -> x <= inject_Z N -> (Z.log2 N <= m)%Z -> (0 <= m <= 50)%Z ->
  - 1 <= (Double.round x - x) * inject_Z (2 ^ (52 - m)) <= 1.
Proof.
  intros H0 HN Hm Hm51.
  pose proof (ilog2_le_log2 x N H0 HN) as Hl.
  assert (He : (Double.ulp_exp x <= m - 51)%Z).
  { unfold Double.ulp_exp. rewrite Qabs_nonneg_eq by assumption.
    apply Z.max_lub; lia. }
  assert (He' : (- 1074 <= Double.ulp_exp x)%Z) by apply Z.le_max_r.
  unfold Double.round.
  destruct (Z.leb_spec 0 (Double.ulp_exp x)) as [? | _]; [lia|].
  set (e := Double.ulp_exp x) in *.
  set (K := (2 ^ (- e))%Z).
  set (J := (2 ^ (51 - m))%Z).
  assert (HJ : (0 < J)%Z) by (apply Z.pow_pos_nonneg; lia).
  assert (HJK : (J <= K)%Z) by (apply Z.pow_le_mono_r; lia).
  assert (H2J : (2 ^ (52 - m) = 2 * J)%Z).
  { unfold J. replace (52 - m)%Z with (Z.succ (51 - m)) by lia.
    rewrite Z.pow_succ_r by lia. reflexivity. }
  rewrite H2J, inject_Z_mult. change (inject_Z 2) with 2.
  pose proof (round_nearest_even_error (x * inject_Z K)) as [E1 E2].
  set (r := inject_Z (Double.round_nearest_even (x * inject_Z K))) in *.
  assert (Hj : 0 < inject_Z J)
    by (change 0 with (inject_Z 0); now rewrite <- Zlt_Qlt).
  assert (Hjk : inject_Z J <= inject_Z K) by now rewrite <- Zle_Qle.
  set (j := inject_Z J) in *. set (k := inject_Z K) in *.
  assert (Hk : 0 < k) by lra.
  assert (Hd : (r / k - x) * k == r - x * k) by (field; lra).
  set (d := r / k - x) in *.
  split.
  - destruct (Qlt_le_dec d 0) as [Hneg | Hpos].
    + assert (- (d * k) <= 1 # 2) by lra.
      assert (- d * j <= - d * k) by (apply Qmult_le_l; lra).
      lra.
    + assert (0 <= d * j) by (apply Qmult_le_0_compat; lra). lra.
  - destruct (Qlt_le_dec 0 d) as [Hpos | Hneg].
    + assert (d * j <= d * k) by (apply Qmult_le_l; lra). lra.
    + assert (0 <= (- d) * j) by (apply Qmult_le_0_compat; lra). lra.
Qed.

End DoubleError.

Section ShareError.
Local Open Scope Q_scope.

(** The product [(a / T) * E] as the program computes it, against its
    exact value: the two roundings together move it by less than
    [2 ^ -20]. *)
Lemma share_error (a T E : Z) :
  (0 <= a <= T)%Z -> (0 < T)%Z -> (0 <= E <= Int.INT_MAX)%Z ->
  let p := Double.mul (Double.div (inject_Z a) (inject_Z T)) (inject_Z E) in
  let x := inject_Z a / inject_Z T * inject_Z E in
  0 <= p /\ p <= inject_Z E /\
  - (3 # 4194304) <= p - x <= 3 # 4194304.
Proof.
  intros Ha HT HE p x.
  assert (HTq : 0 < inject_Z T)
    by (change 0 with (inject_Z 0); now rewrite <- Zlt_Qlt).
  assert (Hq0 : 0 <= inject_Z a / inject_Z T).
  { apply Qle_shift_div_l; [assumption|]. rewrite Qmult_0_l.
    change 0 with (inject_Z 0). rewrite <- Zle_Qle. lia. }
  assert (Hq1 : inject_Z a / inject_Z T <= inject_Z 1).
  { apply Qle_shift_div_r; [assumption|]. change (inject_Z 1) with 1.
    rewrite Qmult_1_l. rewrite <- Zle_Qle. lia. }
  destruct (round_bounds _ 1 Hq0 Hq1) as [Hr0 Hr1]; [unfold Int.INT_MAX; lia|].
  pose proof (round_error _ 1 0 Hq0 Hq1) as Eq.
  change (Z.log2 1) with 0%Z in Eq. specialize (Eq ltac:(lia) ltac:(lia)).
  change (inject_Z (2 ^ (52 - 0))) with (4503599627370496 # 1) in Eq.
  fold (Double.div (inject_Z a) (inject_Z T)) in Hr0, Hr1, Eq.
  set (q := inject_Z a / inject_Z T) in *.
  set (q' := Double.div (inject_Z a) (inject_Z T)) in *.
  change (inject_Z 1) with 1 in Hr1.
  assert (HE0 : 0 <= inject_Z E)
    by (change 0 with (inject_Z 0); rewrite <- Zle_Qle; lia).
  assert (HE1 : inject_Z E <= 2147483647 # 1).
  { change (2147483647 # 1) with (inject_Z 2147483647). rewrite <- Zle_Qle.
    unfold Int.INT_MAX in HE. lia. }
  assert (Hy0 : 0 <= q' * inject_Z E) by (apply Qmult_le_0_compat; assumption).
  assert (Hy1 : q' * inject_Z E <= inject_Z E).
  { rewrite <- (Qmult_1_l (inject_Z E)) at 2.
    apply Qmult_le_compat_r; assumption. }
  destruct (round_bounds _ E Hy0 Hy1) as [Hp0 Hp1]; [lia|].
  assert (Hlog : (Z.log2 E <= 30)%Z).
  { destruct (Z.eq_dec E 0) as [-> | ]; [cbn; lia|].
    assert (Z.log2 E < 31)%Z; [|lia].
    apply Z.log2_lt_pow2; [lia|]. unfold Int.INT_MAX in HE. lia. }
  pose proof (round_error _ E 30 Hy0 Hy1 Hlog ltac:(lia)) as Ep.
  change (inject_Z (2 ^ (52 - 30))) with (4194304 # 1) in Ep.
  fold (Double.mul q' (inject_Z E)) in Hp0, Hp1, Ep.
  fold p in Hp0, Hp1, Ep.
  split; [exact Hp0|]. split; [exact Hp1|].
  subst x. set (e := inject_Z E) in *.
  assert (Hd : - (1 # 4503599627370496) <= q' - q <= 1 # 4503599627370496)
    by (split; lra).
  assert (Hde : - (2147483647 # 4503599627370496) <= (q' - q) * e
                <= 2147483647 # 4503599627370496).
  { split.
    - destruct (Qlt_le_dec (q' - q) 0) as [Hn | Hp].
      + assert (- (q' - q) * e <= (1 # 4503599627370496) * e)
          by (apply Qmult_le_compat_r; lra). lra.
      + assert (0 <= (q' - q) * e) by (apply Qmult_le_0_compat; lra). lra.
    - destruct (Qlt_le_dec (q' - q) 0) as [Hn | Hp].
      + assert (0 <= (- (q' - q)) * e) by (apply Qmult_le_0_compat; lra). lra.
      + assert ((q' - q) * e <= (1 # 4503599627370496) * e)
          by (apply Qmult_le_compat_r; lra). lra. }
  split; lra.
Qed.

End ShareError.

Section ShareValue.
Local Open Scope Q_scope.

Lemma rounded_share_floor (a T E : Z) :
  (0 <= a <= T)%Z -> (0 < T)%Z -> (0 <= E <= Int.INT_MAX)%Z ->
  rounded_share a T E
  = Qfloor (Double.mul (Double.div (inject_Z a) (inject_Z T)) (inject_Z E)
            + (1 # 2)).
Proof.
  intros Ha HT HE. destruct (share_error a T E Ha HT HE) as (Hp0 & _).
  unfold rounded_share, Double.cround.
  rewrite (proj2 (Qle_bool_iff _ _) Hp0). apply Qfloor_Z.
Qed.

Lemma exact_times (a T E : Z) :
  (0 < T)%Z ->
  inject_Z a / inject_Z T * inject_Z E * inject_Z T == inject_Z (a * E).
Proof.
  intros HT. rewrite inject_Z_mult. field.
  intros H. unfold Qeq in H. cbn in H. lia.
Qed.

(** The share stays within one of the exact proportion. *)
Lemma rounded_share_near (a T E : Z) :
  (0 <= a <= T)%Z -> (0 < T)%Z -> (0 <= E <= Int.INT_MAX)%Z ->
  (a * E - T < T * rounded_share a T E < a * E + T)%Z.
Proof.
  intros Ha HT HE.
  rewrite (rounded_share_floor a T E Ha HT HE).
  destruct (share_error a T E Ha HT HE) as (_ & _ & Hlo & Hhi).
  set (p := Double.mul (Double.div (inject_Z a) (inject_Z T)) (inject_Z E)) in *.
  set (x := inject_Z a / inject_Z T * inject_Z E) in *.
  pose proof (exact_times a T E HT) as Hx. fold x in Hx.
  pose proof (Qfloor_le (p + (1 # 2))) as F1.
  pose proof (Qlt_floor (p + (1 # 2))) as F2.
  rewrite inject_Z_plus in F2. change (inject_Z 1) with 1 in F2.
  set (s := Qfloor (p + (1 # 2))) in *.
  assert (HTq : 0 < inject_Z T)
    by (change 0 with (inject_Z 0); now rewrite <- Zlt_Qlt).
  assert (L1 : x - 1 < inject_Z s) by lra.
  assert (L2 : inject_Z s < x + 1) by lra.
  apply (Qmult_lt_compat_r _ _ (inject_Z T)) in L1; [|assumption].
  apply (Qmult_lt_compat_r _ _ (inject_Z T)) in L2; [|assumption].
  assert (M1 : inject_Z (a * E - T) < inject_Z (T * s)).
  { unfold Z.sub. rewrite inject_Z_plus, inject_Z_opp, <- Hx.
    rewrite inject_Z_mult. lra. }
  assert (M2 : inject_Z (T * s) < inject_Z (a * E + T)).
  { rewrite inject_Z_plus, <- Hx. rewrite inject_Z_mult. lra. }
  rewrite <- Zlt_Qlt in M1, M2. lia.
Qed.

End ShareValue.

(** The share is the exact proportion [a * E / T] rounded down or up. *)
Lemma rounded_share_bracket (a T E : Z) :
  0 <= a <= T -> 0 < T -> 0 <= E <= Int.INT_MAX ->
  a * E / T <= rounded_share a T E <= (a * E + T - 1) / T.
Proof.
  intros Ha HT HE. destruct (rounded_share_near a T E Ha HT HE) as [L U].
  set (s := rounded_share a T E) in *. split.
  - apply Z.lt_succ_r. apply Z.div_lt_upper_bound; [lia|]. lia.
  - apply Z.div_le_lower_bound; [lia|]. lia.
Qed.

(** The two shares of a density pair add up to the budget or miss it by
    one. *)
Lemma rounded_shares_sum (a b E : Z) :
  0 <= a -> 0 <= b -> 0 < a + b -> 0 <= E <= Int.INT_MAX ->
  E - 1 <= rounded_share a (a + b) E + rounded_share b (a + b) E <= E + 1.
Proof.
  intros Ha Hb HT HE.
  destruct (rounded_share_near a (a + b) E) as [L1 U1]; try lia.
  destruct (rounded_share_near b (a + b) E) as [L2 U2]; try lia.
  set (s1 := rounded_share a (a + b) E) in *.
  set (s2 := rounded_share b (a + b) E) in *.
  assert (H1 : (a + b) * (s1 + s2) < (a + b) * (E + 2)) by nia.
  assert (H2 : (a + b) * (E - 2) < (a + b) * (s1 + s2)) by nia.
  apply Z.mul_lt_mono_pos_l in H1, H2; lia.
Qed.

Section ShareExact.
Local Open Scope Q_scope.

Lemma Qfloor_unique (z : Q) (k : Z) :
  inject_Z k <= z -> z < inject_Z k + 1 -> Qfloor z = k.
Proof.
  intros H1 H2.
  assert (L : (k <= Qfloor z)%Z).
  { rewrite <- (Qfloor_Z k). now apply Qfloor_resp_le. }
  assert (U : (Qfloor z < k + 1)%Z).
  { rewrite Zlt_Qlt, inject_Z_plus. change (inject_Z 1) with 1.
    pose proof (Qfloor_le z). lra. }
  lia.
Qed.

Lemma Qmult_bound (y d t M : Q) :
  - d <= y <= d -> 0 <= t <= M -> - (d * M) <= y * t <= d * M.
Proof.
  intros [Y1 Y2] [T1 T2].
  assert (D : 0 <= d) by lra.
  assert (DM : t * d <= M * d) by (apply Qmult_le_compat_r; lra).
  assert (U : y * t <= d * t) by (apply Qmult_le_compat_r; lra).
  assert (L : (- y) * t <= d * t) by (apply Qmult_le_compat_r; lra).
  split; lra.
Qed.

(** Twice the exact proportion plus one half, times the total. *)
Lemma exact_half_times (a T E : Z) :
  (0 < T)%Z ->
  (inject_Z a / inject_Z T * inject_Z E + (1 # 2)) * (2 * inject_Z T)
  == inject_Z (2 * a * E + T).
Proof.
  intros HT. rewrite inject_Z_plus, !inject_Z_mult. change (inject_Z 2) with 2.
  field. intros H. unfold Qeq in H. cbn in H. lia.
Qed.

Lemma exact_share_formula (a T E : Z) :
  (0 <= a)%Z -> (0 < T)%Z -> (0 <= E)%Z ->
  exact_share a T E = ((2 * a * E + T) / (2 * T))%Z.
Proof.
  intros Ha HT HE. unfold exact_share.
  set (x := inject_Z a / inject_Z T * inject_Z E).
  pose proof (exact_half_times a T E HT) as Hx. fold x in Hx.
  assert (HTq : 0 < inject_Z T)
    by (change 0 with (inject_Z 0); now rewrite <- Zlt_Qlt).
  set (m := (2 * a * E + T)%Z) in *.
  pose proof (Z.div_mod m (2 * T) ltac:(lia)) as Hm.
  pose proof (Z.mod_pos_bound m (2 * T) ltac:(lia)) as Hr.
  set (k := (m / (2 * T))%Z) in *. set (r := (m mod (2 * T))%Z) in *.
  assert (Hm' : inject_Z m == 2 * inject_Z T * inject_Z k + inject_Z r).
  { rewrite Hm, inject_Z_plus, !inject_Z_mult. reflexivity. }
  assert (Hr0 : 0 <= inject_Z r)
    by (change 0 with (inject_Z 0); rewrite <- Zle_Qle; lia).
  assert (Hr1 : inject_Z r < 2 * inject_Z T).
  { change 2 with (inject_Z 2). rewrite <- inject_Z_mult, <- Zlt_Qlt. lia. }
  assert (Hk1 : inject_Z k <= x + (1 # 2)).
  { destruct (Qlt_le_dec (x + (1 # 2)) (inject_Z k)) as [C | C]; [|exact C].
    exfalso.
    assert ((x + (1 # 2)) * (2 * inject_Z T) < inject_Z k * (2 * inject_Z T))
      by (apply Qmult_lt_compat_r; lra).
    lra. }
  assert (Hk2 : x + (1 # 2) < inject_Z k + 1).
  { destruct (Qlt_le_dec (x + (1 # 2)) (inject_Z k + 1)) as [C | C]; [exact C|].
    exfalso.
    assert ((inject_Z k + 1) * (2 * inject_Z T) <= (x + (1 # 2)) * (2 * inject_Z T))
      by (apply Qmult_le_compat_r; lra).
    lra. }
  assert (Hx0 : 0 <= x).
  { subst x. apply Qmult_le_0_compat.
    - apply Qle_shift_div_l; [assumption|]. rewrite Qmult_0_l.
      change 0 with (inject_Z 0). rewrite <- Zle_Qle. lia.
    - change 0 with (inject_Z 0). rewrite <- Zle_Qle. lia. }
  unfold Double.cround. rewrite (proj2 (Qle_bool_iff _ _) Hx0), Qfloor_Z.
  now apply Qfloor_unique.
Qed.

(** Away from an exact tie, and for totals up to [2 ^ 19], the share the
    program computes is the exact proportion rounded to nearest. *)
Lemma rounded_share_exact (a T E : Z) :
  (0 <= a <= T)%Z -> (0 < T <= 2 ^ 19)%Z -> (0 <= E <= Int.INT_MAX)%Z ->
  ((2 * a * E + T) mod (2 * T) <> 0)%Z ->
  rounded_share a T E = ((2 * a * E + T) / (2 * T))%Z.
Proof.
  intros Ha [HT HT19] HE Htie.
  rewrite (rounded_share_floor a T E Ha HT HE).
  destruct (share_error a T E Ha HT HE) as (_ & _ & Hlo & Hhi).
  set (p := Double.mul (Double.div (inject_Z a) (inject_Z T)) (inject_Z E)) in *.
  set (x := inject_Z a / inject_Z T * inject_Z E) in *.
  pose proof (exact_half_times a T E HT) as Hx. fold x in Hx.
  assert (HTq : 0 < inject_Z T)
    by (change 0 with (inject_Z 0); now rewrite <- Zlt_Qlt).
  assert (HTq19 : inject_Z T <= 524288 # 1).
  { change (524288 # 1) with (inject_Z (2 ^ 19)). now rewrite <- Zle_Qle. }
  set (m := (2 * a * E + T)%Z) in *.
  pose proof (Z.div_mod m (2 * T) ltac:(lia)) as Hm.
  pose proof (Z.mod_pos_bound m (2 * T) ltac:(lia)) as Hr.
  set (k := (m / (2 * T))%Z) in *. set (r := (m mod (2 * T))%Z) in *.
  assert (Hm' : inject_Z m == 2 * inject_Z T * inject_Z k + inject_Z r).
  { rewrite Hm, inject_Z_plus, !inject_Z_mult. reflexivity. }
  assert (Hr0 : 1 <= inject_Z r)
    by (change 1 with (inject_Z 1); rewrite <- Zle_Qle; lia).
  assert (Hr1 : inject_Z r + 1 <= 2 * inject_Z T).
  { change 2 with (inject_Z 2). change 1 with (inject_Z 1).
    rewrite <- inject_Z_mult, <- inject_Z_plus, <- Zle_Qle. lia. }
  destruct (Qmult_bound (p - x) (3 # 4194304) (2 * inject_Z T) (1048576 # 1))
    as [B1 B2]; [split; lra | split; lra |].
  apply Qfloor_unique.
  - destruct (Qlt_le_dec (p + (1 # 2)) (inject_Z k)) as [C | C]; [|exact C].
    exfalso.
    assert ((p + (1 # 2)) * (2 * inject_Z T) < inject_Z k * (2 * inject_Z T))
      by (apply Qmult_lt_compat_r; lra).
    lra.
  - destruct (Qlt_le_dec (p + (1 # 2)) (inject_Z k + 1)) as [C | C]; [exact C|].
    exfalso.
    assert ((inject_Z k + 1) * (2 * inject_Z T) <= (p + (1 # 2)) * (2 * inject_Z T))
      by (apply Qmult_le_compat_r; lra).
    lra.
Qed.

End ShareExact.

(** ** The share against the exact proportion *)

Section ShareNearest.
Local Open Scope Q_scope.

Lemma Qmult_unit_bound (u e : Q) :
  - 1 <= u <= 1 -> 0 <= e -> - e <= u * e <= e.
Proof.
  intros [L U] He.
  assert (A : u * e <= 1 * e) by (apply Qmult_le_compat_r; assumption).
  assert (B : (- 1) * e <= u * e) by (apply Qmult_le_compat_r; assumption).
  split; lra.
Qed.

(** The two roundings together move the product by at most
    [E * 2 ^ -51]. *)
Lemma share_error_sharp (a T E : Z) :
  (0 <= a <= T)%Z -> (0 < T)%Z -> (0 <= E <= Int.INT_MAX)%Z ->
  let p := Double.mul (Double.div (inject_Z a) (inject_Z T)) (inject_Z E) in
  let x := inject_Z a / inject_Z T * inject_Z E in
  - inject_Z E <= (p - x) * inject_Z (2 ^ 51) <= inject_Z E.
Proof.
  intros Ha HT HE p x.
  destruct (share_error a T E Ha HT HE) as (Hp0 & Hp1 & _). fold p in Hp0, Hp1.
  assert (HTq : 0 < inject_Z T)
    by (change 0 with (inject_Z 0); now rewrite <- Zlt_Qlt).
  destruct (Z.eq_dec E 0) as [-> | HE0].
  { assert (X : x == 0) by (unfold x; change (inject_Z 0) with 0; field; lra).
    change (inject_Z 0) with 0 in *. rewrite X.
    assert (P : p == 0) by lra. rewrite P. split; lra. }
  assert (Hq0 : 0 <= inject_Z a / inject_Z T).
  { apply Qle_shift_div_l; [assumption|]. rewrite Qmult_0_l.
    change 0 with (inject_Z 0). rewrite <- Zle_Qle. lia. }
  assert (Hq1 : inject_Z a / inject_Z T <= inject_Z 1).
  { apply Qle_shift_div_r; [assumption|]. change (inject_Z 1) with 1.
    rewrite Qmult_1_l. rewrite <- Zle_Qle. lia. }
  destruct (round_bounds _ 1 Hq0 Hq1) as [Hr0 Hr1]; [unfold Int.INT_MAX; lia|].
  pose proof (round_error _ 1 0 Hq0 Hq1) as Eq.
  change (Z.log2 1) with 0%Z in Eq. specialize (Eq ltac:(lia) ltac:(lia)).
  change (52 - 0)%Z with 52%Z in Eq.
  fold (Double.div (inject_Z a) (inject_Z T)) in Hr0, Hr1, Eq.
  set (q := inject_Z a / inject_Z T) in *.
  set (q' := Double.div (inject_Z a) (inject_Z T)) in *.
  change (inject_Z 1) with 1 in Hr1.
  assert (He0 : 0 <= inject_Z E)
    by (change 0 with (inject_Z 0); rewrite <- Zle_Qle; lia).
  assert (Hy0 : 0 <= q' * inject_Z E) by (apply Qmult_le_0_compat; assumption).
  assert (Hy1 : q' * inject_Z E <= inject_Z E).
  { rewrite <- (Qmult_1_l (inject_Z E)) at 2.
    apply Qmult_le_compat_r; assumption. }
  set (m := Z.log2 E).
  assert (Hm : (0 <= m <= 30)%Z).
  { split; [apply Z.log2_nonneg|].
    assert (Z.log2 E < 31)%Z; [|lia].
    apply Z.log2_lt_pow2; [lia|]. unfold Int.INT_MAX in HE. lia. }
  assert (Hpow : (2 ^ m <= E)%Z) by (apply Z.log2_spec; lia).
  pose proof (round_error _ E m Hy0 Hy1 (Z.le_refl _) ltac:(lia)) as Ep.
  fold (Double.mul q' (inject_Z E)) in Ep. fold p in Ep.
  assert (S52 : (2 ^ 52 = 2 ^ (52 - m) * 2 ^ m)%Z).
  { rewrite <- Z.pow_add_r by lia. f_equal. lia. }
  assert (S51 : (2 ^ 52 = 2 * 2 ^ 51)%Z) by reflexivity.
  assert (Hmq : 0 <= inject_Z (2 ^ m)).
  { change 0 with (inject_Z 0). rewrite <- Zle_Qle.
    apply Z.pow_nonneg. lia. }
  assert (Hme : inject_Z (2 ^ m) <= inject_Z E) by now rewrite <- Zle_Qle.
  pose proof (Qmult_unit_bound _ _ Ep Hmq) as B1.
  pose proof (Qmult_unit_bound _ _ Eq He0) as B2.
  assert (D : (p - x) * (2 * inject_Z (2 ^ 51))
              == (p - q' * inject_Z E) * inject_Z (2 ^ (52 - m))
                 * inject_Z (2 ^ m)
                 + (q' - q) * inject_Z (2 ^ 52) * inject_Z E).
  { change 2 with (inject_Z 2). rewrite <- inject_Z_mult, <- S51.
    rewrite <- (Qmult_assoc _ (inject_Z (2 ^ (52 - m)))).
    rewrite <- inject_Z_mult, <- S52. unfold x. ring. }
  split; lra.
Qed.

Lemma rounds_to_iff (x : Q) (n : Z) :
  rounds_to x n <-> - (1 # 2) <= x - inject_Z n <= 1 # 2.
Proof. unfold rounds_to. apply Qabs_Qle_condition. Qed.

(** While [budget * total] stays below [2 ^ 50] the share the program
    computes is the exact proportion rounded to an integer. *)
Lemma rounded_share_nearest (a T E : Z) :
  (0 <= a <= T)%Z -> (0 < T)%Z -> (0 <= E <= Int.INT_MAX)%Z ->
  (E * T < 2 ^ 50)%Z ->
  rounds_to (proportion a T E) (rounded_share a T E).
Proof.
  intros Ha HT HE Hsmall.
  rewrite (rounded_share_floor a T E Ha HT HE).
  pose proof (share_error_sharp a T E Ha HT HE) as [Dlo Dhi].
  unfold proportion.
  set (p := Double.mul (Double.div (inject_Z a) (inject_Z T)) (inject_Z E)) in *.
  set (x := inject_Z a / inject_Z T * inject_Z E) in *.
  pose proof (exact_times a T E HT) as Hx. fold x in Hx.
  pose proof (Qfloor_le (p + (1 # 2))) as F1.
  pose proof (Qlt_floor (p + (1 # 2))) as F2.
  rewrite inject_Z_plus in F2. change (inject_Z 1) with 1 in F2.
  set (s := Qfloor (p + (1 # 2))) in *.
  assert (HTq : 0 < inject_Z T)
    by (change 0 with (inject_Z 0); now rewrite <- Zlt_Qlt).
  assert (Hsm : inject_Z E * inject_Z T + 1 <= inject_Z (2 ^ 50)).
  { change 1 with (inject_Z 1).
    rewrite <- inject_Z_mult, <- inject_Z_plus, <- Zle_Qle. lia. }
  assert (K : inject_Z (2 ^ 51) == 2 * inject_Z (2 ^ 50)) by reflexivity.
  set (t := inject_Z T) in *. set (e := inject_Z E) in *.
  set (d := p - x) in *.
  (* [2 * t * d] is less than one in absolute value *)
  assert (T1 : d * inject_Z (2 ^ 51) * t <= e * t)
    by (apply Qmult_le_compat_r; lra).
  assert (T2 : (- e) * t <= d * inject_Z (2 ^ 51) * t)
    by (apply Qmult_le_compat_r; lra).
  assert (P50 : 0 < inject_Z (2 ^ 50)) by reflexivity.
  assert (U : 2 * (d * t) * inject_Z (2 ^ 50) <= inject_Z (2 ^ 50) - 1).
  { rewrite K in T1. lra. }
  assert (L : - (inject_Z (2 ^ 50) - 1) <= 2 * (d * t) * inject_Z (2 ^ 50)).
  { rewrite K in T2. lra. }
  assert (U' : 2 * (d * t) < 1).
  { destruct (Qlt_le_dec (2 * (d * t)) 1) as [C | C]; [exact C | exfalso].
    assert (1 * inject_Z (2 ^ 50) <= 2 * (d * t) * inject_Z (2 ^ 50))
      by (apply Qmult_le_compat_r; lra).
    lra. }
  assert (L' : - 1 < 2 * (d * t)).
  { destruct (Qlt_le_dec (- 1) (2 * (d * t))) as [C | C]; [exact C | exfalso].
    assert (2 * (d * t) * inject_Z (2 ^ 50) <= (- 1) * inject_Z (2 ^ 50))
      by (apply Qmult_le_compat_r; lra).
    lra. }
  (* the bracket of [s], scaled by [2 * t], among integers *)
  assert (S1 : inject_Z s * t <= (x + d + (1 # 2)) * t)
    by (apply Qmult_le_compat_r; unfold d; lra).
  assert (S2 : (x + d + (1 # 2)) * t < (inject_Z s + 1) * t)
    by (apply Qmult_lt_compat_r; unfold d; lra).
  set (n := (a * E)%Z) in *.
  assert (Z1 : (2 * (s * T) < 2 * n + T + 1)%Z).
  { rewrite Zlt_Qlt, !inject_Z_plus, !inject_Z_mult.
    change (inject_Z 2) with 2. change (inject_Z 1) with 1. fold t. lra. }
  assert (Z2 : (2 * n + T - 1 < 2 * ((s + 1) * T))%Z).
  { rewrite Zlt_Qlt. unfold Z.sub.
    rewrite !inject_Z_plus, inject_Z_opp, !inject_Z_mult, inject_Z_plus.
    change (inject_Z 2) with 2. change (inject_Z 1) with 1. fold t. lra. }
  apply rounds_to_iff.
  assert (G1 : inject_Z (2 * (s * T)) <= inject_Z (2 * n + T))
    by (rewrite <- Zle_Qle; lia).
  assert (G2 : inject_Z (2 * n + - T) <= inject_Z (2 * (s * T)))
    by (rewrite <- Zle_Qle; lia).
  rewrite !inject_Z_plus, !inject_Z_mult in G1, G2.
  rewrite inject_Z_opp in G2.
  change (inject_Z 2) with 2 in G1, G2. fold t in G1, G2.
  split.
  - destruct (Qlt_le_dec (x - inject_Z s) (- (1 # 2))) as [C | C];
      [exfalso | exact C].
    assert ((x - inject_Z s) * t < - (1 # 2) * t)
      by (apply Qmult_lt_compat_r; lra).
    lra.
  - destruct (Qlt_le_dec (1 # 2) (x - inject_Z s)) as [C | C];
      [exfalso | exact C].
    assert ((1 # 2) * t < (x - inject_Z s) * t)
      by (apply Qmult_lt_compat_r; lra).
    lra.
Qed.

(** Away from the halfway cases the rounded value is the one both
    variants of standard rounding give. *)
Lemma rounds_to_unique (x : Q) (n : Z) :
  0 <= x -> rounds_to x n -> ~ halfway x ->
  n = round_half_away_from_zero x /\ n = round_half_to_even x.
Proof.
  intros H0 Hn Hh. apply rounds_to_iff in Hn. destruct Hn as [N1 N2].
  unfold halfway in Hh.
  pose proof (Qfloor_le x) as F1. pose proof (Qlt_floor x) as F2.
  rewrite inject_Z_plus in F2. change (inject_Z 1) with 1 in F2.
  unfold round_half_away_from_zero, round_half_to_even.
  assert (C0 : Qcompare x 0 <> Lt).
  { intros C. apply Qlt_alt in C. lra. }
  set (f := Qfloor x) in *.
  assert (Hlt : forall u v : Z, inject_Z u < inject_Z v + 1 -> (u <= v)%Z).
  { intros u v H. change 1 with (inject_Z 1) in H.
    rewrite <- inject_Z_plus, <- Zlt_Qlt in H. lia. }
  destruct (Qcompare_spec (x - inject_Z f) (1 # 2)) as [E | L | G].
  - contradiction.
  - assert (n = f).
    { apply Z.le_antisymm.
      - apply Hlt. lra.
      - apply Hlt. lra. }
    subst n. split.
    + destruct (Qcompare x 0); try contradiction;
        symmetry; apply Qfloor_unique; fold f; lra.
    + rewrite inject_Z_plus. change (inject_Z 1) with 1.
      destruct (Qcompare_spec (x - inject_Z f) (inject_Z f + 1 - x));
        [exfalso; lra | reflexivity | exfalso; lra].
  - assert (n = (f + 1)%Z).
    { apply Z.le_antisymm.
      - apply Hlt. rewrite inject_Z_plus. change (inject_Z 1) with 1. lra.
      - assert (f <= n - 1)%Z; [|lia]. apply Hlt. unfold Z.sub.
        rewrite inject_Z_plus. change (inject_Z (- (1))) with (- 1). lra. }
    subst n. split.
    + destruct (Qcompare x 0); try contradiction;
        symmetry; apply Qfloor_unique; rewrite inject_Z_plus;
        change (inject_Z 1) with 1; fold f; lra.
    + rewrite inject_Z_plus. change (inject_Z 1) with 1.
      destruct (Qcompare_spec (x - inject_Z f) (inject_Z f + 1 - x));
        [exfalso; lra | exfalso; lra | reflexivity].
Qed.

Lemma proportion_nonneg (a T E : Z) :
  (0 <= a)%Z -> (0 < T)%Z -> (0 <= E)%Z -> 0 <= proportion a T E.
Proof.
  intros Ha HT HE. unfold proportion.
  apply Qmult_le_0_compat.
  - apply Qle_shift_div_l.
    + change 0 with (inject_Z 0). now rewrite <- Zlt_Qlt.
    + rewrite Qmult_0_l. change 0 with (inject_Z 0). now rewrite <- Zle_Qle.
  - change 0 with (inject_Z 0). now rewrite <- Zle_Qle.
Qed.

End ShareNearest.

(** C2.  For non-negative densities with a positive sum and bounds
    [max_green >= min_green >= 0], with [(max_green - min_green) * total]
    below [2 ^ 50], the allocator is defined and gives each direction
    [min_green] plus the proportion [(density / total) * (max_green -
    min_green)] rounded to an integer, which the clamp to [[min_green,
    max_green]] leaves as it is: no integer is nearer to the proportion,
    and unless the proportion lies halfway between two integers the
    share is the one both variants of standard rounding give.  Halfway,
    it is one of the two neighbours.  And
    [allocate(100, 0, 5, 40) = (40, 5)]. *)
Theorem allocation_is_proportional (a b : Z) (s : Sim) :
  well_configured (ctl s) -> non_negative a b -> 0 < a + b ->
  let lo := min_green (ctl s) in
  let hi := max_green (ctl s) in
  (hi - lo) * (a + b) < 2 ^ 50 ->
  (exists s' share_ns share_ew,
     compute_and_set_green a b s = Some (tt, s') /\
     green_duration (ns (ctl s')) = clamped (lo + share_ns) lo hi /\
     green_duration (ew (ctl s')) = clamped (lo + share_ew) lo hi /\
     clamped (lo + share_ns) lo hi = lo + share_ns /\
     clamped (lo + share_ew) lo hi = lo + share_ew /\
     rounds_to (proportion a (a + b) (hi - lo)) share_ns /\
     rounds_to (proportion b (a + b) (hi - lo)) share_ew /\
     (~ halfway (proportion a (a + b) (hi - lo)) ->
      share_ns = round_half_away_from_zero (proportion a (a + b) (hi - lo)) /\
      share_ns = round_half_to_even (proportion a (a + b) (hi - lo))) /\
     (~ halfway (proportion b (a + b) (hi - lo)) ->
      share_ew = round_half_away_from_zero (proportion b (a + b) (hi - lo)) /\
      share_ew = round_half_to_even (proportion b (a + b) (hi - lo)))) /\
  allocate 100 0 5 40 = Some (40, 5).
Proof.
  intros Hc Hd Hp lo hi Hsmall. split; [|vm_compute; reflexivity].
  destruct (compute_and_set_green_well_formed a b s Hc Hd Hp) as (E & Bn & Bw).
  fold lo hi in E, Bn, Bw.
  pose proof Hc as (Hlo & Hle & Hhi). fold lo hi in Hlo, Hle, Hhi.
  pose proof Hd as [Ha Hb].
  assert (Rn : rounds_to (proportion a (a + b) (hi - lo))
                 (rounded_share a (a + b) (hi - lo)))
    by (apply rounded_share_nearest; lia).
  assert (Rw : rounds_to (proportion b (a + b) (hi - lo))
                 (rounded_share b (a + b) (hi - lo)))
    by (apply rounded_share_nearest; lia).
  eexists _, (rounded_share a (a + b) (hi - lo)),
    (rounded_share b (a + b) (hi - lo)).
  split; [exact E|].
  cbn [ctl advanced proportional_ctl update_light ns ew green_duration
       with_green_duration with_yellow_duration].
  unfold clamped. repeat split; try lia; try assumption.
  - apply rounds_to_unique; try assumption. apply proportion_nonneg; lia.
  - apply rounds_to_unique; try assumption. apply proportion_nonneg; lia.
  - apply rounds_to_unique; try assumption. apply proportion_nonneg; lia.
  - apply rounds_to_unique; try assumption. apply proportion_nonneg; lia.
Qed.

Lemma allocation_is_proportional_witness :
  (exists s' share_ns share_ew,
     compute_and_set_green 20 60 (start sample_controller sample_clock)
     = Some (tt, s') /\
     green_duration (ns (ctl s')) = clamped (5 + share_ns) 5 40 /\
     green_duration (ew (ctl s')) = clamped (5 + share_ew) 5 40 /\
     clamped (5 + share_ns) 5 40 = 5 + share_ns /\
     clamped (5 + share_ew) 5 40 = 5 + share_ew /\
     rounds_to (proportion 20 (20 + 60) (40 - 5)) share_ns /\
     rounds_to (proportion 60 (20 + 60) (40 - 5)) share_ew /\
     (~ halfway (proportion 20 (20 + 60) (40 - 5)) ->
      share_ns
      = round_half_away_from_zero (proportion 20 (20 + 60) (40 - 5)) /\
      share_ns = round_half_to_even (proportion 20 (20 + 60) (40 - 5))) /\
     (~ halfway (proportion 60 (20 + 60) (40 - 5)) ->
      share_ew
      = round_half_away_from_zero (proportion 60 (20 + 60) (40 - 5)) /\
      share_ew = round_half_to_even (proportion 60 (20 + 60) (40 - 5)))) /\
  allocate 100 0 5 40 = Some (40, 5).
Proof.
  apply (allocation_is_proportional 20 60 (start sample_controller sample_clock)).
  - unfold well_configured, Int.INT_MAX. cbn. lia.
  - unfold non_negative, Int.INT_MAX. lia.
  - lia.
  - cbn. lia.
Defined.

(** The claim as the specification words it fails where the proportion
    lies halfway: 47/70 of 35 is 23.5, which either variant of standard
    rounding takes to 24, and the program to 23. *)
Lemma allocation_misses_halfway_share :
  non_negative 23 47 /\ 0 < 23 + 47 /\ 0 <= 5 <= 40 /\
  halfway (proportion 47 (23 + 47) (40 - 5)) /\
  allocate 23 47 5 40 = Some (17, 28) /\
  clamped (5 + round_half_away_from_zero (proportion 47 (23 + 47) (40 - 5)))
    5 40 = 29 /\
  clamped (5 + round_half_to_even (proportion 47 (23 + 47) (40 - 5)))
    5 40 = 29 /\
  allocate 23 47 5 40
  <> Some (clamped (5 + round_half_away_from_zero
                          (proportion 23 (23 + 47) (40 - 5))) 5 40,
           clamped (5 + round_half_away_from_zero
                          (proportion 47 (23 + 47) (40 - 5))) 5 40) /\
  allocate 23 47 5 40
  <> Some (clamped (5 + round_half_to_even
                          (proportion 23 (23 + 47) (40 - 5))) 5 40,
           clamped (5 + round_half_to_even
                          (proportion 47 (23 + 47) (40 - 5))) 5 40).
Proof.
  split; [unfold non_negative, Int.INT_MAX; lia|].
  split; [lia|]. split; [lia|].
  split; [reflexivity|].
  split; [vm_compute; reflexivity|].
  split; [vm_compute; reflexivity|].
  split; [vm_compute; reflexivity|].
  split; intros H; vm_compute in H; discriminate H.
Qed.

(** Where [(max_green - min_green) * total] is large the double
    evaluation can miss the nearest integer away from the halfway cases
    too. *)
Lemma allocation_misses_nearest_share :
  allocate 1385991612 106898047 0 Int.INT_MAX
  = Some (1993713537, 153770111) /\
  ~ halfway (proportion 1385991612 (1385991612 + 106898047) (Int.INT_MAX - 0)) /\
  round_half_away_from_zero
    (proportion 1385991612 (1385991612 + 106898047) (Int.INT_MAX - 0))
  = 1993713536 /\
  ~ rounds_to
      (proportion 1385991612 (1385991612 + 106898047) (Int.INT_MAX - 0))
      1993713537.
Proof.
  split; [vm_compute; reflexivity|].
  split; [intros H; vm_compute in H; discriminate H|].
  split; [vm_compute; reflexivity|].
  intros H. vm_compute in H. apply H. reflexivity.
Qed.

(** ** The allocator as a function *)

Lemma allocate_well_formed (a b lo hi : Z) :
  0 <= lo -> lo <= hi -> hi <= Int.INT_MAX -> non_negative a b -> 0 < a + b ->
  allocate a b lo hi
  = Some (lo + rounded_share a (a + b) (hi - lo),
          lo + rounded_share b (a + b) (hi - lo)).
Proof.
  intros H0 Hle Hmax Hd Hp. unfold allocate.
  set (s := start _ _).
  assert (Hc : well_configured (ctl s)) by (repeat split; assumption).
  destruct (compute_and_set_green_well_formed a b s Hc Hd Hp) as (E & _).
  rewrite E. reflexivity.
Qed.

Lemma allocate_some (a b lo hi g1 g2 : Z) :
  allocate a b lo hi = Some (g1, g2) <->
  exists c1 h,
    allocated a b (new_IntersectionController lo hi 3 1 5 true) c1 h /\
    green_duration (ns c1) = g1 /\ green_duration (ew c1) = g2.
Proof.
  unfold allocate. set (s := start _ _). split.
  - destruct (compute_and_set_green a b s) as [[[] s']|] eqn:E; [|discriminate].
    intros H. injection H as <- <-.
    apply compute_and_set_green_iff in E. destruct E as (c1 & h & Ha & ->).
    exists c1, h. repeat split. exact Ha.
  - intros (c1 & h & Ha & <- & <-).
    assert (E : compute_and_set_green a b s = Some (tt, advanced s c1 h 0)).
    { apply compute_and_set_green_iff. now exists c1, h. }
    rewrite E. reflexivity.
Qed.

Lemma allocated_swap (a b : Z) c c1 h :
  allocated a b c c1 h ->
  exists c1' h',
    allocated b a c c1' h' /\
    green_duration (ns c1') = green_duration (ew c1) /\
    green_duration (ew c1') = green_duration (ns c1).
Proof.
  intros Ha. destruct Ha as [Hle | extra g1 g2 k1 k2 Hpos He H1 H2 Hk1 Hk2].
  - eexists _, _. split; [apply allocated_minimal; lia|]. split; reflexivity.
  - eexists _, _. split.
    + apply (allocated_proportional b a c extra g2 g1 k2 k1); try assumption.
      * lia.
      * now rewrite (Z.add_comm b a).
      * now rewrite (Z.add_comm b a).
    + split; reflexivity.
Qed.

(** ** [ilog2] is the integer logarithm *)

Lemma pow2_pos (k : Z) : 0 <= k -> 0 < 2 ^ k.
Proof. intros H. apply Z.pow_pos_nonneg; lia. Qed.

Lemma pow2_split (j k : Z) : 0 <= j -> 0 <= k -> 2 ^ (j + k) = 2 ^ j * 2 ^ k.
Proof. intros Hj Hk. apply Z.pow_add_r; assumption. Qed.

(** [2 ^ l <= x], scaled by [2 ^ s] to stay among integers. *)
Lemma ilog2_lower (n : Z) (d : positive) (n_pos : 0 < n) (s : Z) :
  let l := Double.ilog2 (n # d) in
  0 <= s -> 0 <= s + l -> 2 ^ (s + l) * Zpos d <= n * 2 ^ s.
Proof.
  intros l Hs Hsl. subst l. unfold Double.ilog2 in *. cbn [Qnum Qden] in *.
  destruct (Z.log2_spec n n_pos) as [N1 N2].
  destruct (Z.log2_spec (Zpos d) ltac:(lia)) as [D1 D2].
  pose proof (Z.log2_nonneg n) as Ln. pose proof (Z.log2_nonneg (Zpos d)) as Ld.
  set (ln := Z.log2 n) in *. set (ld := Z.log2 (Zpos d)) in *.
  pose proof (pow2_pos s Hs) as Ps.
  destruct (Z.leb_spec 0 (ln - ld)) as [L0 | L0].
  - destruct (Z.leb_spec (2 ^ (ln - ld) * Zpos d) n) as [A | A].
    + rewrite pow2_split by lia. nia.
    + (* l = ln - ld - 1 *)
      assert (E : s + (ln - ld - 1) + (ld + 1) = s + ln) by lia.
      assert (2 ^ (s + (ln - ld - 1)) * 2 ^ (ld + 1) = 2 ^ s * 2 ^ ln).
      { rewrite <- !pow2_split by lia. now rewrite E. }
      pose proof (pow2_pos (s + (ln - ld - 1)) Hsl). nia.
  - destruct (Z.leb_spec (Zpos d) (n * 2 ^ (- (ln - ld)))) as [A | A].
    + assert (2 ^ s = 2 ^ (s + (ln - ld)) * 2 ^ (- (ln - ld))).
      { rewrite <- pow2_split by lia. f_equal. lia. }
      pose proof (pow2_pos (s + (ln - ld)) Hsl). nia.
    + assert (E : s + (ln - ld - 1) + (ld + 1) = s + ln) by lia.
      assert (2 ^ (s + (ln - ld - 1)) * 2 ^ (ld + 1) = 2 ^ s * 2 ^ ln).
      { rewrite <- !pow2_split by lia. now rewrite E. }
      pose proof (pow2_pos (s + (ln - ld - 1)) Hsl). nia.
Qed.

(** [x < 2 ^ (l + 1)], scaled likewise. *)
Lemma ilog2_upper (n : Z) (d : positive) (n_pos : 0 < n) (s : Z) :
  let l := Double.ilog2 (n # d) in
  0 <= s -> 0 <= s + l + 1 -> n * 2 ^ s < 2 ^ (s + l + 1) * Zpos d.
Proof.
  intros l Hs Hsl. subst l. unfold Double.ilog2 in *. cbn [Qnum Qden] in *.
  destruct (Z.log2_spec n n_pos) as [N1 N2].
  destruct (Z.log2_spec (Zpos d) ltac:(lia)) as [D1 D2].
  pose proof (Z.log2_nonneg n) as Ln. pose proof (Z.log2_nonneg (Zpos d)) as Ld.
  set (ln := Z.log2 n) in *. set (ld := Z.log2 (Zpos d)) in *.
  pose proof (pow2_pos s Hs) as Ps.
  destruct (Z.leb_spec 0 (ln - ld)) as [L0 | L0].
  - destruct (Z.leb_spec (2 ^ (ln - ld) * Zpos d) n) as [A | A].
    + assert (2 ^ (s + (ln - ld) + 1) * 2 ^ ld = 2 ^ s * 2 ^ Z.succ ln).
      { rewrite <- !pow2_split by lia. f_equal. lia. }
      pose proof (pow2_pos (s + (ln - ld) + 1) Hsl). nia.
    + replace (s + (ln - ld - 1) + 1) with (s + (ln - ld)) by lia.
      rewrite pow2_split by lia. nia.
  - destruct (Z.leb_spec (Zpos d) (n * 2 ^ (- (ln - ld)))) as [A | A].
    + assert (2 ^ (s + (ln - ld) + 1) * 2 ^ ld = 2 ^ s * 2 ^ Z.succ ln).
      { rewrite <- !pow2_split by lia. f_equal. lia. }
      pose proof (pow2_pos (s + (ln - ld) + 1) Hsl). nia.
    + replace (s + (ln - ld - 1) + 1) with (s + (ln - ld)) in * by lia.
      assert (2 ^ s = 2 ^ (s + (ln - ld)) * 2 ^ (- (ln - ld))).
      { rewrite <- pow2_split by lia. f_equal. lia. }
      pose proof (pow2_pos (s + (ln - ld)) Hsl). nia.
Qed.

(** ** Rounding to binary64 is monotone *)

Section DoubleMonotone.
Local Open Scope Q_scope.

Lemma round_nearest_even_ge (x : Q) (m : Z) :
  inject_Z m <= x -> (m <= Double.round_nearest_even x)%Z.
Proof.
  intros Hx. unfold Double.round_nearest_even.
  assert (Hf : (m <= Qfloor x)%Z).
  { rewrite <- (Qfloor_Z m). now apply Qfloor_resp_le. }
  destruct (Qcompare _ _); [destruct (Z.even _)| |]; lia.
Qed.

Lemma round_nearest_even_mono (x y : Q) :
  x <= y -> (Double.round_nearest_even x <= Double.round_nearest_even y)%Z.
Proof.
  intros Hxy.
  pose proof (Qfloor_resp_le _ _ Hxy) as Hf.
  destruct (Z.eq_dec (Qfloor x) (Qfloor y)) as [E | E].
  - unfold Double.round_nearest_even. rewrite <- E.
    destruct (Qcompare_spec (x - inject_Z (Qfloor x)) (1 # 2)) as [X | X | X];
      destruct (Qcompare_spec (y - inject_Z (Qfloor x)) (1 # 2)) as [Y | Y | Y];
      try (destruct (Z.even (Qfloor x))); try lia; exfalso; lra.
  - assert (Hx : (Double.round_nearest_even x <= Qfloor x + 1)%Z).
    { unfold Double.round_nearest_even.
      destruct (Qcompare _ _); [destruct (Z.even _)| |]; lia. }
    assert (Hy : (Qfloor y <= Double.round_nearest_even y)%Z).
    { unfold Double.round_nearest_even.
      destruct (Qcompare _ _); [destruct (Z.even _)| |]; lia. }
    lia.
Qed.

Lemma ilog2_mono (x y : Q) :
  0 < x -> x <= y -> (Double.ilog2 x <= Double.ilog2 y)%Z.
Proof.
  destruct x as [nx dx], y as [ny dy]. intros Hx Hxy.
  unfold Qlt, Qle in *. cbn [Qnum Qden] in *.
  assert (Nx : (0 < nx)%Z) by lia.
  assert (Ny : (0 < ny)%Z) by nia.
  destruct (Z_le_gt_dec (Double.ilog2 (nx # dx)) (Double.ilog2 (ny # dy)))
    as [? | G]; [assumption | exfalso].
  set (ly := Double.ilog2 (ny # dy)) in *.
  set (lx := Double.ilog2 (nx # dx)) in *.
  set (s := Z.max 0 (- ly)).
  assert (Hs : (0 <= s)%Z) by lia.
  pose proof (ilog2_lower nx dx Nx s Hs ltac:(fold lx; lia)) as L.
  pose proof (ilog2_upper ny dy Ny s Hs ltac:(fold ly; lia)) as U.
  fold lx in L. fold ly in U.
  assert (P : (2 ^ (s + ly + 1) <= 2 ^ (s + lx))%Z)
    by (apply Z.pow_le_mono_r; lia).
  pose proof (pow2_pos s Hs).
  assert ((2 ^ (s + lx) * Z.pos dx * Z.pos dy <= nx * 2 ^ s * Z.pos dy)%Z) by nia.
  assert ((ny * 2 ^ s * Z.pos dx < 2 ^ (s + ly + 1) * Z.pos dy * Z.pos dx)%Z) by nia.
  assert ((nx * Z.pos dy * 2 ^ s <= ny * Z.pos dx * 2 ^ s)%Z) by nia.
  nia.
Qed.

Lemma Qdiv_le_cross (a b c d : Z) :
  (0 < b)%Z -> (0 < d)%Z -> (a * d <= c * b)%Z ->
  inject_Z a / inject_Z b <= inject_Z c / inject_Z d.
Proof.
  intros Hb Hd H.
  apply Qle_shift_div_l. { change 0 with (inject_Z 0). rewrite <- Zlt_Qlt. lia. }
  unfold Qdiv. rewrite (Qmult_comm (inject_Z a)), <- Qmult_assoc, Qmult_comm.
  apply Qle_shift_div_r. { change 0 with (inject_Z 0). rewrite <- Zlt_Qlt. lia. }
  rewrite <- !inject_Z_mult, <- Zle_Qle. lia.
Qed.

Lemma round_mono (x y : Q) (N : Z) :
  0 <= x -> x <= y -> y <= inject_Z N -> (N <= Int.INT_MAX)%Z ->
  Double.round x <= Double.round y.
Proof.
  intros H0 Hxy HN Hmax.
  assert (H0y : 0 <= y) by lra.
  destruct (Z.eq_dec (Qnum x) 0) as [Z0 | NZ].
  { assert (Hx0 : x <= inject_Z 0).
    { destruct x as [n d]. cbn in Z0. subst n. unfold Qle. cbn. lia. }
    pose proof (round_bounds x 0 H0 Hx0 ltac:(unfold Int.INT_MAX; lia)) as [_ B].
    pose proof (round_bounds y N H0y HN Hmax) as [B' _].
    change (inject_Z 0) with 0 in B. lra. }
  assert (Hxpos : 0 < x).
  { destruct x as [n d]. unfold Qle, Qlt in *. cbn in *. lia. }
  assert (HxN : x <= inject_Z N) by lra.
  pose proof (ilog2_le x N H0 HxN Hmax) as Lx.
  pose proof (ilog2_le y N H0y HN Hmax) as Ly.
  pose proof (ilog2_mono x y Hxpos Hxy) as Lxy.
  unfold Double.round, Double.ulp_exp.
  rewrite !Qabs_nonneg_eq by assumption.
  set (lx := Double.ilog2 x) in *. set (ly := Double.ilog2 y) in *.
  set (ex := Z.max (lx - 52) (- 1074)). set (ey := Z.max (ly - 52) (- 1074)).
  assert (Ex : (ex < 0)%Z) by lia. assert (Ey : (ey < 0)%Z) by lia.
  destruct (Z.leb_spec 0 ex) as [? | _]; [lia|].
  destruct (Z.leb_spec 0 ey) as [? | _]; [lia|].
  pose proof (pow2_pos (- ex) ltac:(lia)) as Kx.
  pose proof (pow2_pos (- ey) ltac:(lia)) as Ky.
  apply Qdiv_le_cross; try assumption.
  destruct (Z.eq_dec ex ey) as [E | E].
  - rewrite E in *.
    assert (x * inject_Z (2 ^ (- ey)) <= y * inject_Z (2 ^ (- ey))).
    { apply Qmult_le_compat_r; [assumption|].
      change 0 with (inject_Z 0). rewrite <- Zle_Qle. lia. }
    pose proof (round_nearest_even_mono _ _ H). nia.
  - assert (Ey' : ey = (ly - 52)%Z) by lia.
    assert (Lt : (lx + 1 <= ly)%Z) by lia.
    assert (Ypos : 0 < y) by lra.
    (* the larger one is at least [2 ^ ly], the smaller one below it *)
    assert (S1 : (2 ^ 52 <=
       Double.round_nearest_even (y * inject_Z (2 ^ (- ey))))%Z).
    { apply round_nearest_even_ge.
      destruct y as [ny dy]. unfold Qlt in Ypos. cbn in Ypos.
      pose proof (ilog2_lower ny dy ltac:(lia) (- ey) ltac:(lia)
                    ltac:(fold ly; lia)) as L.
      fold ly in L. replace (- ey + ly)%Z with 52%Z in L by lia.
      unfold Qle. cbn [Qnum Qden Qmult inject_Z].
      rewrite !Pos.mul_1_r, !Z.mul_1_r. exact L. }
    assert (S2 : (Double.round_nearest_even (x * inject_Z (2 ^ (- ex)))
                  <= 2 ^ (52 + ey - ex))%Z).
    { apply round_nearest_even_le.
      destruct x as [nx dx]. unfold Qlt in Hxpos. cbn in Hxpos.
      assert (Nx : (0 < nx)%Z) by lia.
      unfold Qle. cbn [Qnum Qden Qmult inject_Z].
      rewrite !Pos.mul_1_r, !Z.mul_1_r.
      destruct (Z_le_gt_dec 0 (- ex + lx + 1)) as [P | P].
      - pose proof (ilog2_upper nx dx Nx (- ex) ltac:(lia)
                      ltac:(fold lx; lia)) as U.
        fold lx in U.
        assert ((2 ^ (- ex + lx + 1) <= 2 ^ (52 + ey - ex))%Z)
          by (apply Z.pow_le_mono_r; lia).
        nia.
      - pose proof (ilog2_upper nx dx Nx (- (lx + 1)) ltac:(lia)
                      ltac:(fold lx; lia)) as U.
        fold lx in U. replace (- (lx + 1) + lx + 1)%Z with 0%Z in U by lia.
        assert ((2 ^ (- ex) <= 2 ^ (- (lx + 1)))%Z)
          by (apply Z.pow_le_mono_r; lia).
        pose proof (pow2_pos (52 + ey - ex) ltac:(lia)).
        change (2 ^ 0)%Z with 1%Z in U. nia. }
    assert (A : (2 ^ (52 + ey - ex) * 2 ^ (- ey) = 2 ^ 52 * 2 ^ (- ex))%Z).
    { rewrite <- !pow2_split by lia. f_equal. lia. }
    nia.
Qed.

End DoubleMonotone.

(** ** Sleeping *)

Lemma sleeps_cycle_events_fast k clk reads c c1 h a b :
  allocated a b c c1 h -> realtime_delay c = false ->
  sleeps (cycle_events k clk reads c c1 h) = [].
Proof.
  intros Ha Hrt.
  destruct (allocated_frame _ _ _ _ _ Ha) as [(Hcfg & _) _].
  assert (Hs : sleeps h = []) by (destruct Ha; reflexivity).
  assert (Hrt1 : realtime_delay c1 = false).
  { unfold configuration in Hcfg. injection Hcfg as _ _ _ _ _ ->. exact Hrt. }
  unfold cycle_events, run_phase_events. cbv zeta.
  rewrite !sleeps_app, Hs, !sleeps_phase.
  cbn [phase_ctl update_light realtime_delay]. rewrite Hrt1. reflexivity.
Qed.

Lemma total_app l1 l2 : total (l1 ++ l2) = total l1 + total l2.
Proof.
  unfold total. induction l1 as [| x l1 IH]; cbn; [reflexivity|].
  rewrite IH. lia.
Qed.

Lemma cycle_sleeps_positive g_ns g_ew yellow allred :
  0 < g_ns -> 0 < g_ew -> 0 < yellow -> 0 < allred ->
  cycle_sleeps true g_ns g_ew yellow allred
  = [g_ns; yellow; allred; g_ew; yellow; allred].
Proof.
  intros H1 H2 H3 H4. unfold cycle_sleeps. cbn [filter].
  rewrite !(proj2 (Z.ltb_lt _ _)) by assumption. reflexivity.
Qed.

(** ** What a run never touches *)

Lemma untouched_refl c : untouched c c.
Proof. repeat split. Qed.

Lemma untouched_stable c0 : phase_stable (untouched c0).
Proof. intros r st c H. destruct r; exact H. Qed.

Lemma allocated_untouched a b c0 c c1 h :
  allocated a b c c1 h -> untouched c0 c ->
  untouched c0 c1 /\ Forall (untouched c0) (snapshots h).
Proof.
  intros Ha H. destruct Ha; (split; [exact H|]); cbn [snapshots map snd];
    repeat (apply Forall_cons; [exact H|]); apply Forall_nil.
Qed.

Lemma reachable_untouched D c0 clk s :
  reachable D c0 clk s -> always (untouched c0) s.
Proof.
  induction 1 as [| s text u s' _ IH E | s a b k [] s' _ IH _ E
                   | s t s' _ IH E].
  - split; [apply untouched_refl | constructor].
  - eapply print_always; eassumption.
  - eapply cycle_always; [apply untouched_stable | | exact IH | exact E].
    intros c1 h Ha. apply (allocated_untouched _ _ _ _ _ _ Ha). apply IH.
  - unfold read_clock in E. injection E as _ <-. exact IH.
Qed.

(** ** The clock *)

Lemma emit_timestamped s0 s e u s' :
  timestamped s0 s -> emit (Print e) s = Some (u, s') -> timestamped s0 s'.
Proof.
  unfold timestamped. intros H E. rewrite emit_eq in E. injection E as _ <-.
  cbn [clock_reads hist advanced]. rewrite transitions_app, length_app.
  cbn. lia.
Qed.

Lemma cycle_timestamped s0 a b k s u s' :
  timestamped s0 s -> cycle a b k s = Some (u, s') -> timestamped s0 s'.
Proof.
  unfold timestamped. intros H E. destruct u. apply cycle_iff in E.
  destruct E as (c1 & h & Ha & ->). cbn [clock_reads hist advanced].
  rewrite transitions_app, length_app.
  rewrite (transitions_cycle_events _ _ _ _ _ _ _ _ Ha). cbn. lia.
Qed.

Lemma simulate_timestamped s0 a b s u s' :
  timestamped s0 s -> simulate_with_inputs a b s = Some (u, s') ->
  timestamped s0 s'.
Proof.
  intros H. unfold simulate_with_inputs.
  unfold bind at 1, member. unfold bind at 1.
  destruct (emit _ s) as [[u1 s1]|] eqn:E; [|discriminate].
  apply (for_int_invariant (timestamped s0)).
  - intros k x v x' Hx Hk. eapply cycle_timestamped; eassumption.
  - eapply emit_timestamped; eassumption.
Qed.

Lemma random_rounds_timestamped s0 dist n k s u s' :
  timestamped s0 s -> for_int n k (random_round dist) s = Some (u, s') ->
  timestamped s0 s'.
Proof.
  apply (for_int_invariant (timestamped s0)).
  intros j x v x' Hx Hk. unfold random_round in Hk.
  unfold bind at 1, defined in Hk.
  destruct (Int.add j 1) as [j'|]; [|discriminate].
  unfold bind at 1 in Hk.
  destruct (emit _ x) as [[u1 x1]|] eqn:Ex; [|discriminate].
  eapply simulate_timestamped; [|exact Hk].
  eapply emit_timestamped; eassumption.
Qed.

Lemma main_clock_reads N mode rt a b dist clk u s :
  main N mode rt a b dist clk = Some (u, s) ->
  clock_reads s
  = (List.length (transitions (hist s)) + if (mode =? 1)%Z then 0 else 1)%nat.
Proof.
  unfold main. set (c0 := new_IntersectionController 5 40 3 1 N rt).
  unfold bind at 1.
  destruct (mode =? 1).
  - destruct (simulate_with_inputs a b (start c0 clk)) as [[[] s1]|] eqn:E;
      [|discriminate].
    intros H.
    assert (T : timestamped (start c0 clk) s).
    { eapply emit_timestamped; [|exact H].
      eapply simulate_timestamped; [|exact E]. reflexivity. }
    unfold timestamped in T. cbn in T. lia.
  - unfold bind at 1. rewrite seed_rng_eq.
    destruct (for_int (Z.to_nat N) 0 (random_round dist)
                (seeded (start c0 clk)))
      as [[[] s1]|] eqn:E; [|discriminate].
    intros H.
    assert (T : timestamped (seeded (start c0 clk)) s).
    { eapply emit_timestamped; [|exact H].
      eapply random_rounds_timestamped; [|exact E]. reflexivity. }
    unfold timestamped in T. cbn in T. lia.
Qed.

(** ** The loop of [simulate_with_inputs] *)



(** A loop that would count past [INT_MAX] has no defined outcome. *)
Lemma for_int_overflow (body : Z -> Proc unit) n :
  forall k s,
    (0 < n)%nat -> Int.INT_MAX < k + Z.of_nat n ->
    for_int n k body s = None.
Proof.
  induction n as [| n IH]; intros k s Hn Hk; [lia|].
  cbn [for_int]. unfold bind at 1.
  destruct (body k s) as [[[] s1]|]; [|reflexivity].
  unfold bind at 1, defined. unfold Int.add, Int.checked, Int.in_rangeb.
  destruct (Z.leb_spec (k + 1) Int.INT_MAX) as [Hle | Hgt].
  - destruct (Z.leb_spec Int.INT_MIN (k + 1)); cbn [andb]; [|reflexivity].
    apply IH; lia.
  - rewrite andb_false_r. reflexivity.
Qed.


(** [main] ends by announcing it. *)
Lemma main_output_ends N mode rt a b dist clk u s :
  main N mode rt a b dist clk = Some (u, s) ->
  exists before,
    output (hist s)
    = (before ++ nl ++ "Simulation finished." ++ nl)%string.
Proof.
  unfold main. unfold bind at 1.
  destruct ((if mode =? 1 then simulate_with_inputs a b
             else seed_rng ;; for_int (Z.to_nat N) 0 (random_round dist)) _)
    as [[[] s1]|]; [|discriminate].
  rewrite emit_eq. intros H. injection H as _ <-.
  exists (output (hist s1)). cbn [hist advanced]. rewrite output_app.
  reflexivity.
Qed.

(** ** Timestamps *)

Lemma digit_injective (n m : nat) :
  digit n = digit m -> (n mod 10 = m mod 10)%nat.
Proof.
  unfold digit. intros H. apply (f_equal nat_of_ascii) in H.
  assert (n mod 10 < 10)%nat by (apply Nat.mod_upper_bound; lia).
  assert (m mod 10 < 10)%nat by (apply Nat.mod_upper_bound; lia).
  rewrite !nat_ascii_embedding in H by lia. lia.
Qed.

Lemma two_digits_injective (n m : nat) :
  (n < 100)%nat -> (m < 100)%nat -> two_digits n = two_digits m -> n = m.
Proof.
  intros Hn Hm H.
  assert (Qn : (n / 10 < 10)%nat) by (apply Nat.Div0.div_lt_upper_bound; lia).
  assert (Qm : (m / 10 < 10)%nat) by (apply Nat.Div0.div_lt_upper_bound; lia).
  pose proof (Nat.div_mod_eq n 10) as En.
  pose proof (Nat.div_mod_eq m 10) as Em.
  unfold two_digits in H.
  remember (n / 10)%nat as qn. remember (m / 10)%nat as qm.
  remember (n mod 10)%nat as rn. remember (m mod 10)%nat as rm.
  assert (H1 : digit qn = digit qm) by congruence.
  assert (H2 : digit n = digit m) by congruence.
  apply digit_injective in H1, H2.
  rewrite !Nat.mod_small in H1 by assumption.
  rewrite <- Heqrn, <- Heqrm in H2. lia.
Qed.

Lemma reachable_no_sleep D c0 clk s :
  realtime_delay c0 = false -> reachable D c0 clk s -> sleeps (hist s) = [].
Proof.
  intros Hf.
  induction 1 as [| s text u s' Hs IH E | s a b k [] s' Hs IH _ E
                   | s t s' Hs IH E].
  - reflexivity.
  - rewrite emit_eq in E. injection E as _ <-. cbn [hist advanced].
    rewrite sleeps_app, IH. reflexivity.
  - destruct (reachable_configuration _ _ _ _ Hs) as [Hc _].
    apply cycle_iff in E. destruct E as (c1 & h & Ha & ->).
    cbn [hist advanced]. rewrite sleeps_app, IH.
    rewrite (sleeps_cycle_events_fast _ _ _ _ _ _ _ _ Ha); [reflexivity|].
    unfold configuration in Hc. injection Hc as _ _ _ _ _ ->. exact Hf.
  - unfold read_clock in E. injection E as _ <-. exact IH.
Qed.

(** ** More about the allocation *)

(** X1.  A negative total is treated like an empty one: the guard is
    [total <= 0.0], so densities with a negative sum give both
    directions [min_green], whatever the bounds, and leave the yellow
    durations alone. *)
Theorem negative_total_gives_minimum (a b lo hi : Z) (s : Sim) :
  a + b < 0 ->
  (exists s',
     compute_and_set_green a b s = Some (tt, s') /\
     green_duration (ns (ctl s')) = min_green (ctl s) /\
     green_duration (ew (ctl s')) = min_green (ctl s) /\
     yellow_duration (ns (ctl s')) = yellow_duration (ns (ctl s)) /\
     yellow_duration (ew (ctl s')) = yellow_duration (ew (ctl s))) /\
  allocate a b lo hi = Some (lo, lo).
Proof.
  intros H. split.
  - eexists. split; [apply compute_and_set_green_minimal; lia|].
    repeat split.
  - unfold allocate. rewrite compute_and_set_green_minimal by lia. reflexivity.
Qed.

Lemma negative_total_gives_minimum_witness :
  allocate (-9) 4 5 40 = Some (5, 5).
Proof.
  exact (proj2 (negative_total_gives_minimum (-9) 4 5 40
                  (start sample_controller sample_clock) eq_refl)).
Defined.

(** X2.  When only one direction has traffic it gets [max_green] and the
    other [min_green], for every positive density and all bounds
    [max_green >= min_green >= 0]. *)
Theorem one_sided_traffic_takes_all (a lo hi : Z) :
  0 < a <= Int.INT_MAX -> 0 <= lo -> lo <= hi -> hi <= Int.INT_MAX ->
  allocate a 0 lo hi = Some (hi, lo) /\
  allocate 0 a lo hi = Some (lo, hi).
Proof.
  intros Ha H0 Hle Hmax.
  assert (Hfull : rounded_share a a (hi - lo) = hi - lo).
  { destruct (rounded_share_near a a (hi - lo)) as [L U]; try lia.
    assert (a * (hi - lo - 1) < a * rounded_share a a (hi - lo)) by lia.
    assert (a * rounded_share a a (hi - lo) < a * (hi - lo + 1)) by lia.
    assert (hi - lo - 1 < rounded_share a a (hi - lo))
      by (apply (Z.mul_lt_mono_pos_l a); lia).
    assert (rounded_share a a (hi - lo) < hi - lo + 1)
      by (apply (Z.mul_lt_mono_pos_l a); lia).
    lia. }
  assert (Hnone : rounded_share 0 a (hi - lo) = 0).
  { destruct (rounded_share_near 0 a (hi - lo)) as [L U]; try lia.
    assert (a * (-1) < a * rounded_share 0 a (hi - lo)) by lia.
    assert (a * rounded_share 0 a (hi - lo) < a * 1) by lia.
    assert (-1 < rounded_share 0 a (hi - lo))
      by (apply (Z.mul_lt_mono_pos_l a); lia).
    assert (rounded_share 0 a (hi - lo) < 1)
      by (apply (Z.mul_lt_mono_pos_l a); lia).
    lia. }
  split.
  - rewrite allocate_well_formed; try lia.
    + rewrite Z.add_0_r, Hfull, Hnone. f_equal. f_equal; lia.
    + unfold non_negative, Int.INT_MAX in *. lia.
  - rewrite allocate_well_formed; try lia.
    + rewrite Z.add_0_l, Hfull, Hnone. f_equal. f_equal; lia.
    + unfold non_negative, Int.INT_MAX in *. lia.
Qed.

Lemma one_sided_traffic_takes_all_witness :
  allocate 7 0 5 40 = Some (40, 5) /\ allocate 0 7 5 40 = Some (5, 40).
Proof.
  apply (one_sided_traffic_takes_all 7 5 40); unfold Int.INT_MAX; lia.
Defined.

(** X3.  The allocation has no preferred direction: exchanging the two
    densities exchanges the two durations, and it is defined for the
    one pair exactly when it is for the other. *)
Theorem allocation_symmetric (a b lo hi g1 g2 : Z) :
  allocate a b lo hi = Some (g1, g2) <-> allocate b a lo hi = Some (g2, g1).
Proof.
  assert (half : forall a b g1 g2,
             allocate a b lo hi = Some (g1, g2) ->
             allocate b a lo hi = Some (g2, g1)).
  { clear. intros a b g1 g2 H. apply allocate_some in H.
    destruct H as (c1 & h & Ha & <- & <-).
    destruct (allocated_swap _ _ _ _ _ Ha) as (c1' & h' & Ha' & E1 & E2).
    apply allocate_some. exists c1', h'. repeat split; assumption. }
  split; apply half.
Qed.

(** X4.  Each green duration is [min_green] plus the exact proportional
    share [density * (max_green - min_green) / total] rounded down or
    rounded up: the floating-point evaluation never moves it further. *)
Theorem allocation_rounds_down_or_up (a b lo hi : Z) :
  0 <= lo -> lo <= hi -> hi <= Int.INT_MAX -> non_negative a b -> 0 < a + b ->
  exists g_ns g_ew,
    allocate a b lo hi = Some (g_ns, g_ew) /\
    lo + a * (hi - lo) / (a + b) <= g_ns
      <= lo + (a * (hi - lo) + (a + b) - 1) / (a + b) /\
    lo + b * (hi - lo) / (a + b) <= g_ew
      <= lo + (b * (hi - lo) + (a + b) - 1) / (a + b).
Proof.
  intros H0 Hle Hmax Hd Hp. pose proof Hd as [Ha Hb].
  eexists _, _. split; [now apply allocate_well_formed|].
  pose proof (rounded_share_bracket a (a + b) (hi - lo)) as B1.
  pose proof (rounded_share_bracket b (a + b) (hi - lo)) as B2.
  split; [specialize (B1 ltac:(lia) ltac:(lia) ltac:(lia))
         | specialize (B2 ltac:(lia) ltac:(lia) ltac:(lia))]; lia.
Qed.

Lemma allocation_rounds_down_or_up_witness :
  exists g_ns g_ew,
    allocate 23 47 5 40 = Some (g_ns, g_ew) /\
    5 + 23 * (40 - 5) / (23 + 47) <= g_ns
      <= 5 + (23 * (40 - 5) + (23 + 47) - 1) / (23 + 47) /\
    5 + 47 * (40 - 5) / (23 + 47) <= g_ew
      <= 5 + (47 * (40 - 5) + (23 + 47) - 1) / (23 + 47).
Proof.
  apply (allocation_rounds_down_or_up 23 47 5 40);
    unfold non_negative, Int.INT_MAX; lia.
Defined.

(** X5.  The two green durations together spend the whole budget: their
    sum is [min_green + max_green], give or take one second of
    rounding. *)
Theorem allocation_spends_budget (a b lo hi : Z) :
  0 <= lo -> lo <= hi -> hi <= Int.INT_MAX -> non_negative a b -> 0 < a + b ->
  exists g_ns g_ew,
    allocate a b lo hi = Some (g_ns, g_ew) /\
    lo + hi - 1 <= g_ns + g_ew <= lo + hi + 1.
Proof.
  intros H0 Hle Hmax Hd Hp. pose proof Hd as [Ha Hb].
  eexists _, _. split; [now apply allocate_well_formed|].
  pose proof (rounded_shares_sum a b (hi - lo)) as S.
  specialize (S ltac:(lia) ltac:(lia) ltac:(lia) ltac:(lia)). lia.
Qed.

Lemma allocation_spends_budget_witness :
  exists g_ns g_ew,
    allocate 50 50 5 40 = Some (g_ns, g_ew) /\
    5 + 40 - 1 <= g_ns + g_ew <= 5 + 40 + 1.
Proof.
  apply (allocation_spends_budget 50 50 5 40);
    unfold non_negative, Int.INT_MAX; lia.
Defined.

Lemma tie_both_or_neither (a b E : Z) :
  0 < a + b ->
  (2 * a * E + (a + b)) mod (2 * (a + b)) <> 0 ->
  (2 * b * E + (a + b)) mod (2 * (a + b)) <> 0.
Proof.
  intros HT Ha Hb. apply Ha.
  apply Z.mod_divide in Hb; [|lia]. destruct Hb as [j Hj].
  apply Z.mod_divide; [lia|]. exists (E - j + 1). nia.
Qed.

(** X6.  Unless the exact share falls exactly halfway between two
    integers, and for totals up to [2 ^ 19], the floating-point
    evaluation has no effect: each green duration is [min_green] plus
    the exact share rounded to the nearest integer,
    [(2 * density * budget + total) / (2 * total)]. *)
Theorem allocation_nearest_away_from_ties (a b lo hi : Z) :
  0 <= lo -> lo <= hi -> hi <= Int.INT_MAX -> non_negative a b ->
  0 < a + b <= 2 ^ 19 ->
  (2 * a * (hi - lo) + (a + b)) mod (2 * (a + b)) <> 0 ->
  allocate a b lo hi
  = Some (lo + (2 * a * (hi - lo) + (a + b)) / (2 * (a + b)),
          lo + (2 * b * (hi - lo) + (a + b)) / (2 * (a + b))).
Proof.
  intros H0 Hle Hmax Hd Hp Htie. pose proof Hd as [Ha Hb].
  rewrite allocate_well_formed; try assumption; [|lia].
  rewrite (rounded_share_exact a (a + b) (hi - lo)); try lia.
  rewrite (rounded_share_exact b (a + b) (hi - lo)); try lia.
  - reflexivity.
  - apply tie_both_or_neither; [lia | exact Htie].
Qed.

Lemma allocation_nearest_away_from_ties_witness :
  allocate 20 60 5 40
  = Some (5 + (2 * 20 * (40 - 5) + (20 + 60)) / (2 * (20 + 60)),
          5 + (2 * 60 * (40 - 5) + (20 + 60)) / (2 * (20 + 60))).
Proof.
  apply (allocation_nearest_away_from_ties 20 60 5 40).
  - lia.
  - lia.
  - unfold Int.INT_MAX. lia.
  - unfold non_negative, Int.INT_MAX. lia.
  - change (2 ^ 19) with 524288. lia.
  - intros H. vm_compute in H. discriminate H.
Defined.

(** X7.  Whatever the densities, negative ones included, a defined
    allocation leaves both green durations within the bounds, and it
    changes nothing of the controller but durations: the phases, the
    names and the configuration stay as they were. *)
Theorem allocation_clamps_any_density (a b : Z) (s : Sim) (u : unit) (s' : Sim) :
  compute_and_set_green a b s = Some (u, s') ->
  (0 < a + b \/ min_green (ctl s) <= max_green (ctl s) ->
   green_within_bounds (ctl s')) /\
  state (ns (ctl s')) = state (ns (ctl s)) /\
  state (ew (ctl s')) = state (ew (ctl s)) /\
  name (ns (ctl s')) = name (ns (ctl s)) /\
  name (ew (ctl s')) = name (ew (ctl s)) /\
  configuration (ctl s') = configuration (ctl s).
Proof.
  destruct u. intros H. apply compute_and_set_green_iff in H.
  destruct H as (c1 & h & Ha & ->). cbn [ctl advanced].
  destruct (allocated_frame _ _ _ _ _ Ha) as [(Hc & Sn & Sw & Nn & Nw) _].
  split; [|repeat split; assumption].
  intros Hor. apply (allocated_bounds _ _ _ _ _ Ha).
  destruct Hor as [Hpos | Hle]; [|exact Hle].
  destruct Ha as [? | extra g1 g2 k1 k2 _ _ _ _ Hk _]; [lia|].
  apply clamp_spec in Hk. lia.
Qed.

Lemma allocation_clamps_any_density_witness :
  exists s',
    compute_and_set_green (-5) 10 (start sample_controller sample_clock)
    = Some (tt, s') /\
    green_within_bounds (ctl s').
Proof.
  destruct (compute_and_set_green (-5) 10 (start sample_controller sample_clock))
    as [[[] s']|] eqn:E.
  - exists s'. split; [reflexivity|].
    apply (allocation_clamps_any_density (-5) 10 _ tt s' E). left. lia.
  - vm_compute in E. discriminate E.
Defined.

Section ShareMonotone.
Local Open Scope Q_scope.

(** A larger proportion gets a share that is no smaller. *)
Lemma rounded_share_mono (a T a' T' E : Z) :
  (0 <= a <= T)%Z -> (0 <= a' <= T')%Z -> (0 < T)%Z -> (0 < T')%Z ->
  (a * T' <= a' * T)%Z -> (0 <= E <= Int.INT_MAX)%Z ->
  (rounded_share a T E <= rounded_share a' T' E)%Z.
Proof.
  intros Ha Ha' HT HT' Hle HE.
  rewrite (rounded_share_floor a T E Ha HT HE).
  rewrite (rounded_share_floor a' T' E Ha' HT' HE).
  apply Qfloor_resp_le. apply Qplus_le_l.
  assert (HTq : 0 < inject_Z T)
    by (change 0 with (inject_Z 0); now rewrite <- Zlt_Qlt).
  assert (HTq' : 0 < inject_Z T')
    by (change 0 with (inject_Z 0); now rewrite <- Zlt_Qlt).
  assert (HEq : 0 <= inject_Z E)
    by (change 0 with (inject_Z 0); rewrite <- Zle_Qle; lia).
  assert (Q0 : 0 <= inject_Z a / inject_Z T).
  { apply Qle_shift_div_l; [assumption|]. rewrite Qmult_0_l.
    change 0 with (inject_Z 0). rewrite <- Zle_Qle. lia. }
  assert (Q1 : inject_Z a' / inject_Z T' <= inject_Z 1).
  { apply Qle_shift_div_r; [assumption|]. rewrite Qmult_1_l.
    rewrite <- Zle_Qle. lia. }
  assert (Qle' : inject_Z a / inject_Z T <= inject_Z a' / inject_Z T').
  { apply Qdiv_le_cross; lia. }
  unfold Double.mul, Double.div.
  pose proof (round_mono _ _ 1 Q0 Qle' Q1 ltac:(unfold Int.INT_MAX; lia)) as M.
  pose proof (round_bounds _ 1 Q0 ltac:(lra) ltac:(unfold Int.INT_MAX; lia))
    as [R0 _].
  assert (Q0' : 0 <= inject_Z a' / inject_Z T') by lra.
  pose proof (round_bounds _ 1 Q0' Q1 ltac:(unfold Int.INT_MAX; lia))
    as [_ R1].
  set (q := Double.round (inject_Z a / inject_Z T)) in *.
  set (q' := Double.round (inject_Z a' / inject_Z T')) in *.
  change (inject_Z 1) with 1 in R1.
  apply (round_mono _ _ E).
  - apply Qmult_le_0_compat; assumption.
  - apply Qmult_le_compat_r; assumption.
  - rewrite <- (Qmult_1_l (inject_Z E)) at 2.
    apply Qmult_le_compat_r; assumption.
  - lia.
Qed.

End ShareMonotone.

(** X8.  More traffic on one road, the other road unchanged, never
    shortens its own green and never lengthens the other road's: the
    allocation is monotone in each density, rounding included. *)
Theorem allocation_monotone (a a' b lo hi : Z) :
  0 <= lo -> lo <= hi -> hi <= Int.INT_MAX ->
  non_negative a b -> non_negative a' b -> 0 < a + b -> a <= a' ->
  exists g_ns g_ew g_ns' g_ew',
    allocate a b lo hi = Some (g_ns, g_ew) /\
    allocate a' b lo hi = Some (g_ns', g_ew') /\
    g_ns <= g_ns' /\ g_ew' <= g_ew.
Proof.
  intros H0 Hle Hmax Hd Hd' Hp Haa.
  pose proof Hd as [Ha Hb]. pose proof Hd' as [Ha' _].
  eexists _, _, _, _.
  split; [apply allocate_well_formed; assumption|].
  split; [apply allocate_well_formed; try assumption; lia|].
  split.
  - apply Z.add_le_mono_l. apply rounded_share_mono; try lia; nia.
  - apply Z.add_le_mono_l. apply rounded_share_mono; try lia; nia.
Qed.

Lemma allocation_monotone_witness :
  exists g_ns g_ew g_ns' g_ew',
    allocate 23 47 5 40 = Some (g_ns, g_ew) /\
    allocate 24 47 5 40 = Some (g_ns', g_ew') /\
    g_ns <= g_ns' /\ g_ew' <= g_ew.
Proof.
  apply (allocation_monotone 23 24 47 5 40);
    unfold non_negative, Int.INT_MAX; lia.
Defined.

(** Equal proportions get equal shares. *)
Lemma rounded_share_ratio (a T a' T' E : Z) :
  0 <= a <= T -> 0 <= a' <= T' -> 0 < T -> 0 < T' ->
  a * T' = a' * T -> 0 <= E <= Int.INT_MAX ->
  rounded_share a T E = rounded_share a' T' E.
Proof.
  intros Ha Ha' HT HT' He HE.
  apply Z.le_antisymm; apply rounded_share_mono; try assumption; lia.
Qed.

Section HalfShare.
Local Open Scope Q_scope.

Lemma round_nearest_even_Z (x : Q) (m : Z) :
  x == inject_Z m -> Double.round_nearest_even x = m.
Proof.
  intros H. unfold Double.round_nearest_even.
  assert (F : Qfloor x = m) by (rewrite H; apply Qfloor_Z).
  rewrite F.
  assert (L : x - inject_Z m < 1 # 2) by (rewrite H; lra).
  now rewrite (proj1 (Qlt_alt _ _) L).
Qed.

(** Half of an [int] is a binary64 number. *)
Lemma round_half (x : Q) (E : Z) :
  (0 <= E <= Int.INT_MAX)%Z -> x == inject_Z E / 2 -> Double.round x == x.
Proof.
  intros HE Hx.
  assert (H0 : 0 <= x).
  { rewrite Hx. apply Qle_shift_div_l; [reflexivity|]. rewrite Qmult_0_l.
    change 0 with (inject_Z 0). rewrite <- Zle_Qle. lia. }
  assert (HN : x <= inject_Z E).
  { rewrite Hx. apply Qle_shift_div_r; [reflexivity|].
    assert (0 <= inject_Z E)
      by (change 0 with (inject_Z 0); rewrite <- Zle_Qle; lia).
    lra. }
  pose proof (ilog2_le x E H0 HN ltac:(lia)) as L.
  unfold Double.round, Double.ulp_exp. rewrite Qabs_nonneg_eq by assumption.
  set (e := Z.max (Double.ilog2 x - 52) (- 1074)).
  assert (He : (e < 0)%Z) by lia.
  destruct (Z.leb_spec 0 e) as [? | _]; [lia|].
  assert (K : (2 ^ (- e) = 2 * 2 ^ (- e - 1))%Z).
  { rewrite <- (Z.pow_succ_r 2) by lia. f_equal. lia. }
  pose proof (pow2_pos (- e - 1) ltac:(lia)) as P.
  assert (Kq : ~ inject_Z (2 ^ (- e)) == 0).
  { intros C. unfold Qeq in C. cbn in C. lia. }
  rewrite (round_nearest_even_Z _ (E * 2 ^ (- e - 1))).
  - rewrite Hx, K, !inject_Z_mult. change (inject_Z 2) with 2.
    field. intros C. unfold Qeq in C. cbn in C. lia.
  - rewrite Hx, K, !inject_Z_mult. change (inject_Z 2) with 2. field.
Qed.

Lemma rounded_share_half (E : Z) :
  (0 <= E <= Int.INT_MAX)%Z -> rounded_share 1 2 E = ((E + 1) / 2)%Z.
Proof.
  intros HE.
  rewrite rounded_share_floor by lia.
  unfold Double.mul, Double.div.
  assert (Q : Double.round (inject_Z 1 / inject_Z 2) == 1 # 2).
  { rewrite (round_half _ 1).
    - reflexivity.
    - unfold Int.INT_MAX. lia.
    - reflexivity. }
  assert (X : Double.round (inject_Z 1 / inject_Z 2) * inject_Z E
              == inject_Z E / 2)
    by (rewrite Q; field).
  rewrite (round_half _ E HE X), X.
  assert (F : inject_Z E / 2 + (1 # 2) == (E + 1) # 2).
  { unfold Qeq. cbn. lia. }
  rewrite F. reflexivity.
Qed.

End HalfShare.

(** X9.  Only the proportion of the two densities matters: two density
    pairs in the same ratio get the same green durations, the rounding
    of the floating-point evaluation included. *)
Theorem allocation_depends_on_ratio (a b a' b' lo hi : Z) :
  0 <= lo -> lo <= hi -> hi <= Int.INT_MAX ->
  non_negative a b -> non_negative a' b' ->
  0 < a + b -> 0 < a' + b' -> a * b' = a' * b ->
  allocate a b lo hi = allocate a' b' lo hi.
Proof.
  intros H0 Hle Hmax Hd Hd' Hp Hp' Hr.
  pose proof Hd as [Ha Hb]. pose proof Hd' as [Ha' Hb'].
  rewrite !allocate_well_formed by assumption.
  rewrite (rounded_share_ratio a (a + b) a' (a' + b')) by (try lia; nia).
  rewrite (rounded_share_ratio b (a + b) b' (a' + b')) by (try lia; nia).
  reflexivity.
Qed.

Lemma allocation_depends_on_ratio_witness :
  allocate 30 70 5 40 = allocate 3 7 5 40.
Proof.
  apply (allocation_depends_on_ratio 30 70 3 7 5 40);
    unfold non_negative, Int.INT_MAX; lia.
Defined.

(** X10.  Equal densities get equal green durations, [min_green] plus
    half the budget, and an odd budget is rounded up for both: the two
    together then last one second more than [min_green + max_green]. *)
Theorem balanced_traffic_splits_evenly (a lo hi : Z) :
  0 < a <= Int.INT_MAX -> 0 <= lo -> lo <= hi -> hi <= Int.INT_MAX ->
  allocate a a lo hi
  = Some (lo + (hi - lo + 1) / 2, lo + (hi - lo + 1) / 2).
Proof.
  intros Ha H0 Hle Hmax.
  rewrite allocate_well_formed; try lia; [|unfold non_negative; lia].
  rewrite (rounded_share_ratio a (a + a) 1 2) by lia.
  rewrite rounded_share_half by lia. reflexivity.
Qed.

Lemma balanced_traffic_splits_evenly_witness :
  allocate 50 50 5 40 = Some (5 + (40 - 5 + 1) / 2, 5 + (40 - 5 + 1) / 2).
Proof.
  apply (balanced_traffic_splits_evenly 50 5 40); unfold Int.INT_MAX; lia.
Defined.

(** ** More about runs *)

(** X11.  In fast mode a run never blocks: whatever the durations, no
    cycle puts the thread to sleep. *)
Theorem fast_mode_never_sleeps
    (minG maxG yellow allred n : Z) (clk : nat -> tm) (s : Sim) :
  reachable any_density
    (new_IntersectionController minG maxG yellow allred n false) clk s ->
  sleeps (hist s) = [].
Proof. apply reachable_no_sleep. reflexivity. Qed.

Lemma fast_mode_never_sleeps_witness : sleeps (hist sample_after_cycle) = [].
Proof.
  exact (fast_mode_never_sleeps 5 40 3 1 2 sample_clock sample_after_cycle
           (sample_reachable any_density I)).
Defined.

(** X12.  In real-time mode, with positive durations configured, a cycle
    keeps the thread asleep for exactly the two green durations it
    allocated plus twice the yellow time plus twice the all-red time,
    which lies between [2 * (min_green + yellow_time + all_red_time)]
    and [2 * (max_green + yellow_time + all_red_time)] seconds. *)
Theorem real_time_cycle_duration
    (minG maxG yellow allred n : Z) (clk : nat -> tm)
    (s : Sim) (a b k : Z) (u : unit) (s' : Sim) :
  0 < minG -> minG <= maxG -> 0 < yellow -> 0 < allred ->
  reachable any_density
    (new_IntersectionController minG maxG yellow allred n true) clk s ->
  cycle a b k s = Some (u, s') ->
  let g_ns := green_duration (ns (ctl s')) in
  let g_ew := green_duration (ew (ctl s')) in
  total (sleeps (hist s'))
  = total (sleeps (hist s)) + (g_ns + g_ew + 2 * yellow + 2 * allred) /\
  2 * (minG + yellow + allred) <= g_ns + g_ew + 2 * yellow + 2 * allred
    <= 2 * (maxG + yellow + allred).
Proof.
  intros Hmin Hle Hy Hr Hs H. destruct u. apply cycle_iff in H.
  destruct H as (c1 & h & Ha & ->).
  destruct (reachable_yellow _ _ _ _ (new_yellow _ _ _ _ _ _) Hs) as [Yc _].
  destruct (reachable_configuration _ _ _ _ Hs) as [Hc _].
  unfold configuration in Hc. injection Hc as Elo Ehi Ey Er _ Ert.
  cbn in Elo, Ehi, Ey, Er, Ert.
  assert (Hb : green_within_bounds c1).
  { apply (allocated_bounds _ _ _ _ _ Ha). lia. }
  destruct (allocated_frame _ _ _ _ _ Ha) as [(Hc1 & _) _].
  unfold configuration in Hc1. injection Hc1 as Elo1 Ehi1 _ _ _ _.
  destruct Hb as [[B1 B2] [B3 B4]].
  cbn [hist ctl advanced run_phase_ctl phase_ctl update_light ns ew
       with_state green_duration].
  rewrite sleeps_app, total_app.
  rewrite (sleeps_cycle_events _ _ _ _ _ _ _ _ Ha Yc), Ert, Ey, Er.
  rewrite cycle_sleeps_positive by lia.
  unfold total. cbn [fold_right]. split; lia.
Qed.

Lemma real_time_cycle_runs :
  cycle 30 70 1 (start real_time_controller sample_clock)
  = Some (tt, real_time_after_cycle).
Proof. vm_compute. reflexivity. Qed.

Lemma real_time_cycle_duration_witness :
  total (sleeps (hist real_time_after_cycle))
  = 0 + (green_duration (ns (ctl real_time_after_cycle))
         + green_duration (ew (ctl real_time_after_cycle)) + 2 * 3 + 2 * 1) /\
  2 * (5 + 3 + 1)
  <= green_duration (ns (ctl real_time_after_cycle))
     + green_duration (ew (ctl real_time_after_cycle)) + 2 * 3 + 2 * 1
  <= 2 * (40 + 3 + 1).
Proof.
  apply (real_time_cycle_duration 5 40 3 1 2 sample_clock
           (start real_time_controller sample_clock) 30 70 1 tt
           real_time_after_cycle); try lia.
  - apply reach_start.
  - exact real_time_cycle_runs.
Defined.

(** X13.  A run never renames a light, never writes a red duration and
    never changes the configuration: at every point the lights are
    called North-South and East-West, their red durations are the 0 they
    were constructed with, and the bounds, the yellow and all-red times,
    the cycle count and the timing mode are those given to the
    constructor. *)
Theorem run_leaves_names_and_configuration
    (minG maxG yellow allred n : Z) (rt : bool) (clk : nat -> tm) (s : Sim) :
  let c0 := new_IntersectionController minG maxG yellow allred n rt in
  reachable any_density c0 clk s ->
  Forall (fun c =>
            name (ns c) = "North-South"%string /\
            name (ew c) = "East-West"%string /\
            red_duration (ns c) = 0 /\ red_duration (ew c) = 0 /\
            configuration c = (minG, maxG, yellow, allred, n, rt))
         (c0 :: snapshots (hist s)).
Proof.
  intros c0 Hs. constructor; [repeat split|].
  destruct (reachable_untouched _ _ _ _ Hs) as [_ Hu].
  eapply Forall_impl; [|exact Hu].
  intros c (H1 & H2 & H3 & H4 & H5). repeat split; assumption.
Qed.

Lemma run_leaves_names_and_configuration_witness :
  Forall (fun c =>
            name (ns c) = "North-South"%string /\
            name (ew c) = "East-West"%string /\
            red_duration (ns c) = 0 /\ red_duration (ew c) = 0 /\
            configuration c = (5, 40, 3, 1, 2, false))
         (sample_controller :: snapshots (hist sample_after_cycle)).
Proof.
  exact (run_leaves_names_and_configuration 5 40 3 1 2 false sample_clock
           sample_after_cycle (sample_reachable any_density I)).
Defined.

(** X14.  The program reads the system clock once for every phase
    transition, to stamp its line, and in random mode once more, to seed
    the random generator; it reads it at no other time. *)
Theorem clock_read_once_per_transition
    (N mode : Z) (rt : bool) (a b : Z) (dist : nat -> Z) (clk : nat -> tm)
    (u : unit) (s : Sim) :
  main N mode rt a b dist clk = Some (u, s) ->
  clock_reads s
  = (List.length (transitions (hist s)) + if (mode =? 1)%Z then 0 else 1)%nat.
Proof.
  intros H. rewrite (main_clock_reads _ _ _ _ _ _ _ _ _ H).
  destruct (mode =? 1); reflexivity.
Qed.

Lemma clock_read_once_per_transition_witness :
  exists s,
    main 2 2 false 0 0 sample_dist sample_clock = Some (tt, s) /\
    List.length (transitions (hist s)) = 24%nat /\
    clock_reads s = 25%nat.
Proof.
  destruct (main 2 2 false 0 0 sample_dist sample_clock) as [[[] s]|] eqn:E.
  - exists s. split; [reflexivity|].
    pose proof (clock_read_once_per_transition 2 2 false 0 0 sample_dist
                  sample_clock tt s E) as H.
    assert (L : List.length (transitions (hist s)) = 24%nat).
    { vm_compute in E. injection E as <-. reflexivity. }
    split; [exact L|]. rewrite H, L. reflexivity.
  - vm_compute in E. discriminate E.
Defined.

(** X15.  With a cycle count of zero or less [simulate_with_inputs] runs
    no cycle: it writes its heading and nothing else happens, no
    allocation, no phase transition, no sleep, and the controller is
    left as it was. *)
Theorem no_cycle_when_count_not_positive (a b : Z) (s : Sim) :
  cycles (ctl s) <= 0 ->
  exists s',
    simulate_with_inputs a b s = Some (tt, s') /\
    ctl s' = ctl s /\
    allocations (hist s') = allocations (hist s) /\
    transitions (hist s') = transitions (hist s) /\
    sleeps (hist s') = sleeps (hist s) /\
    List.length (hist s') = S (List.length (hist s)).
Proof.
  intros H. unfold simulate_with_inputs.
  unfold bind at 1, member. unfold bind at 1. rewrite emit_eq.
  replace (Z.to_nat (cycles (ctl s))) with 0%nat by lia.
  eexists. split; [reflexivity|]. cbn [hist ctl advanced].
  rewrite allocations_app, transitions_app, sleeps_app, length_app.
  cbn. rewrite !app_nil_r. repeat split. lia.
Qed.

Lemma no_cycle_when_count_not_positive_witness :
  exists s',
    simulate_with_inputs 30 70
      (start (new_IntersectionController 5 40 3 1 0 false) sample_clock)
    = Some (tt, s') /\
    ctl s' = new_IntersectionController 5 40 3 1 0 false /\
    allocations (hist s') = [] /\
    transitions (hist s') = [] /\
    sleeps (hist s') = [] /\
    List.length (hist s') = 1%nat.
Proof.
  apply (no_cycle_when_count_not_positive 30 70
           (start (new_IntersectionController 5 40 3 1 0 false) sample_clock)).
  cbn. lia.
Defined.




(** X17.  A cycle count of [INT_MAX] has no defined outcome: the loop
    counter of [simulate_with_inputs] would have to pass [INT_MAX] for
    the loop to end. *)
Theorem simulate_undefined_at_int_max (a b : Z) (s : Sim) :
  cycles (ctl s) = Int.INT_MAX ->
  simulate_with_inputs a b s = None.
Proof.
  intros H. unfold simulate_with_inputs.
  unfold bind at 1, member. unfold bind at 1. rewrite emit_eq, H.
  apply for_int_overflow.
  - assert (0 < Int.INT_MAX) by (unfold Int.INT_MAX; lia). lia.
  - assert (0 < Int.INT_MAX) by (unfold Int.INT_MAX; lia). lia.
Qed.

Lemma simulate_undefined_at_int_max_witness :
  simulate_with_inputs 30 70
    (start (new_IntersectionController 5 40 3 1 Int.INT_MAX false) sample_clock)
  = None.
Proof.
  exact (simulate_undefined_at_int_max 30 70
           (start (new_IntersectionController 5 40 3 1 Int.INT_MAX false)
                  sample_clock) eq_refl).
Defined.

(** ** More about [main] *)




(** X19.  On well-formed input [main] runs to completion without
    undefined behaviour: for a cycle count below [INT_MAX], non-negative
    densities in manual mode and draws in [[0, 100]] in random mode, it
    ends, both lights RED, having last written "Simulation finished.". *)
Theorem main_runs_to_completion
    (N mode : Z) (rt : bool) (a b : Z) (dist : nat -> Z) (clk : nat -> tm) :
  N < Int.INT_MAX ->
  (mode = 1 -> non_negative a b) ->
  (forall k, 0 <= dist k <= 100) ->
  exists s,
    main N mode rt a b dist clk = Some (tt, s) /\
    all_red (ctl s) /\
    exists before,
      output (hist s) = (before ++ nl ++ "Simulation finished." ++ nl)%string.
Proof.
  intros HN Hman Hdist.
  destruct (main_defined N mode rt a b dist clk HN Hman Hdist) as (s & E).
  exists s. split; [exact E|]. split.
  - apply (reachable_all_red any_density
             (new_IntersectionController 5 40 3 1 N rt) clk).
    + apply new_all_red.
    + apply (main_reachable _ _ _ _ _ _ _ _ _ E).
  - apply (main_output_ends _ _ _ _ _ _ _ _ _ E).
Qed.

Lemma sample_dist_range (k : nat) : 0 <= sample_dist k <= 100.
Proof.
  unfold sample_dist.
  do 4 (destruct k as [| k]; [cbn; lia|]). destruct k; cbn; lia.
Qed.

Lemma main_runs_to_completion_witness :
  exists s,
    main 2 2 true 0 0 sample_dist sample_clock = Some (tt, s) /\
    all_red (ctl s) /\
    exists before,
      output (hist s) = (before ++ nl ++ "Simulation finished." ++ nl)%string.
Proof.
  apply (main_runs_to_completion 2 2 true 0 0 sample_dist sample_clock).
  - unfold Int.INT_MAX. lia.
  - intros H. discriminate H.
  - exact sample_dist_range.
Defined.

(** ** The program on its console input *)

(** X20.  When the first thing on the input is not a number an [int]
    can hold (no input at all, other text, a number out of range), the
    program exits with code 0 right after its first prompt: nothing
    else is written and no simulation takes place. *)
Theorem program_exits_without_cycle_count
    (input : list Token) (dist : nat -> Z) (clk : nat -> tm) :
  no_cycle_count input ->
  program input dist clk
  = Some {| exit_code := 0;
            stdout := (banner ++ prompt_cycles)%string;
            simulation := None |}.
Proof.
  intros H. unfold program, read_int. cbn [failbit pending].
  destruct input as [| [z |] rest]; try reflexivity.
  unfold no_cycle_count in H.
  destruct (Z.ltb_spec z Int.INT_MIN); [reflexivity|].
  destruct (Z.ltb_spec Int.INT_MAX z); [reflexivity|]. lia.
Qed.

Lemma program_exits_without_cycle_count_witness :
  program [Junk; Num 1; Num 0] sample_dist sample_clock
  = Some {| exit_code := 0;
            stdout := (banner ++ prompt_cycles)%string;
            simulation := None |}.
Proof.
  exact (program_exits_without_cycle_count [Junk; Num 1; Num 0]
           sample_dist sample_clock I).
Defined.

Lemma read_int_in_range z rest :
  Int.in_range z ->
  read_int None {| pending := Num z :: rest; failbit := false |}
  = (Some z, {| pending := rest; failbit := false |}).
Proof.
  unfold Int.in_range, read_int. intros [H1 H2]. cbn [failbit pending].
  destruct (Z.ltb_spec z Int.INT_MIN); [lia|].
  destruct (Z.ltb_spec Int.INT_MAX z); [lia|]. reflexivity.
Qed.

(** X21.  Five well-formed answers in manual mode (a cycle count below
    [INT_MAX], mode 1, timing 0 or 1, two non-negative densities) make
    the program write its five prompts, run [main] on exactly these
    values to completion and exit with code 0. *)
Theorem program_manual_run
    (n t a b : Z) (rest : list Token) (dist : nat -> Z) (clk : nat -> tm) :
  Int.INT_MIN <= n < Int.INT_MAX -> t = 0 \/ t = 1 -> non_negative a b ->
  exists s,
    main n 1 (t =? 1) a b dist clk = Some (tt, s) /\
    program (Num n :: Num 1 :: Num t :: Num a :: Num b :: rest) dist clk
    = Some {| exit_code := 0;
              stdout := (banner ++ prompt_cycles ++ prompt_mode
                         ++ prompt_realtime ++ prompt_ns ++ prompt_ew
                         ++ output (hist s))%string;
              simulation := Some s |}.
Proof.
  intros Hn Ht Hd.
  assert (Hdist : exists s, main n 1 (t =? 1) a b dist clk = Some (tt, s)).
  { unfold main. cbn [Z.eqb Pos.eqb]. unfold bind at 1.
    set (c0 := new_IntersectionController 5 40 3 1 n (t =? 1)).
    assert (Hc : well_configured c0)
      by (unfold well_configured, Int.INT_MAX; cbn; lia).
    destruct (simulate_defined c0 clk (start c0 clk) a b Hc) as (s1 & E & _).
    - apply Hn.
    - apply reach_start.
    - exact Hd.
    - rewrite E, emit_eq. eexists. reflexivity. }
  destruct Hdist as (s & E). exists s. split; [exact E|].
  unfold program.
  rewrite read_int_in_range by (unfold Int.in_range; lia).
  cbn [failbit].
  rewrite read_int_in_range by (unfold Int.in_range, Int.INT_MIN, Int.INT_MAX; lia).
  assert (Hb : read_bool false {| pending := Num t :: Num a :: Num b :: rest;
                                  failbit := false |}
               = (t =? 1, {| pending := Num a :: Num b :: rest;
                             failbit := false |})).
  { destruct Ht as [-> | ->]; reflexivity. }
  rewrite Hb. cbn [Z.eqb Pos.eqb].
  destruct Hd as [Ha Hbb].
  rewrite read_int_in_range
    by (unfold Int.in_range, Int.INT_MIN in *; unfold Int.INT_MAX in *; lia).
  rewrite read_int_in_range
    by (unfold Int.in_range, Int.INT_MIN in *; unfold Int.INT_MAX in *; lia).
  rewrite E. repeat rewrite string_app_assoc. reflexivity.
Qed.

Lemma program_manual_run_witness :
  exists s,
    main 2 1 (0 =? 1) 30 70 sample_dist sample_clock = Some (tt, s) /\
    program [Num 2; Num 1; Num 0; Num 30; Num 70] sample_dist sample_clock
    = Some {| exit_code := 0;
              stdout := (banner ++ prompt_cycles ++ prompt_mode
                         ++ prompt_realtime ++ prompt_ns ++ prompt_ew
                         ++ output (hist s))%string;
              simulation := Some s |}.
Proof.
  apply (program_manual_run 2 0 30 70 [] sample_dist sample_clock).
  - unfold Int.INT_MIN, Int.INT_MAX. lia.
  - left. reflexivity.
  - exact sample_non_negative.
Defined.

(** X22.  Text that is no number at the mode prompt selects the random
    mode in fast timing: the failed extraction stores 0 in [mode] and
    leaves [realtime] at [false], whatever follows on the input; the run
    then completes and never sleeps. *)
Theorem program_malformed_mode_runs_random
    (n : Z) (rest : list Token) (dist : nat -> Z) (clk : nat -> tm) :
  Int.INT_MIN <= n < Int.INT_MAX ->
  (forall k, 0 <= dist k <= 100) ->
  exists s,
    main n 0 false 0 0 dist clk = Some (tt, s) /\
    realtime_delay (ctl s) = false /\
    sleeps (hist s) = [] /\
    program (Num n :: Junk :: rest) dist clk
    = Some {| exit_code := 0;
              stdout := (banner ++ prompt_cycles ++ prompt_mode
                         ++ prompt_realtime ++ output (hist s))%string;
              simulation := Some s |}.
Proof.
  intros Hn Hdist.
  destruct (main_defined n 0 false 0 0 dist clk) as (s & E);
    [apply Hn | intros H; discriminate H | exact Hdist |].
  exists s. split; [exact E|].
  pose proof (main_reachable _ _ _ _ _ _ _ _ _ E) as Hr.
  split; [|split].
  - destruct (reachable_configuration _ _ _ _ Hr) as [Hc _].
    unfold configuration in Hc. now injection Hc as _ _ _ _ _ ->.
  - apply (reachable_no_sleep any_density
             (new_IntersectionController 5 40 3 1 n false) clk);
      [reflexivity | exact Hr].
  - unfold program.
    rewrite read_int_in_range by (unfold Int.in_range; lia).
    cbn [failbit read_int read_bool pending Z.eqb].
    rewrite E. repeat rewrite string_app_assoc. reflexivity.
Qed.

Lemma program_malformed_mode_runs_random_witness :
  exists s,
    main 2 0 false 0 0 sample_dist sample_clock = Some (tt, s) /\
    realtime_delay (ctl s) = false /\
    sleeps (hist s) = [] /\
    program [Num 2; Junk; Num 1] sample_dist sample_clock
    = Some {| exit_code := 0;
              stdout := (banner ++ prompt_cycles ++ prompt_mode
                         ++ prompt_realtime ++ output (hist s))%string;
              simulation := Some s |}.
Proof.
  apply (program_malformed_mode_runs_random 2 [Num 1] sample_dist sample_clock).
  - unfold Int.INT_MIN, Int.INT_MAX. lia.
  - exact sample_dist_range.
Defined.

(** X23.  When the input ends right after a valid cycle count the
    behaviour is undefined: no extraction stores to [mode], which is
    then compared with 1 uninitialised. *)
Theorem program_undefined_without_mode
    (n : Z) (dist : nat -> Z) (clk : nat -> tm) :
  Int.in_range n ->
  program [Num n] dist clk = None.
Proof.
  intros Hn. unfold program. rewrite read_int_in_range by assumption.
  reflexivity.
Qed.

Lemma program_undefined_without_mode_witness :
  program [Num 3] sample_dist sample_clock = None.
Proof.
  apply (program_undefined_without_mode 3 sample_dist sample_clock).
  unfold Int.in_range, Int.INT_MIN, Int.INT_MAX. lia.
Defined.

(** X24.  In manual mode an answer to the timing question other than 0
    or 1 makes the behaviour undefined: the extraction fails, so the two
    densities are never read and are passed on uninitialised. *)
Theorem program_undefined_after_bad_timing
    (n : Z) (t : Token) (rest : list Token) (dist : nat -> Z) (clk : nat -> tm) :
  Int.in_range n -> bad_timing t ->
  program (Num n :: Num 1 :: t :: rest) dist clk = None.
Proof.
  intros Hn Ht. unfold program. rewrite read_int_in_range by assumption.
  cbn [failbit].
  rewrite read_int_in_range
    by (unfold Int.in_range, Int.INT_MIN, Int.INT_MAX; lia).
  destruct t as [z |].
  - destruct Ht as [Z0 Z1].
    destruct z as [| p | p]; [contradiction | |]; try reflexivity.
    destruct p; try reflexivity. contradiction.
  - reflexivity.
Qed.

Lemma program_undefined_after_bad_timing_witness :
  program [Num 3; Num 1; Num 2; Num 30; Num 70] sample_dist sample_clock
  = None.
Proof.
  apply (program_undefined_after_bad_timing 3 (Num 2) [Num 30; Num 70]
           sample_dist sample_clock).
  - unfold Int.in_range, Int.INT_MIN, Int.INT_MAX. lia.
  - split; discriminate.
Defined.

(** X25.  A timestamp is eight characters, so it fits the nine-byte
    buffer with its terminator and [setw(3)] never pads it; and two
    different clock readings never print alike. *)
Theorem timestamp_faithful (t1 t2 : tm) :
  valid_tm t1 -> valid_tm t2 ->
  String.length (strftime_HMS t1) = 8%nat /\
  setw 3 (strftime_HMS t1) = strftime_HMS t1 /\
  (strftime_HMS t1 = strftime_HMS t2 -> t1 = t2).
Proof.
  intros (H1 & M1 & S1) (H2 & M2 & S2).
  split; [reflexivity|]. split; [reflexivity|].
  destruct t1 as [h1 m1 s1], t2 as [h2 m2 s2]. cbn [tm_hour tm_min tm_sec] in *.
  unfold strftime_HMS. cbn [tm_hour tm_min tm_sec].
  intros E.
  assert (Eh : two_digits h1 = two_digits h2).
  { unfold two_digits in *. cbn [String.append] in E. congruence. }
  assert (Em : two_digits m1 = two_digits m2).
  { unfold two_digits in *. cbn [String.append] in E. congruence. }
  assert (Es : two_digits s1 = two_digits s2).
  { unfold two_digits in *. cbn [String.append] in E. congruence. }
  apply two_digits_injective in Eh, Em, Es; try lia. congruence.
Qed.

Lemma timestamp_faithful_witness :
  String.length (strftime_HMS (sample_clock 7)) = 8%nat /\
  setw 3 (strftime_HMS (sample_clock 7)) = strftime_HMS (sample_clock 7) /\
  (strftime_HMS (sample_clock 7) = strftime_HMS (sample_clock 8) ->
   sample_clock 7 = sample_clock 8).
Proof.
  apply (timestamp_faithful (sample_clock 7) (sample_clock 8));
    unfold valid_tm; cbn; lia.
Defined.
